(** * Vector-Vibe: the acoustic feature pipeline

    A shallow embedding of the numeric core of the bot:

    - [extract_mfcc] (src/callbacks/user_cb.py, lines 52-55) serialises the
      [(n_mfcc, T)] array returned by the feature extractor with [tobytes];
    - [calculate_mean_mfcc] (src/handlers/cmds.py, lines 53-69) reads the
      stored buffers back with [frombuffer] and [reshape], and reduces them
      to one vector per user;
    - [match_users] (src/handlers/cmds.py, lines 71-75) scores two such
      vectors with the cosine similarity.

    Stored samples are 4-byte memory images. Their numeric content is read
    through an interpretation [value : float32 -> number], where a [number]
    is a real number, an infinity or NaN, and the arithmetic is the one of
    IEEE 754 without rounding and without overflow: the exact result where
    the operands are finite, and the rules of the standard for infinities,
    NaN and divisions by zero. What depends on rounding is outside this
    development. *)

From Stdlib Require Import String Ascii Strings.Byte.
From Stdlib Require Import ZArith QArith Qreals.
From Stdlib Require Import Reals Lra.
From Stdlib Require Import List Arith Lia Bool Permutation.
Import ListNotations.

Local Open Scope nat_scope.

Set Implicit Arguments.

(** ** Failure *)

(** Every failure of the modelled lines is a Python [ValueError]: a buffer
    whose size is not a multiple of the element size, an array that cannot
    be reshaped, two matrices of incompatible dimension. *)
Inductive result (A : Type) : Type :=
| Ok (a : A)
| ValueError.

Arguments Ok {A} a.
Arguments ValueError {A}.

Definition bind {A B : Type} (r : result A) (k : A -> result B) : result B :=
  match r with
  | Ok a => k a
  | ValueError => ValueError
  end.

Notation "x <- r ;; k" := (bind r (fun x => k))
  (at level 61, r at next level, right associativity).

(** ** Numbers *)

Module Number.

(** The values of a floating-point number, rounding and the sign of zero
    left aside. *)
Inductive number : Type :=
| Finite (x : R)
| PosInf
| NegInf
| NaN.

Definition is_finite (x : number) : bool :=
  match x with
  | Finite _ => true
  | _ => false
  end.

(** The product or quotient of a finite [r] and an infinity: [pos] when
    [r] is positive, [neg] when it is negative, NaN when it is zero. *)
Definition by_sign (r : R) (pos neg : number) : number :=
  if Req_dec_T r 0 then NaN else if Rlt_dec 0 r then pos else neg.

Definition opp (x : number) : number :=
  match x with
  | Finite r => Finite (- r)
  | PosInf => NegInf
  | NegInf => PosInf
  | NaN => NaN
  end.

Definition add (x y : number) : number :=
  match x, y with
  | NaN, _ | _, NaN => NaN
  | Finite a, Finite b => Finite (a + b)
  | PosInf, NegInf | NegInf, PosInf => NaN
  | PosInf, _ | _, PosInf => PosInf
  | NegInf, _ | _, NegInf => NegInf
  end.

Definition sub (x y : number) : number := add x (opp y).

Definition mul (x y : number) : number :=
  match x, y with
  | NaN, _ | _, NaN => NaN
  | Finite a, Finite b => Finite (a * b)
  | Finite a, PosInf | PosInf, Finite a => by_sign a PosInf NegInf
  | Finite a, NegInf | NegInf, Finite a => by_sign a NegInf PosInf
  | PosInf, PosInf | NegInf, NegInf => PosInf
  | PosInf, NegInf | NegInf, PosInf => NegInf
  end.

(** A finite number divided by zero is an infinity, and 0/0 is NaN. *)
Definition div (x y : number) : number :=
  match x, y with
  | NaN, _ | _, NaN => NaN
  | Finite a, Finite b =>
      if Req_dec_T b 0 then by_sign a PosInf NegInf else Finite (a / b)
  | Finite _, PosInf | Finite _, NegInf => Finite 0
  | PosInf, Finite b => if Rlt_dec b 0 then NegInf else PosInf
  | NegInf, Finite b => if Rlt_dec b 0 then PosInf else NegInf
  | PosInf, PosInf | PosInf, NegInf | NegInf, PosInf | NegInf, NegInf => NaN
  end.

Definition sqrt (x : number) : number :=
  match x with
  | Finite r => if Rlt_dec r 0 then NaN else Finite (R_sqrt.sqrt r)
  | PosInf => PosInf
  | NegInf | NaN => NaN
  end.

(** The number of elements of an array, as a divisor. *)
Definition of_nat (n : nat) : number := Finite (INR n).

(** Python's [max(0, x)]: [x] when [x > 0] holds, 0 otherwise, and so 0
    for NaN. *)
Definition max0 (x : number) : number :=
  match x with
  | Finite r => if Rlt_dec 0 r then Finite r else Finite 0
  | PosInf => PosInf
  | NegInf | NaN => Finite 0
  end.

(** [x < 0] *)
Definition negative (x : number) : Prop :=
  match x with
  | Finite r => (r < 0)%R
  | NegInf => True
  | PosInf | NaN => False
  end.

(** The finite vector of the given real components. *)
Definition lift (a : list R) : list number := map Finite a.

End Number.

(** ** Stored samples *)

Module Codec.

(** A [float32] array element as it sits in memory: four bytes, lowest
    address first. *)
Record float32 : Type := F32 { b0 : byte; b1 : byte; b2 : byte; b3 : byte }.

Definition float32_bytes (x : float32) : list byte :=
  [b0 x; b1 x; b2 x; b3 x].

(** The array held by the code has one row per coefficient and one column
    per frame: shape [(n_mfcc, T)]. *)
Definition ndarray : Type := list (list float32).

Definition has_shape (rows cols : nat) (m : ndarray) : Prop :=
  length m = rows /\ Forall (fun r => length r = cols) m.

(** [ravel]: the elements in C order, row after row. *)
Definition ravel (m : ndarray) : list float32 := concat m.

(** [np.array(mfcc).tobytes()]: the raw bytes of the elements in C order. *)
Definition tobytes (m : ndarray) : list byte :=
  flat_map float32_bytes (ravel m).

(** [np.frombuffer(buf, dtype=np.float32)]: raises when the size of the
    buffer is not a multiple of the element size. *)
Fixpoint frombuffer (buf : list byte) : result (list float32) :=
  match buf with
  | [] => Ok []
  | x0 :: x1 :: x2 :: x3 :: rest =>
      xs <- frombuffer rest ;; Ok (F32 x0 x1 x2 x3 :: xs)
  | _ => ValueError
  end.

(** The [rows] consecutive slices of width [cols] of a flat array. *)
Fixpoint chunks {A : Type} (cols rows : nat) (xs : list A) : list (list A) :=
  match rows with
  | O => []
  | S k => firstn cols xs :: chunks cols k (skipn cols xs)
  end.

(** [a.reshape(rows, -1)]: the missing dimension is the size divided by
    [rows]; raises when [rows] is 0 and when [rows] does not divide the
    size. An empty array is reshaped to [rows] rows without columns. *)
Definition reshape {A : Type} (rows : nat) (xs : list A) : result (list (list A)) :=
  let size := length xs in
  if (rows =? 0) || negb (size mod rows =? 0)
  then ValueError
  else Ok (chunks (size / rows) rows xs).

(** The decoder of line 60: [np.frombuffer(mfcc, dtype=np.float32).reshape(20, -1)]. *)
Definition decode (n_mfcc : nat) (buf : list byte) : result ndarray :=
  xs <- frombuffer buf ;; reshape n_mfcc xs.

(** A buffer is well formed for [n_mfcc] coefficients when its length is a
    positive multiple of [n_mfcc * 4] bytes. *)
Definition well_sized (n_mfcc : nat) (buf : list byte) : Prop :=
  exists k, 0 < k /\ length buf = k * (n_mfcc * 4).

(** The coefficient [c] of the frame [t]. *)
Definition coefficient (m : ndarray) (c t : nat) : option float32 :=
  match nth_error m c with
  | Some row => nth_error row t
  | None => None
  end.

(** The frame [t]: one value of each coefficient. *)
Definition frame (m : ndarray) (t : nat) : list float32 :=
  flat_map (fun row => match nth_error row t with Some x => [x] | None => [] end) m.

(** The layout in which frame 0 comes first, then frame 1, and so on. *)
Definition frame_major (cols : nat) (m : ndarray) : list byte :=
  flat_map float32_bytes (flat_map (frame m) (seq 0 cols)).

End Codec.

(** ** The numeric content of a stored sample *)

Module Binary32.
Import Codec.

(** The 32-bit pattern of a sample on a little-endian machine. *)
Definition bits (x : float32) : Z :=
  let z b := Z.of_N (Byte.to_N b) in
  Z.lor (Z.lor (z (b0 x)) (Z.shiftl (z (b1 x)) 8))
        (Z.lor (Z.shiftl (z (b2 x)) 16) (Z.shiftl (z (b3 x)) 24)).

Definition sign (x : float32) : bool := Z.testbit (bits x) 31.
Definition exponent (x : float32) : Z := Z.land (Z.shiftr (bits x) 23) 255.
Definition fraction (x : float32) : Z := Z.land (bits x) (2 ^ 23 - 1).

(** The magnitude of a pattern whose exponent is not 255, normal or
    subnormal. *)
Definition magnitude (x : float32) : Q :=
  let e := exponent x in
  let m := if (e =? 0)%Z then fraction x else (2 ^ 23 + fraction x)%Z in
  let k := ((if (e =? 0)%Z then 1 else e) - 150)%Z in
  if (0 <=? k)%Z then inject_Z (m * 2 ^ k)
  else Qmake m (Z.to_pos (2 ^ (- k))).

Definition to_Q (x : float32) : Q :=
  Qred (if sign x then Qopp (magnitude x) else magnitude x).

(** The number that a stored pattern denotes: the patterns of exponent 255
    are the infinities, when the fraction is zero, and NaN. *)
Definition value (x : float32) : Number.number :=
  if (exponent x =? 255)%Z
  then if (fraction x =? 0)%Z
       then if sign x then Number.NegInf else Number.PosInf
       else Number.NaN
  else Number.Finite (Q2R (to_Q x)).

(** The samples 0.0, 1.0 (0x3F800000), 2.0, 3.0 (0x40400000) and 5.0, and
    a NaN (0x7FC00000). *)
Definition zero : float32 := F32 x00 x00 x00 x00.
Definition one : float32 := F32 x00 x00 x80 x3f.
Definition two : float32 := F32 x00 x00 x00 x40.
Definition three : float32 := F32 x00 x00 x40 x40.
Definition five : float32 := F32 x00 x00 xa0 x40.
Definition quiet_nan : float32 := F32 x00 x00 xc0 x7f.

End Binary32.

(** ** The aggregation of a library into one vector *)

(** The sums, means and variances below are those of numpy with the
    arithmetic of [number]: the sum and the quotient are not rounded to
    [float32], so a result stated here is the result of the code up to the
    rounding of its operations. NaN and the infinities behave as in the
    code. *)
Module Aggregator.
Import Codec Number.

Definition vector : Type := list number.

(** The sum of the elements of an array. *)
Definition total (xs : list number) : number := fold_right add (Finite 0) xs.

(** [np.zeros(n)] *)
Definition zeros (n : nat) : vector := repeat (Finite 0) n.

(** The column [j] of a stack of vectors. *)
Definition column (j : nat) (vs : list vector) : list number :=
  map (fun v => nth j v (Finite 0)) vs.

(** The width of the array made from a stack of vectors. *)
Definition ncols (vs : list vector) : nat :=
  match vs with
  | [] => 0
  | v :: _ => length v
  end.

(** [np.mean(vs, axis=0)] *)
Definition mean_axis0 (vs : list vector) : vector :=
  map (fun j => div (total (column j vs)) (of_nat (length vs)))
      (seq 0 (ncols vs)).

(** [np.var(vs, axis=0)]: the mean of the squared deviations from the mean,
    with the number of vectors as divisor. *)
Definition var_axis0 (vs : list vector) : vector :=
  let mu := mean_axis0 vs in
  map (fun j =>
         div (total (map (fun x => mul (sub x (nth j mu (Finite 0)))
                                       (sub x (nth j mu (Finite 0))))
                         (column j vs)))
             (of_nat (length vs)))
      (seq 0 (ncols vs)).

(** The dictionary [artist_mfcc], in insertion order. *)
Definition artist_dict : Type := list (string * list vector).

(** [artist_mfcc.setdefault(artist, []).append(v)] *)
Fixpoint setdefault_append (artist : string) (v : vector) (d : artist_dict)
  : artist_dict :=
  match d with
  | [] => [(artist, [v])]
  | (k, vs) :: d' =>
      if String.eqb k artist then (k, vs ++ [v]) :: d'
      else (k, vs) :: setdefault_append artist v d'
  end.

(** [artist_mfcc.values()] *)
Definition values (d : artist_dict) : list (list vector) := map snd d.

(** [artist_mfcc.keys()] *)
Definition keys (d : artist_dict) : list string := map fst d.

(** The loop of lines 59-61 once every track has its vector: the entries
    are inserted one after the other. *)
Definition insert_all (es : list (string * vector)) (d : artist_dict)
  : artist_dict :=
  fold_left (fun acc e => setdefault_append (fst e) (snd e) acc) es d.

(** The vectors of the tracks of one artist, in the order of the library. *)
Definition tracks_of (artist : string) (es : list (string * vector))
  : list vector :=
  map snd (filter (fun e => String.eqb (fst e) artist) es).

(** Lines 66-67: [np.mean(vs, axis=0) if vs else np.zeros(n)]. *)
Definition mean_or_zeros (n : nat) (vs : list vector) : vector :=
  match vs with
  | [] => zeros n
  | _ :: _ => mean_axis0 vs
  end.

Section WithInterpretation.

(** The number of coefficients per frame; the code fixes it to 20. *)
Variable n_mfcc : nat.

(** The number denoted by a stored sample. *)
Variable value : float32 -> number.

(** [m.mean(axis=1)]: one mean per row, over the frames; NaN for a row
    without frames. *)
Definition mean_axis1 (m : ndarray) : vector :=
  map (fun row => div (total (map value row)) (of_nat (length row))) m.

(** Line 60: the vector of one track. *)
Definition mfcc_vector (mfcc : list byte) : result vector :=
  m <- decode n_mfcc mfcc ;; Ok (mean_axis1 m).

(** Lines 59-61: the loop over the rows of the library. *)
Fixpoint collect (tracks : list (list byte * string)) (d : artist_dict)
  : result artist_dict :=
  match tracks with
  | [] => Ok d
  | (mfcc, artist) :: rest =>
      v <- mfcc_vector mfcc ;; collect rest (setdefault_append artist v d)
  end.

(** The vectors of all the tracks, with their artists; raises as soon as
    one buffer cannot be decoded. *)
Fixpoint vectors (tracks : list (list byte * string))
  : result (list (string * vector)) :=
  match tracks with
  | [] => Ok []
  | (mfcc, artist) :: rest =>
      v <- mfcc_vector mfcc ;;
      es <- vectors rest ;;
      Ok ((artist, v) :: es)
  end.

(** Lines 53-69. *)
Definition calculate_mean_mfcc (tracks : list (list byte * string))
  : result vector :=
  match tracks with
  | [] => Ok (zeros (2 * n_mfcc))
  | _ :: _ =>
      artist_mfcc <- collect tracks [] ;;
      let mean_vectors := map mean_axis0 (values artist_mfcc) in
      let var_vectors := map var_axis0 (values artist_mfcc) in
      let mean_mfcc := mean_or_zeros n_mfcc mean_vectors in
      let var_mfcc := mean_or_zeros n_mfcc var_vectors in
      Ok (mean_mfcc ++ var_mfcc)
  end.

(** All the samples of a stored buffer denote finite numbers. *)
Definition finite_samples (mfcc : list byte) : Prop :=
  forall xs, frombuffer mfcc = Ok xs ->
             Forall (fun x => is_finite (value x) = true) xs.

(** A library whose buffers all hold at least one frame of [n_mfcc]
    coefficients, all finite. *)
Definition finite_library (tracks : list (list byte * string)) : Prop :=
  Forall (fun t => well_sized n_mfcc (fst t) /\ finite_samples (fst t)) tracks.

End WithInterpretation.

(** The value of [n_mfcc] in the code. *)
Definition N_MFCC : nat := 20.

End Aggregator.

(** ** The similarity of two vectors *)

(** [cosine_similarity] is the library function of scikit-learn. It
    validates each of the two arrays, which must hold finite numbers only
    and have at least one column, checks that they have the same number of
    columns, divides each row by its Euclidean norm, a zero norm being
    replaced by 1 before the division, and multiplies the two normalised
    arrays. Every failed check is a [ValueError]. *)
Module Similarity.
Import Number Aggregator.

(** The validation of one array of a single row. *)
Definition check_array (a : vector) : result vector :=
  if forallb is_finite a && (0 <? length a) then Ok a else ValueError.

(** The Euclidean norm of a row. *)
Definition row_norm (a : vector) : number :=
  sqrt (total (map (fun x => mul x x) a)).

(** A zero norm is replaced by 1 before the division. *)
Definition handle_zeros (n : number) : number :=
  match n with
  | Finite r => if Req_dec_T r 0 then Finite 1 else Finite r
  | _ => n
  end.

Definition normalize (a : vector) : vector :=
  map (fun x => div x (handle_zeros (row_norm a))) a.

Definition dot (a b : vector) : number :=
  total (map (fun p => mul (fst p) (snd p)) (combine a b)).

(** [cosine_similarity([a], [b])[0][0]] *)
Definition cosine_similarity (a b : vector) : result number :=
  x <- check_array a ;;
  y <- check_array b ;;
  if length x =? length y then Ok (dot (normalize x) (normalize y))
  else ValueError.

(** Line 75: [max(0, cosine_similarity([vec1], [vec2])[0][0] * 100)]. *)
Definition similarity (vec1 vec2 : vector) : result number :=
  c <- cosine_similarity vec1 vec2 ;; Ok (max0 (mul c (Finite 100))).

(** Lines 71-75, on the rows that [get_user_tracks] returns for each user. *)
Definition match_users (value : Codec.float32 -> number)
  (tracks1 tracks2 : list (list byte * string)) : result number :=
  vec1 <- calculate_mean_mfcc N_MFCC value tracks1 ;;
  vec2 <- calculate_mean_mfcc N_MFCC value tracks2 ;;
  similarity vec1 vec2.

End Similarity.

(** ** Vectors of real numbers *)

(** The mathematics of finite vectors, in which the facts on the cosine are
    stated and proved. These definitions are no model of the code: the
    vectors of the code are the lists of numbers above, and a finite one is
    the [lift] of a list of reals. *)
Module RealVector.

Definition sum (xs : list R) : R := fold_right Rplus 0%R xs.

Definition origin (n : nat) : list R := repeat 0%R n.

(** The squared Euclidean norm. *)
Definition squared_norm (a : list R) : R := sum (map (fun x => x * x)%R a).

(** The Euclidean norm. *)
Definition norm (a : list R) : R := R_sqrt.sqrt (squared_norm a).

(** The number by which the components are divided: the norm, and 1 for a
    vector of norm 0. *)
Definition divisor (n : R) : R := if Req_dec_T n 0 then 1%R else n.

(** The vector divided by its divisor. *)
Definition unit (a : list R) : list R :=
  map (fun x => (x / divisor (norm a))%R) a.

(** The inner product, over the common length. *)
Definition inner (a b : list R) : R :=
  sum (map (fun p => (fst p * snd p)%R) (combine a b)).

(** The vector [a] with every component multiplied by [k]. *)
Definition scale (k : R) (a : list R) : list R := map (fun x => (k * x)%R) a.

End RealVector.

(** ** Python strings that are stored, joined and split at ASCII marks *)

(** Titles, artist names, callback data and file names are modelled by
    their UTF-8 bytes. The code only concatenates them, joins them, splits
    them at the ASCII mark ["confirm:"] and replaces ASCII characters; the
    byte of an ASCII character occurs nowhere inside the encoding of another
    character, so these operations act on the bytes as they act on the
    characters. *)
Module PyString.
Local Open Scope string_scope.

(** [sep.join(parts)] *)
Definition join (sep : string) (parts : list string) : string :=
  String.concat sep parts.

(** [s.startswith(p)] *)
Definition startswith (s p : string) : bool := String.prefix p s.

(** The pieces of [s] between the occurrences of [sep], found from left to
    right without overlap. [skip] counts the characters of an occurrence
    still to be passed over and [cur] is the piece being read. *)
Fixpoint split_go (sep s : string) (skip : nat) (cur : string) : list string :=
  match s with
  | EmptyString => [cur]
  | String c s' =>
      match skip with
      | S k => split_go sep s' k cur
      | O =>
          if String.prefix sep s
          then cur :: split_go sep s' (String.length sep - 1) EmptyString
          else split_go sep s' 0 (cur ++ String c EmptyString)
      end
  end.

(** [s.split(sep)]; an empty separator raises. *)
Definition split (s sep : string) : result (list string) :=
  match sep with
  | EmptyString => ValueError
  | String _ _ => Ok (split_go sep s 0 EmptyString)
  end.

(** [s.replace(old, new)] for one-character [old] and [new]. *)
Fixpoint replace_char (old new : ascii) (s : string) : string :=
  match s with
  | EmptyString => EmptyString
  | String c s' =>
      String (if Ascii.eqb c old then new else c) (replace_char old new s')
  end.

(** [re.sub('[...]', new, s)] for a class of single characters. *)
Fixpoint sub_class (class : list ascii) (new : ascii) (s : string) : string :=
  match s with
  | EmptyString => EmptyString
  | String c s' =>
      String (if existsb (Ascii.eqb c) class then new else c)
             (sub_class class new s')
  end.

(** The characters of a string. *)
Definition chars (s : string) : list ascii := list_ascii_of_string s.

(** [sep in s]: the string [sep] occurs somewhere in [s]. *)
Definition occurs (sep s : string) : Prop :=
  exists p q, s = p ++ sep ++ q.

(** The same replacement applied to every character. *)
Fixpoint map_chars (f : ascii -> ascii) (s : string) : string :=
  match s with
  | EmptyString => EmptyString
  | String c s' => String (f c) (map_chars f s')
  end.

End PyString.

(** ** The button of a found track and the file of a downloaded one *)

Module Catalog.
Import PyString.
Local Open Scope string_scope.

(** The fields of [TrackData] that the handlers read. *)
Record TrackData : Type := {
  title : string;
  artists : list string;
  file_path : option string
}.

(** src/handlers/cmds.py, line 116: the data of the confirmation button,
    [f"confirm:{track.title} - {', '.join(track.artists)}"]. *)
Definition confirm_data (track : TrackData) : string :=
  "confirm:" ++ title track ++ " - " ++ join ", " (artists track).

(** The name shown to the user and searched again on confirmation. *)
Definition track_name (track : TrackData) : string :=
  title track ++ " - " ++ join ", " (artists track).

(** A subscript outside the list raises [IndexError]. *)
Inductive indexed (A : Type) : Type :=
| Item (a : A)
| IndexError.

Arguments Item {A} a.
Arguments IndexError {A}.

(** src/callbacks/user_cb.py, line 59: [query.data.split("confirm:")[1]]. *)
Definition callback_name (data : string) : indexed string :=
  match split data "confirm:" with
  | Ok (_ :: name :: _) => Item name
  | _ => IndexError
  end.

(** src/yandex.py, line 282: the characters replaced by the substitution. *)
Definition unsafe_chars : list ascii :=
  chars "\/:*?" ++ [Ascii.ascii_of_nat 34] ++ chars "<>|".

(** src/yandex.py, lines 277-283: [_generate_filename], on the names of the
    artists and the title of the track. *)
Definition generate_filename (artist_names : list string) (track_title : string)
  : string :=
  let artist :=
    replace_char " " "_" (replace_char "/" "_" (join "_" artist_names)) in
  let title := replace_char " " "_" (replace_char "/" "_" track_title) in
  let safe_name := sub_class unsafe_chars "_" (artist ++ "-" ++ title) in
  safe_name ++ ".mp3".

(** What [_generate_filename] does to one character of a name: spaces,
    slashes and the characters of the class become underscores. *)
Definition sanitized (c : ascii) : ascii :=
  if existsb (Ascii.eqb c) (" "%char :: unsafe_chars) then "_"%char else c.

End Catalog.

(** ** The text of a message *)

(** The text of a message and the user names are sequences of Unicode code
    points, as Python strings are. *)
Module PyText.

Definition text : Type := list N.

(** The characters that [str.split()] and [str.isspace()] take for
    whitespace: U+0009 to U+000D, U+001C to U+0020, U+0085, U+00A0, U+1680,
    U+2000 to U+200A, U+2028, U+2029, U+202F, U+205F and U+3000. *)
Definition is_space (c : N) : bool :=
  ((9 <=? c) && (c <=? 13) || (28 <=? c) && (c <=? 32)
   || (c =? 133) || (c =? 160) || (c =? 5760)
   || (8192 <=? c) && (c <=? 8202)
   || (c =? 8232) || (c =? 8233) || (c =? 8239) || (c =? 8287)
   || (c =? 12288))%N.

(** [s.split()]: the maximal runs of characters that are not whitespace.
    [cur] is the run being read. *)
Fixpoint split_go (s : text) (cur : text) : list text :=
  match s with
  | [] => match cur with [] => [] | _ :: _ => [cur] end
  | c :: s' =>
      if is_space c
      then match cur with
           | [] => split_go s' []
           | _ :: _ => cur :: split_go s' []
           end
      else split_go s' (cur ++ [c])
  end.

Definition split (s : text) : list text := split_go s [].

(** The code point of the character [@]. *)
Definition at_sign : N := 64.

(** The text written with the ASCII characters of [s]. *)
Definition literal (s : string) : text :=
  map N_of_ascii (list_ascii_of_string s).

End PyText.

(** ** The command /match *)

Module MatchCommand.
Import PyText Aggregator Similarity.

(** The columns of a row of the table [users]. *)
Record User : Type := {
  user_id : nat;
  username : text;
  chat_id : Z
}.

(** The three answers of the handler; the score is shown with two
    decimals. *)
Inductive match_reply : Type :=
| Usage
| UserNotFound
| Score (similarity : Number.number).

Section Handler.

(** The queries of lines 16-32, as the results they return. *)
Variable get_user_by_chat_id : Z -> option User.
Variable get_user_by_username : text -> option User.
Variable get_user_tracks : nat -> list (list byte * string).

Variable value : Codec.float32 -> Number.number.

(** Lines 71-75, from the identifiers of the two users. *)
Definition match_users_by_id (user1_id user2_id : nat) : result Number.number :=
  match_users value (get_user_tracks user1_id) (get_user_tracks user2_id).

(** Lines 84-91: the answer once the name of the other user is known. *)
Definition answer (from_user : Z) (name : text) : result match_reply :=
  match get_user_by_chat_id from_user, get_user_by_username name with
  | Some sender, Some receiver =>
      similarity <- match_users_by_id (user_id sender) (user_id receiver) ;;
      Ok (Score similarity)
  | _, _ => Ok UserNotFound
  end.

(** Lines 78-91: [handle_match], on the text of the message and the
    identifier of its author. *)
Definition handle_match (message_text : text) (from_user : Z)
  : result match_reply :=
  match split message_text with
  | [_; arg] =>
      match arg with
      | c :: name => if (c =? at_sign)%N then answer from_user name else Ok Usage
      | [] => Ok Usage
      end
  | _ => Ok Usage
  end.

End Handler.

End MatchCommand.

(** ** The search in the catalogue *)

Module Search.
Import Catalog.

(** [l[:count]]: the first [count] elements, or all but the last [-count]
    when [count] is negative. *)
Definition slice_to {A : Type} (count : Z) (l : list A) : list A :=
  if (0 <=? count)%Z then firstn (Z.to_nat count) l
  else firstn (length l - Z.to_nat (- count)) l.

Section Sdk.

(** A track of the catalogue, as the client returns it. *)
Variable Hit : Type.

(** [_process_track]: the data of a track, [None] when an exception was
    caught on the way. *)
Variable process_track : Hit -> option TrackData.

(** src/yandex.py, lines 107-115: [search_tracks], on the hits returned by
    the client for the query (none when nothing was found). *)
Definition search_tracks (hits : list Hit) (count : Z) : list TrackData :=
  flat_map (fun hit => match process_track hit with
                       | Some data => [data]
                       | None => []
                       end)
           (slice_to count hits).

End Sdk.

End Search.

(** ** The choice of the download *)

Module Download.

(** The fields of [DownloadInfo] that [_download_track] reads; the bit rate
    may be missing. *)
Record DownloadInfo : Type := {
  codec : string;
  bitrate_in_kbps : option Z;
  direct_link : string
}.

Definition DEFAULT_BITRATE : Z := 320.

(** src/yandex.py, line 291: [x.bitrate_in_kbps or DEFAULT_BITRATE]; a
    missing bit rate and the bit rate 0 both give the default. *)
Definition sort_key (x : DownloadInfo) : Z :=
  match bitrate_in_kbps x with
  | Some b => if (b =? 0)%Z then DEFAULT_BITRATE else b
  | None => DEFAULT_BITRATE
  end.

(** [max(best :: rest, key=key)]: the first of the elements whose key is
    the greatest. *)
Fixpoint max_by {A : Type} (key : A -> Z) (best : A) (rest : list A) : A :=
  match rest with
  | [] => best
  | x :: rest' =>
      if (key best <? key x)%Z then max_by key x rest' else max_by key best rest'
  end.

(** src/yandex.py, lines 287-291: the information of the download that is
    used, [None] when there is no MP3. *)
Definition best_info (download_info : list DownloadInfo) : option DownloadInfo :=
  match filter (fun info => String.eqb (codec info) "mp3") download_info with
  | [] => None
  | x :: rest => Some (max_by sort_key x rest)
  end.

End Download.

(** ** Concrete libraries *)

Module Examples.
Import Codec.

(** The array of 20 coefficients and 2 frames whose first frame holds 1.0
    everywhere and whose second frame holds 3.0 everywhere. *)
Definition two_frames : ndarray :=
  repeat [Binary32.one; Binary32.three] 20.

(** Two frames of 20 coefficients: 0.0 then 2.0 in every coefficient, so
    that every coefficient has the mean 1 over the frames; and 1.0 then 5.0,
    with the mean 3. *)
Definition low_track : ndarray := repeat [Binary32.zero; Binary32.two] 20.
Definition high_track : ndarray := repeat [Binary32.one; Binary32.five] 20.

(** One frame of 20 coefficients, the first of which is a NaN. *)
Definition nan_track : ndarray :=
  [Binary32.quiet_nan] :: repeat [Binary32.one] 19.

(** Two frames of two coefficients, all 1.0, and the same with 3.0. *)
Definition ones_2 : ndarray := repeat [Binary32.one; Binary32.one] 2.
Definition threes_2 : ndarray := repeat [Binary32.three; Binary32.three] 2.

(** Ten frames of two coefficients, all 1.0, and the same with 3.0: 80
    bytes each. *)
Definition ones_2_wide : ndarray := repeat (repeat Binary32.one 10) 2.
Definition threes_2_wide : ndarray := repeat (repeat Binary32.three 10) 2.

(** One frame of 20 coefficients, all 1.0: a stored fingerprint of 80 bytes. *)
Definition ones_20 : ndarray := repeat [Binary32.one] 20.

(** Eighty zero bytes: one frame of 20 coefficients, all 0.0. *)
Definition zero_buffer : list byte := repeat x00 80.
Definition zero_frame : ndarray := repeat [F32 x00 x00 x00 x00] 20.

(** Two registered users; the first holds two tracks, the second one. *)
Definition alice : MatchCommand.User :=
  {| MatchCommand.user_id := 1; MatchCommand.username := PyText.literal "alice";
     MatchCommand.chat_id := 1001 |}.
Definition bob : MatchCommand.User :=
  {| MatchCommand.user_id := 2; MatchCommand.username := PyText.literal "bob";
     MatchCommand.chat_id := 1002 |}.

Definition by_chat_id (c : Z) : option MatchCommand.User :=
  find (fun u => (MatchCommand.chat_id u =? c)%Z) [alice; bob].

Definition by_username (name : PyText.text) : option MatchCommand.User :=
  find (fun u => if list_eq_dec N.eq_dec (MatchCommand.username u) name
                 then true else false) [alice; bob].

Definition stored_tracks (uid : nat) : list (list byte * string) :=
  match uid with
  | 1 => [(tobytes ones_20, "A"%string); (tobytes two_frames, "B"%string)]
  | 2 => [(zero_buffer, "C"%string)]
  | _ => []
  end.

(** The same users when a truncated buffer was stored for the second. *)
Definition stored_tracks_corrupt (uid : nat) : list (list byte * string) :=
  match uid with
  | 1 => [(tobytes ones_20, "A"%string)]
  | 2 => [(zero_buffer, "C"%string); ([x00; x00; x80], "B"%string)]
  | _ => []
  end.

(** Three bytes: not even one whole sample. *)
Definition truncated : list byte := [x00; x00; x80].

End Examples.
(** * Properties *)

(** ** Numbers *)

Module NumberFacts.
Import Number.
Local Open Scope R_scope.

Lemma add_comm (x y : number) : add x y = add y x.
Proof. destruct x, y; cbn; try reflexivity. f_equal. ring. Qed.

Lemma add_assoc (x y z : number) : add x (add y z) = add (add x y) z.
Proof. destruct x, y, z; cbn; try reflexivity. f_equal. ring. Qed.

Lemma mul_comm (x y : number) : mul x y = mul y x.
Proof. destruct x, y; cbn; try reflexivity. f_equal. ring. Qed.

Lemma add_NaN_r (x : number) : add x NaN = NaN.
Proof. destruct x; reflexivity. Qed.

Lemma div_NaN_l (y : number) : div NaN y = NaN.
Proof. destruct y; reflexivity. Qed.

Lemma div_finite (a b : R) : b <> 0 -> div (Finite a) (Finite b) = Finite (a / b).
Proof.
  intros Hb. cbn. destruct (Req_dec_T b 0) as [E|_]; [contradiction | reflexivity].
Qed.

Lemma div_zero_zero : div (Finite 0) (Finite 0) = NaN.
Proof.
  cbn. destruct (Req_dec_T 0 0) as [_|N]; [|contradiction].
  unfold by_sign. destruct (Req_dec_T 0 0) as [_|N]; [reflexivity | contradiction].
Qed.

Lemma of_nat_nonzero (n : nat) : (0 < n)%nat -> INR n <> 0.
Proof. intros H. apply not_0_INR. lia. Qed.

Lemma finite_quotient (a : R) (n : nat) (q : R) :
  (0 < n)%nat -> a = q * INR n -> div (Finite a) (of_nat n) = Finite q.
Proof.
  intros Hn ->. unfold of_nat. rewrite div_finite by (apply of_nat_nonzero; exact Hn).
  f_equal. field. apply of_nat_nonzero. exact Hn.
Qed.

Lemma is_finite_inversion (x : number) : is_finite x = true -> exists r, x = Finite r.
Proof. destruct x; try discriminate. intros _. eexists. reflexivity. Qed.

Lemma lift_length (a : list R) : length (lift a) = length a.
Proof. apply length_map. Qed.

Lemma forallb_lift (a : list R) : forallb is_finite (lift a) = true.
Proof. induction a as [|x a IH]; [reflexivity | exact IH]. Qed.

(** A vector of finite numbers is the lift of its real components. *)
Lemma finite_is_lift (v : list number) :
  Forall (fun x => is_finite x = true) v -> exists a, v = lift a.
Proof.
  induction 1 as [|x v Hx _ [a ->]]; [exists []; reflexivity|].
  destruct (is_finite_inversion x Hx) as [r ->]. exists (r :: a). reflexivity.
Qed.

Lemma max0_finite (r : R) : max0 (Finite r) = Finite (Rmax 0 r).
Proof.
  cbn. unfold Rmax. destruct (Rlt_dec 0 r) as [H|H], (Rle_dec 0 r) as [H'|H'];
    try reflexivity; try lra.
  f_equal. lra.
Qed.

End NumberFacts.
(** ** The codec *)

Module CodecFacts.
Import Codec.

Lemma frombuffer_bytes (xs : list float32) :
  frombuffer (flat_map float32_bytes xs) = Ok xs.
Proof.
  induction xs as [|x xs IH]; [reflexivity|].
  destruct x as [x0 x1 x2 x3].
  cbn [flat_map float32_bytes b0 b1 b2 b3 app frombuffer].
  rewrite IH. reflexivity.
Qed.

Lemma concat_length_shape (rows cols : nat) (m : ndarray) :
  has_shape rows cols m -> length (concat m) = rows * cols.
Proof.
  intros [Hr Hc]. subst rows.
  induction Hc as [|r m Hlen _ IH]; [reflexivity|].
  cbn [concat length]. rewrite length_app, IH, Hlen. reflexivity.
Qed.

Lemma chunks_concat (rows cols : nat) (m : ndarray) :
  has_shape rows cols m -> chunks cols rows (concat m) = m.
Proof.
  intros [Hr Hc]. subst rows.
  induction Hc as [|r m Hlen _ IH]; [reflexivity|].
  cbn [concat length chunks].
  rewrite firstn_app, skipn_app, Hlen, Nat.sub_diag.
  rewrite firstn_all2 by lia.
  rewrite skipn_all2 by lia.
  cbn [firstn skipn app]. rewrite app_nil_r, IH. reflexivity.
Qed.

Lemma reshape_ravel (rows cols : nat) (m : ndarray) :
  0 < rows -> has_shape rows cols m ->
  reshape rows (ravel m) = Ok m.
Proof.
  intros Hrows Hm. unfold reshape, ravel.
  rewrite (concat_length_shape Hm).
  replace (rows =? 0) with false by (symmetry; apply Nat.eqb_neq; lia).
  rewrite Nat.mul_comm, Nat.Div0.mod_mul, Nat.div_mul by lia.
  cbn [orb negb Nat.eqb]. rewrite (chunks_concat Hm). reflexivity.
Qed.

Lemma chunks_length {A : Type} (cols rows : nat) (xs : list A) :
  length (chunks cols rows xs) = rows.
Proof.
  revert xs. induction rows as [|k IH]; intros xs; [reflexivity|].
  cbn [chunks length]. rewrite IH. reflexivity.
Qed.

Lemma reshape_rows {A : Type} (rows : nat) (xs : list A) (m : list (list A)) :
  reshape rows xs = Ok m -> length m = rows.
Proof.
  unfold reshape.
  destruct ((rows =? 0) || negb (length xs mod rows =? 0)); [discriminate|].
  intros H. injection H as <-. apply chunks_length.
Qed.

Lemma frombuffer_length_bounded (n : nat) :
  forall (buf : list byte) (xs : list float32),
    length buf <= n -> frombuffer buf = Ok xs -> length buf = 4 * length xs.
Proof.
  induction n as [|n IH]; intros buf xs Hn.
  - destruct buf; [|cbn [length] in Hn; lia].
    intros H. injection H as <-. reflexivity.
  - destruct buf as [|x0 [|x1 [|x2 [|x3 rest]]]]; cbn [frombuffer]; try discriminate.
    + intros H. injection H as <-. reflexivity.
    + destruct (frombuffer rest) as [ys|] eqn:E; cbn [bind]; [|discriminate].
      intros H. injection H as <-.
      cbn [length] in *. rewrite (IH rest ys); [lia | lia | exact E].
Qed.

Lemma frombuffer_length (buf : list byte) (xs : list float32) :
  frombuffer buf = Ok xs -> length buf = 4 * length xs.
Proof. apply (frombuffer_length_bounded (n := length buf)). lia. Qed.

Lemma frombuffer_error (buf : list byte) :
  length buf mod 4 <> 0 -> frombuffer buf = ValueError.
Proof.
  intros H. destruct (frombuffer buf) as [xs|] eqn:E; [|reflexivity].
  apply frombuffer_length in E. exfalso. apply H.
  rewrite E, Nat.mul_comm. apply Nat.Div0.mod_mul.
Qed.

End CodecFacts.

Module CodecLayout.
Import Codec CodecFacts.

Lemma nth_error_concat (cols : nat) (m : ndarray) :
  Forall (fun r => length r = cols) m ->
  forall c t, t < cols ->
    nth_error (concat m) (c * cols + t) = coefficient m c t.
Proof.
  unfold coefficient.
  induction 1 as [|r m Hlen _ IH]; intros c t Ht.
  - destruct c; cbn [concat nth_error]; now destruct (_ + _).
  - destruct c as [|c]; cbn [concat nth_error].
    + rewrite nth_error_app1 by lia. reflexivity.
    + rewrite nth_error_app2 by lia.
      replace (S c * cols + t - length r) with (c * cols + t) by lia.
      apply IH, Ht.
Qed.

Lemma coefficient_defined (rows cols : nat) (m : ndarray) (c t : nat) :
  has_shape rows cols m -> c < rows -> t < cols ->
  exists x, coefficient m c t = Some x.
Proof.
  intros [Hr Hc] Hcr Ht. unfold coefficient.
  destruct (nth_error m c) as [row|] eqn:E.
  - assert (Hrow : length row = cols).
    { rewrite Forall_forall in Hc. apply Hc. eapply nth_error_In, E. }
    destruct (nth_error row t) as [x|] eqn:E'; [now exists x|].
    apply nth_error_None in E'. lia.
  - apply nth_error_None in E. lia.
Qed.

Lemma bytes_at (xs : list float32) :
  forall i x, nth_error xs i = Some x ->
    firstn 4 (skipn (4 * i) (flat_map float32_bytes xs)) = float32_bytes x.
Proof.
  induction xs as [|y xs IH]; intros i x Hx.
  - destruct i; discriminate.
  - destruct i as [|i].
    + injection Hx as ->. reflexivity.
    + replace (4 * S i) with (S (S (S (S (4 * i))))) by lia.
      cbn [flat_map float32_bytes app skipn]. apply IH, Hx.
Qed.

(** With a single frame the two layouts are the same buffer. *)
Lemma frame_major_one_frame :
  frame_major 1 Examples.ones_20 = tobytes Examples.ones_20.
Proof. vm_compute. reflexivity. Qed.

Lemma tobytes_length (rows cols : nat) (m : ndarray) :
  has_shape rows cols m -> length (tobytes m) = 4 * (rows * cols).
Proof.
  intros Hm. unfold tobytes, ravel.
  rewrite <- (concat_length_shape Hm).
  induction (concat m) as [|x xs IH]; [reflexivity|].
  cbn [flat_map float32_bytes app length]. rewrite IH. lia.
Qed.

End CodecLayout.

(** ** Claims on the codec *)

Module CodecClaims.
Import Codec CodecFacts CodecLayout Examples.

(** C3. Round trip: for every well-formed fingerprint, held by the code as
    an array of [n_mfcc] rows (one per coefficient) and [T >= 1] columns
    (one per frame) of 4-byte samples, decoding the encoded buffer gives the
    same array back, sample for sample and byte for byte. *)
Theorem decode_tobytes (n_mfcc T : nat) (f : ndarray) :
  0 < n_mfcc -> 1 <= T -> has_shape n_mfcc T f ->
  decode n_mfcc (tobytes f) = Ok f.
Proof.
  intros HD HT Hf. unfold decode, tobytes.
  rewrite frombuffer_bytes. cbn [bind].
  apply reshape_ravel with (cols := T); [exact HD | exact Hf].
Qed.

Lemma decode_tobytes_witness :
  has_shape 20 2 two_frames /\ decode 20 (tobytes two_frames) = Ok two_frames.
Proof.
  assert (H : has_shape 20 2 two_frames).
  { split; [reflexivity|]. unfold two_frames. cbn [repeat].
    repeat constructor. }
  split; [exact H|].
  apply (@decode_tobytes 20 2 two_frames); [lia | lia | exact H].
Defined.

(** C4, as the claim states it, fails: in the buffer of [two_frames] the
    second sample is the first coefficient of frame 1, not the second
    coefficient of frame 0. *)
Lemma tobytes_not_frame_major :
  has_shape 20 2 two_frames /\
  tobytes two_frames <> frame_major 2 two_frames /\
  firstn 8 (tobytes two_frames)
    = (float32_bytes Binary32.one ++ float32_bytes Binary32.three)%list /\
  firstn 8 (frame_major 2 two_frames)
    = (float32_bytes Binary32.one ++ float32_bytes Binary32.one)%list.
Proof.
  split; [|split; [|split]].
  - split; [reflexivity|]. unfold two_frames. cbn [repeat]. repeat constructor.
  - intros H. apply (f_equal (fun l => nth_error l 6)) in H.
    vm_compute in H. discriminate H.
  - vm_compute. reflexivity.
  - vm_compute. reflexivity.
Qed.

(** C4, amended. The buffer holds the [n_mfcc * T] samples of 4 bytes each
    in the row-major order of the [(n_mfcc, T)] array, coefficient after
    coefficient: the sample of coefficient [c] at frame [t] occupies the
    four bytes at offset [4 * (c * T + t)]. *)
Theorem tobytes_coefficient_major (n_mfcc T : nat) (f : ndarray) :
  has_shape n_mfcc T f ->
  length (tobytes f) = 4 * (n_mfcc * T) /\
  forall c t, c < n_mfcc -> t < T ->
    exists x, coefficient f c t = Some x /\
      firstn 4 (skipn (4 * (c * T + t)) (tobytes f)) = float32_bytes x.
Proof.
  intros Hf. split; [apply (tobytes_length Hf)|].
  intros c t Hc Ht.
  destruct (coefficient_defined Hf Hc Ht) as [x Hx].
  exists x. split; [exact Hx|].
  apply bytes_at. unfold ravel.
  rewrite (nth_error_concat (proj2 Hf) c Ht). exact Hx.
Qed.

Lemma tobytes_coefficient_major_witness :
  has_shape 20 2 two_frames /\
  length (tobytes two_frames) = 160 /\
  exists x, coefficient two_frames 0 1 = Some x /\
    firstn 4 (skipn 4 (tobytes two_frames)) = float32_bytes x.
Proof.
  assert (H : has_shape 20 2 two_frames).
  { split; [reflexivity|]. unfold two_frames. cbn [repeat]. repeat constructor. }
  split; [exact H|].
  destruct (@tobytes_coefficient_major 20 2 two_frames H) as [Hlen Hat].
  split; [exact Hlen|].
  apply (Hat 0 1); lia.
Defined.

End CodecClaims.
(** ** The aggregation: failure *)

Module AggregatorFailure.
Import Codec CodecFacts Number NumberFacts Aggregator.

Lemma decode_error (n_mfcc : nat) (buf : list byte) :
  length buf mod (n_mfcc * 4) <> 0 -> decode n_mfcc buf = ValueError.
Proof.
  intros Hbad. unfold decode.
  destruct (frombuffer buf) as [xs|] eqn:E; cbn [bind]; [|reflexivity].
  apply frombuffer_length in E. unfold reshape.
  destruct (n_mfcc =? 0) eqn:E0; [reflexivity|].
  destruct (length xs mod n_mfcc =? 0) eqn:E2; [|reflexivity].
  exfalso. apply Hbad.
  apply Nat.eqb_eq in E2. apply Nat.Div0.mod_divides in E2. destruct E2 as [k Hk].
  rewrite E, Hk.
  replace (4 * (n_mfcc * k)) with (k * (n_mfcc * 4)) by lia.
  apply Nat.Div0.mod_mul.
Qed.

Lemma decode_no_rows (buf : list byte) : decode 0 buf = ValueError.
Proof.
  unfold decode. destruct (frombuffer buf); reflexivity.
Qed.

Lemma decode_multiple (n_mfcc : nat) (buf : list byte) (m : ndarray) :
  decode n_mfcc buf = Ok m -> 0 < n_mfcc /\ length buf mod (n_mfcc * 4) = 0.
Proof.
  intros H. split.
  - destruct n_mfcc; [rewrite decode_no_rows in H; discriminate | lia].
  - destruct (Nat.eq_dec (length buf mod (n_mfcc * 4)) 0) as [E|E]; [exact E|].
    rewrite (decode_error _ _ E) in H. discriminate.
Qed.

(** A buffer that is not well sized is the empty buffer or has a length
    that [n_mfcc * 4] does not divide. *)
Lemma not_well_sized (n_mfcc : nat) (buf : list byte) :
  0 < n_mfcc -> ~ well_sized n_mfcc buf ->
  buf = [] \/ length buf mod (n_mfcc * 4) <> 0.
Proof.
  intros Hn Hbad. destruct buf as [|b buf]; [now left|]. right.
  intros E. apply Hbad. apply Nat.Div0.mod_divides in E. destruct E as [k Hk].
  exists k. split; [|lia]. destruct k; [cbn [length] in Hk; lia | lia].
Qed.

Lemma chunks_empty {A : Type} (rows : nat) :
  chunks 0 rows (@nil A) = repeat [] rows.
Proof. induction rows as [|k IH]; [reflexivity|]. cbn. rewrite IH. reflexivity. Qed.

(** The empty buffer is decoded to [n_mfcc] rows without frames. *)
Lemma decode_empty (n_mfcc : nat) :
  0 < n_mfcc -> decode n_mfcc [] = Ok (repeat [] n_mfcc).
Proof.
  intros Hn. unfold decode, reshape. cbn [frombuffer bind length].
  replace (n_mfcc =? 0) with false by (symmetry; apply Nat.eqb_neq; lia).
  rewrite Nat.Div0.mod_0_l, Nat.Div0.div_0_l. cbn [orb negb Nat.eqb].
  rewrite chunks_empty. reflexivity.
Qed.

Section Failure.
Variable n_mfcc : nat.
Variable value : float32 -> number.

Lemma mfcc_vector_error (buf : list byte) :
  length buf mod (n_mfcc * 4) <> 0 -> mfcc_vector n_mfcc value buf = ValueError.
Proof.
  intros H. unfold mfcc_vector. rewrite (decode_error _ _ H). reflexivity.
Qed.

(** The vector of a track without frames: NaN in every coefficient. *)
Lemma mfcc_vector_empty :
  0 < n_mfcc -> mfcc_vector n_mfcc value [] = Ok (repeat NaN n_mfcc).
Proof.
  intros Hn. unfold mfcc_vector. rewrite (decode_empty Hn). cbn [bind].
  f_equal. unfold mean_axis1. rewrite map_repeat. f_equal.
  cbn [map total fold_right length]. apply div_zero_zero.
Qed.

Lemma collect_error (tracks : list (list byte * string)) :
  forall d,
    (exists e, In e tracks /\ mfcc_vector n_mfcc value (fst e) = ValueError) ->
    collect n_mfcc value tracks d = ValueError.
Proof.
  induction tracks as [|[mfcc artist] rest IH]; intros d [e [Hin He]].
  - destruct Hin.
  - cbn [collect].
    destruct (mfcc_vector n_mfcc value mfcc) as [v|] eqn:E; cbn [bind]; [|reflexivity].
    apply IH. exists e. split; [|exact He].
    destruct Hin as [<-|Hin]; [|exact Hin].
    cbn [fst] in He. congruence.
Qed.

End Failure.

End AggregatorFailure.

(** ** The interpretation of concrete samples *)

Module Binary32Facts.
Import Codec Binary32 Number.

Lemma value_zero : value zero = Finite 0.
Proof.
  unfold value. replace (exponent zero =? 255)%Z with false by reflexivity.
  replace (to_Q zero) with (0 # 1)%Q by (vm_compute; reflexivity).
  f_equal. unfold Q2R. cbn [Qnum Qden]. field.
Qed.

Lemma value_one : value one = Finite 1.
Proof.
  unfold value. replace (exponent one =? 255)%Z with false by reflexivity.
  replace (to_Q one) with (1 # 1)%Q by (vm_compute; reflexivity).
  f_equal. unfold Q2R. cbn [Qnum Qden]. field.
Qed.

Lemma value_two : value two = Finite 2.
Proof.
  unfold value. replace (exponent two =? 255)%Z with false by reflexivity.
  replace (to_Q two) with (2 # 1)%Q by (vm_compute; reflexivity).
  f_equal. unfold Q2R. cbn [Qnum Qden]. field.
Qed.

Lemma value_three : value three = Finite 3.
Proof.
  unfold value. replace (exponent three =? 255)%Z with false by reflexivity.
  replace (to_Q three) with (3 # 1)%Q by (vm_compute; reflexivity).
  f_equal. unfold Q2R. cbn [Qnum Qden]. field.
Qed.

Lemma value_five : value five = Finite 5.
Proof.
  unfold value. replace (exponent five =? 255)%Z with false by reflexivity.
  replace (to_Q five) with (5 # 1)%Q by (vm_compute; reflexivity).
  f_equal. unfold Q2R. cbn [Qnum Qden]. field.
Qed.

Lemma value_quiet_nan : value quiet_nan = NaN.
Proof. reflexivity. Qed.

End Binary32Facts.
(** ** The aggregation: independence of the order of the library *)

Module AggregatorOrder.
Import Codec CodecFacts Number NumberFacts Aggregator.

(** *** Sums, means and variances of reordered stacks *)

Lemma total_Permutation (xs ys : list number) :
  Permutation xs ys -> total xs = total ys.
Proof.
  induction 1 as [|x xs ys _ IH|x y xs|xs ys zs _ IH1 _ IH2];
    cbn [total fold_right] in *.
  - reflexivity.
  - fold (total xs). fold (total ys). rewrite IH. reflexivity.
  - fold (total xs). rewrite !add_assoc, (add_comm y x). reflexivity.
  - congruence.
Qed.

Lemma ncols_uniform (n : nat) (vs : list vector) :
  Forall (fun v => length v = n) vs -> vs <> [] -> ncols vs = n.
Proof.
  intros H Hne. destruct vs as [|v vs]; [contradiction|].
  inversion H; subst. reflexivity.
Qed.

Lemma ncols_Permutation (n : nat) (vs ws : list vector) :
  Forall (fun v => length v = n) vs -> Permutation vs ws -> ncols vs = ncols ws.
Proof.
  intros H HP.
  destruct vs as [|v vs].
  - apply Permutation_nil in HP. subst. reflexivity.
  - assert (Hws : ws <> []).
    { intros ->. apply Permutation_sym, Permutation_nil in HP. discriminate. }
    rewrite (ncols_uniform H) by discriminate.
    symmetry. apply ncols_uniform; [|exact Hws].
    apply (Permutation_Forall HP H).
Qed.

Lemma mean_axis0_Permutation (n : nat) (vs ws : list vector) :
  Forall (fun v => length v = n) vs -> Permutation vs ws ->
  mean_axis0 vs = mean_axis0 ws.
Proof.
  intros H HP. unfold mean_axis0.
  rewrite (ncols_Permutation H HP), (Permutation_length HP).
  apply map_ext. intros j. f_equal.
  apply total_Permutation. unfold column. apply Permutation_map, HP.
Qed.

Lemma var_axis0_Permutation (n : nat) (vs ws : list vector) :
  Forall (fun v => length v = n) vs -> Permutation vs ws ->
  var_axis0 vs = var_axis0 ws.
Proof.
  intros H HP. unfold var_axis0.
  rewrite (mean_axis0_Permutation H HP).
  rewrite (ncols_Permutation H HP), (Permutation_length HP).
  apply map_ext. intros j. f_equal.
  apply total_Permutation. unfold column. apply Permutation_map, Permutation_map, HP.
Qed.

Lemma mean_or_zeros_Permutation (n k : nat) (vs ws : list vector) :
  Forall (fun v => length v = n) vs -> Permutation vs ws ->
  mean_or_zeros k vs = mean_or_zeros k ws.
Proof.
  intros H HP. destruct vs as [|v vs].
  - apply Permutation_nil in HP. subst. reflexivity.
  - destruct ws as [|w ws].
    + apply Permutation_sym, Permutation_nil in HP. discriminate.
    + cbn [mean_or_zeros]. apply (mean_axis0_Permutation H HP).
Qed.

Lemma mean_axis0_length (n : nat) (vs : list vector) :
  Forall (fun v => length v = n) vs -> vs <> [] -> length (mean_axis0 vs) = n.
Proof.
  intros H Hne. unfold mean_axis0.
  rewrite length_map, length_seq. apply (ncols_uniform H Hne).
Qed.

Lemma var_axis0_length (n : nat) (vs : list vector) :
  Forall (fun v => length v = n) vs -> vs <> [] -> length (var_axis0 vs) = n.
Proof.
  intros H Hne. unfold var_axis0.
  rewrite length_map, length_seq. apply (ncols_uniform H Hne).
Qed.

(** *** The dictionary after one insertion *)

Lemma keys_setdefault_append (a : string) (v : vector) (d : artist_dict) (k : string) :
  In k (keys (setdefault_append a v d)) <-> In k (keys d) \/ k = a.
Proof.
  induction d as [|[k0 vs0] d IH]; cbn [setdefault_append keys map fst In].
  - split; [intros [<-|[]]; now right | intros [[]| ->]; now left].
  - destruct (String.eqb k0 a) eqn:E; cbn [keys map fst In].
    + apply String.eqb_eq in E. subst k0. intuition congruence.
    + fold (keys (setdefault_append a v d)). fold (keys d). rewrite IH. tauto.
Qed.

Lemma NoDup_setdefault_append (a : string) (v : vector) (d : artist_dict) :
  NoDup (keys d) -> NoDup (keys (setdefault_append a v d)).
Proof.
  induction d as [|[k0 vs0] d IH]; cbn [setdefault_append keys map fst]; intros H.
  - constructor; [intros [] | constructor].
  - fold (keys d) in H. inversion H as [|? ? Hnotin Hnd]; subst.
    destruct (String.eqb k0 a) eqn:E; cbn [keys map fst].
    + exact H.
    + fold (keys (setdefault_append a v d)). constructor; [|apply IH, Hnd].
      intros Hin. apply keys_setdefault_append in Hin.
      apply String.eqb_neq in E. destruct Hin as [Hin| ->]; [contradiction|].
      now apply E.
Qed.

Lemma In_keys (d : artist_dict) (k : string) (vs : list vector) :
  In (k, vs) d -> In k (keys d).
Proof. intros H. apply (in_map fst) in H. exact H. Qed.

Lemma In_setdefault_append (a : string) (v : vector) (d : artist_dict)
  (k : string) (vs : list vector) :
  NoDup (keys d) ->
  In (k, vs) (setdefault_append a v d) ->
  (k <> a /\ In (k, vs) d) \/
  (k = a /\ exists vs0, In (a, vs0) d /\ vs = vs0 ++ [v]) \/
  (k = a /\ ~ In a (keys d) /\ vs = [v]).
Proof.
  induction d as [|[k0 vs0] d IH]; cbn [setdefault_append keys map fst]; intros Hnd Hin.
  - destruct Hin as [Hin|[]]. injection Hin as <- <-.
    right. right. split; [reflexivity|]. split; [intros []|reflexivity].
  - fold (keys d) in Hnd. inversion Hnd as [|? ? Hnotin Hnd']; subst.
    destruct (String.eqb k0 a) eqn:E.
    + apply String.eqb_eq in E. subst k0.
      destruct Hin as [Hin|Hin].
      * injection Hin as <- <-. right. left. split; [reflexivity|].
        exists vs0. split; [now left | reflexivity].
      * left. split; [|now right].
        intros ->. apply Hnotin, (In_keys _ _ _ Hin).
    + apply String.eqb_neq in E.
      destruct Hin as [Hin|Hin].
      * injection Hin as <- <-. left. split; [exact E | now left].
      * destruct (IH Hnd' Hin) as [[Hk H]|[[Hk [w [Hw Hvs]]]|[Hk [Hno Hvs]]]].
        -- left. split; [exact Hk | now right].
        -- right. left. split; [exact Hk|]. exists w. split; [now right | exact Hvs].
        -- right. right. split; [exact Hk|]. split; [|exact Hvs].
           cbn [In]. intros [H|H]; [now apply E | contradiction].
Qed.

(** *** The tracks of one artist *)

Lemma tracks_of_snoc (k a : string) (v : vector) (es : list (string * vector)) :
  tracks_of k (es ++ [(a, v)])
  = tracks_of k es ++ (if String.eqb a k then [v] else []).
Proof.
  unfold tracks_of. rewrite filter_app, map_app.
  cbn [filter fst]. destruct (String.eqb a k); reflexivity.
Qed.

Lemma tracks_of_absent (k : string) (es : list (string * vector)) :
  ~ In k (map fst es) -> tracks_of k es = [].
Proof.
  unfold tracks_of.
  induction es as [|[a v] es IH]; cbn [map fst filter In]; intros H; [reflexivity|].
  destruct (String.eqb a k) eqn:E.
  - apply String.eqb_eq in E. exfalso. apply H. now left.
  - apply IH. intros Hin. apply H. now right.
Qed.

Lemma tracks_of_present (k : string) (es : list (string * vector)) :
  In k (map fst es) -> tracks_of k es <> [].
Proof.
  unfold tracks_of.
  induction es as [|[a v] es IH]; cbn [map fst filter In]; intros H; [destruct H|].
  destruct (String.eqb a k) eqn:E; [discriminate|].
  apply String.eqb_neq in E. destruct H as [H|H]; [contradiction|]. apply IH, H.
Qed.

Lemma filter_Permutation {A : Type} (f : A -> bool) (xs ys : list A) :
  Permutation xs ys -> Permutation (filter f xs) (filter f ys).
Proof.
  induction 1 as [|x xs ys _ IH|x y xs|xs ys zs _ IH1 _ IH2]; cbn [filter].
  - constructor.
  - destruct (f x); [now constructor | exact IH].
  - destruct (f x), (f y); try apply Permutation_refl. constructor.
  - now apply perm_trans with (filter f ys).
Qed.

Lemma tracks_of_Permutation (k : string) (es es' : list (string * vector)) :
  Permutation es es' -> Permutation (tracks_of k es) (tracks_of k es').
Proof.
  intros H. unfold tracks_of. apply Permutation_map, filter_Permutation, H.
Qed.

Lemma tracks_of_Forall (P : vector -> Prop) (k : string) (es : list (string * vector)) :
  Forall (fun e => P (snd e)) es -> Forall P (tracks_of k es).
Proof.
  unfold tracks_of.
  induction 1 as [|[a v] es Hv _ IH]; cbn [filter]; [constructor|].
  destruct (String.eqb (fst (a, v)) k); cbn [map snd]; [constructor|]; assumption.
Qed.

(** *** The dictionary after the loop *)

Lemma insert_all_snoc (es : list (string * vector)) (e : string * vector)
  (d : artist_dict) :
  insert_all (es ++ [e]) d = setdefault_append (fst e) (snd e) (insert_all es d).
Proof. unfold insert_all. rewrite fold_left_app. reflexivity. Qed.

(** After the loop the keys are the artists of the library, each once, and
    each artist holds the vectors of its tracks in the order of the library. *)
Lemma insert_all_grouped (es : list (string * vector)) :
  NoDup (keys (insert_all es [])) /\
  (forall k, In k (keys (insert_all es [])) <-> In k (map fst es)) /\
  (forall k vs, In (k, vs) (insert_all es []) -> vs = tracks_of k es).
Proof.
  induction es as [|[a v] es [Hnd [Hkeys Hvals]]] using rev_ind.
  - split; [constructor|]. split; [reflexivity|]. intros k vs [].
  - rewrite insert_all_snoc. cbn [fst snd].
    split; [apply NoDup_setdefault_append, Hnd|]. split.
    + intros k. rewrite keys_setdefault_append, Hkeys, map_app, in_app_iff.
      cbn [map fst In]. intuition congruence.
    + intros k vs Hin. rewrite tracks_of_snoc.
      destruct (In_setdefault_append _ _ _ _ _ Hnd Hin)
        as [[Hk H]|[[Hk [w [Hw Hvs]]]|[Hk [Hno Hvs]]]].
      * replace (String.eqb a k) with false
          by (symmetry; apply String.eqb_neq; congruence).
        rewrite app_nil_r. apply Hvals, H.
      * subst k vs. rewrite String.eqb_refl. f_equal. apply Hvals, Hw.
      * subst k vs. rewrite String.eqb_refl.
        rewrite tracks_of_absent; [reflexivity|].
        intros H. apply Hno, Hkeys, H.
Qed.

Lemma map_values_insert_all {B : Type} (h : list vector -> B)
  (es : list (string * vector)) :
  map h (values (insert_all es []))
  = map (fun k => h (tracks_of k es)) (keys (insert_all es [])).
Proof.
  destruct (insert_all_grouped es) as [_ [_ Hvals]].
  unfold values, keys. rewrite !map_map.
  apply map_ext_in. intros [k vs] Hin. cbn [fst snd].
  rewrite (Hvals k vs Hin). reflexivity.
Qed.

Lemma keys_insert_all_Permutation (es es' : list (string * vector)) :
  Permutation es es' ->
  Permutation (keys (insert_all es [])) (keys (insert_all es' [])).
Proof.
  intros HP.
  destruct (insert_all_grouped es) as [Hnd [Hkeys _]].
  destruct (insert_all_grouped es') as [Hnd' [Hkeys' _]].
  apply NoDup_Permutation; [exact Hnd | exact Hnd'|].
  intros k. rewrite Hkeys, Hkeys'.
  split; apply Permutation_in, Permutation_map;
    [exact HP | apply Permutation_sym, HP].
Qed.

Lemma artist_reductions_length (n : nat) (h : list vector -> vector)
  (es : list (string * vector)) :
  (forall vs, Forall (fun v => length v = n) vs -> vs <> [] -> length (h vs) = n) ->
  Forall (fun e => length (snd e) = n) es ->
  Forall (fun w => length w = n) (map h (values (insert_all es []))).
Proof.
  intros Hlen Hes. rewrite map_values_insert_all.
  destruct (insert_all_grouped es) as [_ [Hkeys _]].
  apply Forall_forall. intros w Hw. apply in_map_iff in Hw.
  destruct Hw as [k [<- Hk]]. apply Hlen.
  - apply tracks_of_Forall with (P := fun v => length v = n), Hes.
  - apply tracks_of_present, Hkeys, Hk.
Qed.

Lemma mean_or_zeros_length (n : nat) (ws : list vector) :
  Forall (fun w => length w = n) ws -> length (mean_or_zeros n ws) = n.
Proof.
  intros H. destruct ws as [|w ws]; cbn [mean_or_zeros].
  - apply repeat_length.
  - apply (mean_axis0_length H). discriminate.
Qed.

(** One half of the result, for a reduction [h] of the tracks of an artist
    that does not depend on their order and yields [n] components. *)
Lemma mean_of_artists_Permutation (n : nat) (h : list vector -> vector)
  (es es' : list (string * vector)) :
  (forall vs ws, Forall (fun v => length v = n) vs -> Permutation vs ws ->
                 h vs = h ws) ->
  (forall vs, Forall (fun v => length v = n) vs -> vs <> [] -> length (h vs) = n) ->
  Forall (fun e => length (snd e) = n) es ->
  Permutation es es' ->
  mean_or_zeros n (map h (values (insert_all es [])))
  = mean_or_zeros n (map h (values (insert_all es' []))).
Proof.
  intros Hperm Hlen Hes HP.
  pose proof (artist_reductions_length h Hlen Hes) as Hws.
  rewrite !map_values_insert_all in *.
  transitivity (mean_or_zeros n
    (map (fun k => h (tracks_of k es)) (keys (insert_all es' [])))).
  - apply mean_or_zeros_Permutation with (n := n); [exact Hws|].
    apply Permutation_map, keys_insert_all_Permutation, HP.
  - f_equal. apply map_ext. intros k. apply Hperm.
    + apply tracks_of_Forall with (P := fun v => length v = n), Hes.
    + apply tracks_of_Permutation, HP.
Qed.

(** *** The vectors of the tracks *)

Lemma frombuffer_whole (m : nat) :
  forall buf, length buf = 4 * m ->
    exists xs, frombuffer buf = Ok xs /\ length xs = m.
Proof.
  induction m as [|m IH]; intros buf Hlen.
  - destruct buf; [|discriminate]. exists []. split; reflexivity.
  - destruct buf as [|x0 [|x1 [|x2 [|x3 rest]]]]; cbn [length] in Hlen; try lia.
    destruct (IH rest) as [xs [Hxs Hm]]; [lia|].
    exists (F32 x0 x1 x2 x3 :: xs). cbn [frombuffer]. rewrite Hxs.
    split; [reflexivity | cbn [length]; lia].
Qed.

Lemma decode_whole (n_mfcc : nat) (buf : list byte) :
  0 < n_mfcc -> well_sized n_mfcc buf -> exists m, decode n_mfcc buf = Ok m.
Proof.
  intros Hn [k [Hk Hlen]].
  destruct (@frombuffer_whole (k * n_mfcc) buf) as [xs [Hxs Hsize]]; [lia|].
  unfold decode, reshape. rewrite Hxs. cbn [bind]. rewrite Hsize.
  replace (n_mfcc =? 0) with false by (symmetry; apply Nat.eqb_neq; lia).
  rewrite Nat.Div0.mod_mul. cbn [orb negb Nat.eqb]. eexists. reflexivity.
Qed.

Section Order.
Variable n_mfcc : nat.
Variable value : float32 -> number.

Lemma mfcc_vector_length (buf : list byte) (v : vector) :
  mfcc_vector n_mfcc value buf = Ok v -> length v = n_mfcc.
Proof.
  unfold mfcc_vector, decode.
  destruct (frombuffer buf) as [xs|]; cbn [bind]; [|discriminate].
  destruct (reshape n_mfcc xs) as [m|] eqn:E; cbn [bind]; [|discriminate].
  intros H. injection H as <-. unfold mean_axis1.
  rewrite length_map. apply (reshape_rows _ _ E).
Qed.

Lemma mfcc_vector_whole (buf : list byte) :
  0 < n_mfcc -> well_sized n_mfcc buf ->
  exists v, mfcc_vector n_mfcc value buf = Ok v.
Proof.
  intros Hn Hbuf. destruct (decode_whole Hn Hbuf) as [m Hm].
  unfold mfcc_vector. rewrite Hm. eexists. reflexivity.
Qed.

Lemma vectors_lengths (tracks : list (list byte * string)) :
  forall es, vectors n_mfcc value tracks = Ok es ->
    Forall (fun e => length (snd e) = n_mfcc) es.
Proof.
  induction tracks as [|[mfcc artist] rest IH]; cbn [vectors]; intros es H.
  - injection H as <-. constructor.
  - destruct (mfcc_vector n_mfcc value mfcc) as [v|] eqn:Ev; cbn [bind] in H;
      [|discriminate].
    destruct (vectors n_mfcc value rest) as [es0|]; cbn [bind] in H; [|discriminate].
    injection H as <-. constructor; [|apply IH; reflexivity].
    cbn [snd]. apply (mfcc_vector_length _ Ev).
Qed.

Lemma vectors_whole (tracks : list (list byte * string)) :
  0 < n_mfcc ->
  Forall (fun t => well_sized n_mfcc (fst t)) tracks ->
  exists es, vectors n_mfcc value tracks = Ok es.
Proof.
  intros Hn. induction 1 as [|[mfcc artist] rest Hbuf _ [es IH]]; cbn [vectors].
  - eexists. reflexivity.
  - destruct (mfcc_vector_whole Hn Hbuf) as [v Hv]. cbn [fst] in Hv.
    rewrite Hv, IH. eexists. reflexivity.
Qed.

(** The loop decodes and inserts; it raises exactly when some buffer cannot
    be decoded. *)
Lemma collect_vectors (tracks : list (list byte * string)) :
  forall d,
    collect n_mfcc value tracks d
    = (es <- vectors n_mfcc value tracks ;; Ok (insert_all es d)).
Proof.
  induction tracks as [|[mfcc artist] rest IH]; intros d; cbn [collect vectors].
  - reflexivity.
  - destruct (mfcc_vector n_mfcc value mfcc) as [v|]; cbn [bind]; [|reflexivity].
    rewrite IH.
    destruct (vectors n_mfcc value rest) as [es|]; reflexivity.
Qed.

Lemma vectors_Permutation (tracks tracks' : list (list byte * string)) :
  Permutation tracks tracks' ->
  (vectors n_mfcc value tracks = ValueError /\
   vectors n_mfcc value tracks' = ValueError) \/
  (exists es es', vectors n_mfcc value tracks = Ok es /\
                  vectors n_mfcc value tracks' = Ok es' /\
                  Permutation es es').
Proof.
  induction 1 as [|[mfcc artist] l l' _ IH
                  |[mfcc1 artist1] [mfcc2 artist2] l
                  |l l' l'' _ IH1 _ IH2]; cbn [vectors].
  - right. exists [], []. repeat split. constructor.
  - destruct (mfcc_vector n_mfcc value mfcc) as [v|]; cbn [bind]; [|now left].
    destruct IH as [[-> ->]|[es [es' [-> [-> HP]]]]]; cbn [bind]; [now left|].
    right. eexists _, _. repeat split. now constructor.
  - destruct (mfcc_vector n_mfcc value mfcc1) as [v1|],
             (mfcc_vector n_mfcc value mfcc2) as [v2|],
             (vectors n_mfcc value l) as [es|]; cbn [bind]; try (now left).
    right. eexists _, _. repeat split. constructor.
  - destruct IH1 as [[H1 H2]|[es [es' [H1 [H2 HP]]]]],
             IH2 as [[H3 H4]|[fs [fs' [H3 [H4 HP']]]]]; try congruence.
    + now left.
    + right. exists es, fs'. repeat split; try assumption.
      assert (es' = fs) by congruence. subst fs.
      now apply perm_trans with es'.
Qed.

End Order.

End AggregatorOrder.

(** ** Claim on the order of the library *)

Module OrderClaims.
Import Codec Aggregator AggregatorOrder Examples.

(** C10. In exact arithmetic the result does not depend on the order of the
    library: two libraries with the same entries in different orders have
    the same result. When every stored buffer is well formed that result is
    a vector of [2 * n_mfcc] components (40 with the 20 coefficients of the
    code). *)
Theorem calculate_mean_mfcc_Permutation (n_mfcc : nat)
  (value : float32 -> Number.number)
  (tracks tracks' : list (list byte * string)) :
  Permutation tracks tracks' ->
  calculate_mean_mfcc n_mfcc value tracks
  = calculate_mean_mfcc n_mfcc value tracks' /\
  (0 < n_mfcc ->
   Forall (fun t => well_sized n_mfcc (fst t)) tracks ->
   exists v, calculate_mean_mfcc n_mfcc value tracks = Ok v /\
             length v = 2 * n_mfcc).
Proof.
  intros HP. split.
  - destruct tracks as [|t rest].
    { apply Permutation_nil in HP. subst. reflexivity. }
    destruct tracks' as [|t' rest'].
    { apply Permutation_sym, Permutation_nil in HP. discriminate. }
    unfold calculate_mean_mfcc. rewrite !collect_vectors.
    destruct (vectors_Permutation n_mfcc value HP)
      as [[-> ->]|[es [es' [Hes [Hes' HPes]]]]]; [reflexivity|].
    rewrite Hes, Hes'. cbn [bind].
    pose proof (vectors_lengths _ _ _ Hes) as Hlen.
    f_equal. f_equal.
    + apply mean_of_artists_Permutation; try assumption.
      * intros vs ws. apply mean_axis0_Permutation.
      * intros vs. apply mean_axis0_length.
    + apply mean_of_artists_Permutation; try assumption.
      * intros vs ws. apply var_axis0_Permutation.
      * intros vs. apply var_axis0_length.
  - intros Hn Hwf. destruct tracks as [|t rest].
    { eexists. split; [reflexivity|]. apply repeat_length. }
    destruct (vectors_whole value Hn Hwf) as [es Hes].
    unfold calculate_mean_mfcc. rewrite collect_vectors, Hes. cbn [bind].
    pose proof (vectors_lengths _ _ _ Hes) as Hlen.
    eexists. split; [reflexivity|].
    rewrite length_app, !mean_or_zeros_length; [lia| |].
    + apply artist_reductions_length; [|exact Hlen].
      intros vs. apply var_axis0_length.
    + apply artist_reductions_length; [|exact Hlen].
      intros vs. apply mean_axis0_length.
Qed.

Lemma calculate_mean_mfcc_Permutation_witness :
  Permutation
    [(tobytes ones_20, "A"%string); (tobytes two_frames, "B"%string)]
    [(tobytes two_frames, "B"%string); (tobytes ones_20, "A"%string)] /\
  calculate_mean_mfcc N_MFCC Binary32.value
    [(tobytes ones_20, "A"%string); (tobytes two_frames, "B"%string)]
  = calculate_mean_mfcc N_MFCC Binary32.value
    [(tobytes two_frames, "B"%string); (tobytes ones_20, "A"%string)] /\
  exists v,
    calculate_mean_mfcc N_MFCC Binary32.value
      [(tobytes ones_20, "A"%string); (tobytes two_frames, "B"%string)] = Ok v /\
    length v = 40.
Proof.
  assert (HP : Permutation
    [(tobytes ones_20, "A"%string); (tobytes two_frames, "B"%string)]
    [(tobytes two_frames, "B"%string); (tobytes ones_20, "A"%string)]).
  { apply perm_swap. }
  assert (Hwf : Forall (fun t => well_sized N_MFCC (fst t))
    [(tobytes ones_20, "A"%string); (tobytes two_frames, "B"%string)]).
  { constructor; [exists 1; split; [lia | reflexivity]|].
    constructor; [exists 2; split; [lia | reflexivity]|]. constructor. }
  destruct (@calculate_mean_mfcc_Permutation N_MFCC Binary32.value _ _ HP)
    as [Heq Hlen].
  split; [exact HP|]. split; [exact Heq|].
  apply Hlen; [unfold N_MFCC; lia | exact Hwf].
Defined.

End OrderClaims.
(** ** The aggregation: NaN goes through *)

Module AggregatorNaN.
Import Codec CodecFacts Number NumberFacts Aggregator AggregatorFailure
  AggregatorOrder.

Lemma total_NaN (xs : list number) : In NaN xs -> total xs = NaN.
Proof.
  induction xs as [|x xs IH]; intros H; [destruct H|].
  cbn [total fold_right]. fold (total xs).
  destruct H as [->|H]; [reflexivity|].
  rewrite (IH H). apply add_NaN_r.
Qed.

Lemma nth_map_seq {A : Type} (f : nat -> A) (n c : nat) (d : A) :
  c < n -> nth c (map f (seq 0 n)) d = f c.
Proof.
  intros H. rewrite (nth_indep _ d (f 0)) by (rewrite length_map, length_seq; lia).
  rewrite map_nth, seq_nth by lia. reflexivity.
Qed.

Lemma mean_axis0_NaN_at (n : nat) (vs : list vector) (c : nat) :
  Forall (fun v => length v = n) vs -> c < n ->
  (exists v, In v vs /\ nth c v (Finite 0) = NaN) ->
  nth c (mean_axis0 vs) (Finite 0) = NaN.
Proof.
  intros Hlen Hc [v [Hv Hnan]].
  assert (Hne : vs <> []) by (intros ->; destruct Hv).
  unfold mean_axis0. rewrite (ncols_uniform Hlen Hne), nth_map_seq by exact Hc.
  rewrite total_NaN; [apply div_NaN_l|].
  unfold column. apply in_map_iff. exists v. split; [exact Hnan | exact Hv].
Qed.

Lemma var_axis0_NaN_at (n : nat) (vs : list vector) (c : nat) :
  Forall (fun v => length v = n) vs -> c < n ->
  (exists v, In v vs /\ nth c v (Finite 0) = NaN) ->
  nth c (var_axis0 vs) (Finite 0) = NaN.
Proof.
  intros Hlen Hc [v [Hv Hnan]].
  assert (Hne : vs <> []) by (intros ->; destruct Hv).
  unfold var_axis0. rewrite (ncols_uniform Hlen Hne), nth_map_seq by exact Hc.
  rewrite total_NaN; [apply div_NaN_l|].
  apply in_map_iff. exists NaN. split; [reflexivity|].
  unfold column. apply in_map_iff. exists v. split; [exact Hnan | exact Hv].
Qed.

Lemma tracks_of_In (a : string) (v : vector) (es : list (string * vector)) :
  In (a, v) es -> In v (tracks_of a es).
Proof.
  intros H. unfold tracks_of. apply in_map_iff. exists (a, v). split; [reflexivity|].
  apply filter_In. split; [exact H|]. cbn [fst]. apply String.eqb_refl.
Qed.

(** One half of the result holds NaN in the coefficient in which the vector
    of some track holds NaN, when the reduction [h] of the tracks of an
    artist lets NaN through. *)
Lemma mean_of_artists_NaN_at (n : nat) (h : list vector -> vector)
  (es : list (string * vector)) (a : string) (v : vector) (c : nat) :
  (forall vs, Forall (fun w => length w = n) vs -> vs <> [] -> length (h vs) = n) ->
  (forall vs, Forall (fun w => length w = n) vs ->
     (exists w, In w vs /\ nth c w (Finite 0) = NaN) ->
     nth c (h vs) (Finite 0) = NaN) ->
  Forall (fun e => length (snd e) = n) es ->
  c < n -> In (a, v) es -> nth c v (Finite 0) = NaN ->
  nth c (mean_or_zeros n (map h (values (insert_all es [])))) (Finite 0) = NaN.
Proof.
  intros Hlen Hnan Hes Hc Hin Hv.
  pose proof (artist_reductions_length h Hlen Hes) as Hws.
  assert (Hw : In (h (tracks_of a es)) (map h (values (insert_all es [])))).
  { rewrite map_values_insert_all. apply in_map_iff. exists a. split; [reflexivity|].
    destruct (insert_all_grouped es) as [_ [Hkeys _]]. apply Hkeys.
    apply in_map_iff. exists (a, v). split; [reflexivity | exact Hin]. }
  destruct (map h (values (insert_all es []))) as [|w ws] eqn:E; [destruct Hw|].
  cbn [mean_or_zeros]. apply (mean_axis0_NaN_at Hws Hc).
  exists (h (tracks_of a es)). split; [exact Hw|].
  apply Hnan.
  - apply tracks_of_Forall with (P := fun w => length w = n), Hes.
  - exists v. split; [apply tracks_of_In, Hin | exact Hv].
Qed.

Lemma vectors_In (n_mfcc : nat) (value : float32 -> number)
  (tracks : list (list byte * string)) :
  forall es mfcc artist,
    vectors n_mfcc value tracks = Ok es -> In (mfcc, artist) tracks ->
    exists v, mfcc_vector n_mfcc value mfcc = Ok v /\ In (artist, v) es.
Proof.
  induction tracks as [|[m a] rest IH]; intros es mfcc artist Hes Hin; [destruct Hin|].
  cbn [vectors] in Hes.
  destruct (mfcc_vector n_mfcc value m) as [v|] eqn:Ev; cbn [bind] in Hes; [|discriminate].
  destruct (vectors n_mfcc value rest) as [es0|] eqn:Er; cbn [bind] in Hes; [|discriminate].
  injection Hes as <-. destruct Hin as [Heq|Hin].
  - injection Heq as <- <-. exists v. split; [exact Ev | now left].
  - destruct (IH es0 mfcc artist eq_refl Hin) as [w [Hw Hin']].
    exists w. split; [exact Hw | now right].
Qed.

(** The result holds NaN in the coefficient [c] of both halves as soon as
    the vector of one track holds NaN in the coefficient [c]. *)
Lemma calculate_mean_mfcc_NaN_at (n_mfcc : nat) (value : float32 -> number)
  (tracks : list (list byte * string)) (es : list (string * vector))
  (a : string) (v : vector) (c : nat) :
  vectors n_mfcc value tracks = Ok es ->
  In (a, v) es -> c < n_mfcc -> nth c v (Finite 0) = NaN ->
  exists r, calculate_mean_mfcc n_mfcc value tracks = Ok r /\
            length r = 2 * n_mfcc /\
            nth c r (Finite 0) = NaN /\ nth (n_mfcc + c) r (Finite 0) = NaN.
Proof.
  intros Hes Hin Hc Hv. unfold calculate_mean_mfcc.
  destruct tracks as [|t rest].
  { injection Hes as <-. destruct Hin. }
  rewrite collect_vectors, Hes. cbn [bind].
  pose proof (vectors_lengths _ _ _ Hes) as Hlen.
  assert (H1 : length (mean_or_zeros n_mfcc
                 (map mean_axis0 (values (insert_all es [])))) = n_mfcc).
  { apply mean_or_zeros_length, artist_reductions_length; [|exact Hlen].
    intros vs. apply mean_axis0_length. }
  assert (H2 : length (mean_or_zeros n_mfcc
                 (map var_axis0 (values (insert_all es [])))) = n_mfcc).
  { apply mean_or_zeros_length, artist_reductions_length; [|exact Hlen].
    intros vs. apply var_axis0_length. }
  eexists. split; [reflexivity|]. split; [rewrite length_app; lia|]. split.
  - rewrite app_nth1 by lia.
    apply (@mean_of_artists_NaN_at n_mfcc mean_axis0 es a v c); try assumption.
    + intros vs. apply mean_axis0_length.
    + intros vs Hvs. apply (mean_axis0_NaN_at Hvs Hc).
  - rewrite app_nth2 by lia.
    replace (n_mfcc + c - length (mean_or_zeros n_mfcc
               (map mean_axis0 (values (insert_all es []))))) with c by lia.
    apply (@mean_of_artists_NaN_at n_mfcc var_axis0 es a v c); try assumption.
    + intros vs. apply var_axis0_length.
    + intros vs Hvs. apply (var_axis0_NaN_at Hvs Hc).
Qed.

(** *** Buffers of a whole number of columns *)

Lemma decode_divisible (n_mfcc : nat) (buf : list byte) :
  0 < n_mfcc -> length buf mod (n_mfcc * 4) = 0 ->
  exists m, decode n_mfcc buf = Ok m.
Proof.
  intros Hn E. apply Nat.Div0.mod_divides in E. destruct E as [k Hk].
  destruct (@frombuffer_whole (k * n_mfcc) buf) as [xs [Hxs Hsize]]; [lia|].
  unfold decode, reshape. rewrite Hxs. cbn [bind]. rewrite Hsize.
  replace (n_mfcc =? 0) with false by (symmetry; apply Nat.eqb_neq; lia).
  rewrite Nat.Div0.mod_mul. cbn [orb negb Nat.eqb]. eexists. reflexivity.
Qed.

Lemma vectors_divisible (n_mfcc : nat) (value : float32 -> number)
  (tracks : list (list byte * string)) :
  0 < n_mfcc ->
  Forall (fun t => length (fst t) mod (n_mfcc * 4) = 0) tracks ->
  exists es, vectors n_mfcc value tracks = Ok es.
Proof.
  intros Hn. induction 1 as [|[mfcc artist] rest Hbuf _ [es IH]]; cbn [vectors].
  - eexists. reflexivity.
  - cbn [fst] in Hbuf. destruct (decode_divisible _ Hn Hbuf) as [m Hm].
    unfold mfcc_vector. rewrite Hm. cbn [bind]. rewrite IH. eexists. reflexivity.
Qed.

Lemma all_NaN (n : nat) (r : vector) :
  length r = n ->
  (forall i, i < n -> nth i r (Finite 0) = NaN) ->
  r = repeat NaN n.
Proof.
  intros Hlen H. subst n. apply Forall_eq_repeat.
  apply Forall_nth. intros i d Hi.
  rewrite (nth_indep r d (Finite 0) Hi). symmetry. apply H, Hi.
Qed.

(** A track without frames among tracks that are all decoded: NaN in every
    component. *)
Lemma calculate_mean_mfcc_empty_buffer (n_mfcc : nat) (value : float32 -> number)
  (tracks : list (list byte * string)) (artist : string) :
  0 < n_mfcc -> In ([], artist) tracks ->
  Forall (fun t => length (fst t) mod (n_mfcc * 4) = 0) tracks ->
  calculate_mean_mfcc n_mfcc value tracks = Ok (repeat NaN (2 * n_mfcc)).
Proof.
  intros Hn Hin Hall.
  destruct (vectors_divisible value Hn Hall) as [es Hes].
  destruct (@vectors_In n_mfcc value tracks es [] artist Hes Hin) as [v [Hv Hinv]].
  rewrite (mfcc_vector_empty value Hn) in Hv. injection Hv as <-.
  assert (Hr : exists r, calculate_mean_mfcc n_mfcc value tracks = Ok r /\
                 length r = 2 * n_mfcc /\
                 forall i, i < 2 * n_mfcc -> nth i r (Finite 0) = NaN).
  { destruct (@calculate_mean_mfcc_NaN_at n_mfcc value tracks es artist
                (repeat NaN n_mfcc) 0 Hes Hinv Hn) as [r [Hr [Hlen _]]].
    { destruct n_mfcc; [lia | reflexivity]. }
    exists r. split; [exact Hr|]. split; [exact Hlen|]. intros i Hi.
    assert (Hc : forall c, c < n_mfcc -> nth c (repeat NaN n_mfcc) (Finite 0) = NaN).
    { intros c Hc. rewrite (nth_indep _ (Finite 0) NaN) by (rewrite repeat_length; exact Hc).
      apply nth_repeat. }
    destruct (Nat.lt_ge_cases i n_mfcc) as [Hlt|Hge].
    - destruct (@calculate_mean_mfcc_NaN_at n_mfcc value tracks es artist
                  (repeat NaN n_mfcc) i Hes Hinv Hlt (Hc i Hlt)) as [r' [Hr' [_ [H1 _]]]].
      congruence.
    - destruct (@calculate_mean_mfcc_NaN_at n_mfcc value tracks es artist
                  (repeat NaN n_mfcc) (i - n_mfcc) Hes Hinv)
        as [r' [Hr' [_ [_ H2]]]]; [lia | apply Hc; lia |].
      replace (n_mfcc + (i - n_mfcc)) with i in H2 by lia. congruence. }
  destruct Hr as [r [Hr [Hlen Hnth]]]. rewrite Hr. f_equal.
  apply all_NaN; assumption.
Qed.

End AggregatorNaN.

(** ** The aggregation: tracks with constant rows *)

Module AggregatorRows.
Import Codec CodecFacts Number NumberFacts Aggregator AggregatorFailure
  AggregatorOrder AggregatorNaN Examples Binary32Facts.
Local Open Scope R_scope.

Lemma map_all_equal {A B : Type} (f : A -> B) (c : B) (l : list A) :
  Forall (fun x => f x = c) l -> map f l = repeat c (length l).
Proof.
  induction 1 as [|x l Hx _ IH]; [reflexivity|].
  cbn [map length repeat]. rewrite Hx, IH. reflexivity.
Qed.

Lemma decode_of_tobytes (n_mfcc T : nat) (m : ndarray) :
  (0 < n_mfcc)%nat -> has_shape n_mfcc T m -> decode n_mfcc (tobytes m) = Ok m.
Proof.
  intros Hn Hm. unfold decode, tobytes.
  rewrite frombuffer_bytes. cbn [bind].
  apply reshape_ravel with (cols := T); [exact Hn | exact Hm].
Qed.

(** The vector of a track whose coefficients all have the same sum
    [mean * T] over its [T >= 1] frames. *)
Lemma mfcc_vector_of_sums (n_mfcc T : nat) (value : float32 -> number)
  (f : ndarray) (mean : R) :
  (0 < n_mfcc)%nat -> (1 <= T)%nat -> has_shape n_mfcc T f ->
  Forall (fun row => total (map value row) = Finite (mean * INR T)) f ->
  mfcc_vector n_mfcc value (tobytes f) = Ok (repeat (Finite mean) n_mfcc).
Proof.
  intros Hn HT Hf Hsum. unfold mfcc_vector.
  rewrite (decode_of_tobytes Hn Hf). cbn [bind]. f_equal.
  destruct Hf as [Hrows Hcols]. rewrite <- Hrows.
  unfold mean_axis1. apply map_all_equal.
  rewrite Forall_forall in *. intros row Hrow.
  rewrite (Hsum row Hrow), (Hcols row Hrow). unfold of_nat.
  rewrite div_finite by (apply of_nat_nonzero; lia).
  f_equal. field. apply of_nat_nonzero. lia.
Qed.

Lemma column_constant_rows (n : nat) (cs : list number) (j : nat) :
  (j < n)%nat -> column j (map (fun c => repeat c n) cs) = cs.
Proof.
  intros Hj. unfold column. rewrite map_map.
  induction cs as [|c cs IH]; [reflexivity|].
  cbn [map]. rewrite IH. f_equal.
  rewrite (nth_indep _ (Finite 0) c) by (rewrite repeat_length; exact Hj).
  apply nth_repeat.
Qed.

Lemma map_seq_constant {A : Type} (f : nat -> A) (x : A) (n : nat) :
  (forall j, (j < n)%nat -> f j = x) -> map f (seq 0 n) = repeat x n.
Proof.
  intros H.
  transitivity (repeat x (length (seq 0 n))); [|rewrite length_seq; reflexivity].
  apply map_all_equal.
  apply Forall_forall. intros j Hj. apply in_seq in Hj. apply H. lia.
Qed.

(** The mean and the variance of a stack of vectors, each of which has one
    value in all its components. *)
Lemma mean_axis0_constant_rows (n : nat) (c : number) (cs : list number) :
  mean_axis0 (map (fun c => repeat c n) (c :: cs))
  = repeat (div (total (c :: cs)) (of_nat (length (c :: cs)))) n.
Proof.
  unfold mean_axis0. rewrite length_map.
  change (ncols (map (fun c => repeat c n) (c :: cs))) with (length (repeat c n)).
  rewrite repeat_length.
  apply map_seq_constant. intros j Hj.
  rewrite (column_constant_rows (c :: cs) Hj). reflexivity.
Qed.

Lemma var_axis0_constant_rows (n : nat) (c : number) (cs : list number) :
  let mu := div (total (c :: cs)) (of_nat (length (c :: cs))) in
  var_axis0 (map (fun c => repeat c n) (c :: cs))
  = repeat (div (total (map (fun x => mul (sub x mu) (sub x mu)) (c :: cs)))
                (of_nat (length (c :: cs)))) n.
Proof.
  intros mu. unfold var_axis0. rewrite mean_axis0_constant_rows. fold mu.
  rewrite length_map.
  change (ncols (map (fun c => repeat c n) (c :: cs))) with (length (repeat c n)).
  rewrite repeat_length.
  apply map_seq_constant. intros j Hj.
  rewrite (column_constant_rows (c :: cs) Hj).
  rewrite (nth_indep _ (Finite 0) mu) by (rewrite repeat_length; exact Hj).
  rewrite nth_repeat. reflexivity.
Qed.

Lemma has_shape_repeat (row : list float32) (n : nat) :
  has_shape n (length row) (repeat row n).
Proof.
  split; [apply repeat_length|].
  apply Forall_forall. intros r Hr. apply repeat_spec in Hr. now subst.
Qed.

(** Two tracks of one artist whose vectors hold 1 and 3 in every
    coefficient. *)
Lemma calculate_two_vectors (n_mfcc : nat) (value : float32 -> number)
  (mfcc1 mfcc2 : list byte) (artist : string) :
  mfcc_vector n_mfcc value mfcc1 = Ok (repeat (Finite 1) n_mfcc) ->
  mfcc_vector n_mfcc value mfcc2 = Ok (repeat (Finite 3) n_mfcc) ->
  calculate_mean_mfcc n_mfcc value [(mfcc1, artist); (mfcc2, artist)]
  = Ok (repeat (Finite 2) n_mfcc ++ repeat (Finite 1) n_mfcc).
Proof.
  intros H1 H2. unfold calculate_mean_mfcc. cbn [collect].
  rewrite H1. cbn [bind setdefault_append]. rewrite H2.
  cbn [bind setdefault_append]. rewrite String.eqb_refl.
  cbn [app values map snd mean_or_zeros].
  change [repeat (Finite 1) n_mfcc; repeat (Finite 3) n_mfcc]
    with (map (fun c => repeat c n_mfcc) [Finite 1; Finite 3]).
  rewrite mean_axis0_constant_rows, var_axis0_constant_rows.
  cbn [total fold_right add length map].
  rewrite (@finite_quotient (1 + (3 + 0)) 2 2) by (cbn [INR]; try lia; ring).
  cbn [sub opp add mul].
  rewrite (@finite_quotient
             ((1 + - (2)) * (1 + - (2)) + ((3 + - (2)) * (3 + - (2)) + 0)) 2 1)
    by (cbn [INR]; try lia; ring).
  change [repeat (Finite 2) n_mfcc] with (map (fun c => repeat c n_mfcc) [Finite 2]).
  change [repeat (Finite 1) n_mfcc] with (map (fun c => repeat c n_mfcc) [Finite 1]).
  rewrite !mean_axis0_constant_rows.
  cbn [total fold_right add length].
  rewrite (@finite_quotient (2 + 0) 1 2) by (cbn [INR]; try lia; ring).
  rewrite (@finite_quotient (1 + 0) 1 1) by (cbn [INR]; try lia; ring).
  reflexivity.
Qed.

Lemma mfcc_vector_ones_20 :
  mfcc_vector N_MFCC Binary32.value (tobytes ones_20) = Ok (repeat (Finite 1) 20).
Proof.
  apply (@mfcc_vector_of_sums N_MFCC 1 Binary32.value ones_20 1).
  - unfold N_MFCC. lia.
  - lia.
  - apply (has_shape_repeat [Binary32.one] 20).
  - apply Forall_forall. intros row Hrow. apply repeat_spec in Hrow. subst row.
    cbn [map total fold_right]. rewrite value_one. cbn [add INR]. f_equal. ring.
Qed.

Lemma one_track_library :
  calculate_mean_mfcc N_MFCC Binary32.value [(tobytes ones_20, "A"%string)]
  = Ok (repeat (Finite 1) 20 ++ repeat (Finite 0) 20).
Proof.
  unfold calculate_mean_mfcc. cbn [collect].
  rewrite mfcc_vector_ones_20.
  cbn [bind setdefault_append values map snd mean_or_zeros].
  change [repeat (Finite 1) 20] with (map (fun c => repeat c 20) [Finite 1]).
  rewrite mean_axis0_constant_rows, var_axis0_constant_rows.
  cbn [total fold_right add length map].
  rewrite (@finite_quotient (1 + 0) 1 1) by (cbn [INR]; try lia; ring).
  cbn [sub opp add mul].
  rewrite (@finite_quotient ((1 + - (1)) * (1 + - (1)) + 0) 1 0)
    by (cbn [INR]; try lia; ring).
  change [repeat (Finite 1) 20] with (map (fun c => repeat c 20) [Finite 1]).
  change [repeat (Finite 0) 20] with (map (fun c => repeat c 20) [Finite 0]).
  rewrite !mean_axis0_constant_rows.
  cbn [total fold_right add length].
  rewrite (@finite_quotient (1 + 0) 1 1) by (cbn [INR]; try lia; ring).
  rewrite (@finite_quotient (0 + 0) 1 0) by (cbn [INR]; try lia; ring).
  reflexivity.
Qed.

End AggregatorRows.

(** ** Claims on the aggregation: concrete libraries and failure *)

Module AggregatorClaims.
Import Codec CodecFacts Number NumberFacts Aggregator AggregatorFailure
  AggregatorOrder AggregatorNaN AggregatorRows Examples Binary32Facts.
Local Open Scope R_scope.

(** C1, as the claim states it, fails: the code reads every stored buffer
    as an array of 20 coefficients. Two fingerprints of 2 coefficients and 2
    frames, with the means (1,1) and (3,3) over their frames, make it raise
    instead of giving (2,2,1,1); with 10 frames each they are read as one
    frame of 20 coefficients and the result has 40 components, not 4. *)
Lemma two_coefficients_not_read :
  (has_shape 2 2 ones_2 /\ has_shape 2 2 threes_2 /\
   mean_axis1 Binary32.value ones_2 = [Finite 1; Finite 1] /\
   mean_axis1 Binary32.value threes_2 = [Finite 3; Finite 3] /\
   calculate_mean_mfcc N_MFCC Binary32.value
     [(tobytes ones_2, "A"%string); (tobytes threes_2, "A"%string)] = ValueError /\
   calculate_mean_mfcc N_MFCC Binary32.value
     [(tobytes ones_2, "A"%string); (tobytes threes_2, "A"%string)]
   <> Ok [Finite 2; Finite 2; Finite 1; Finite 1]) /\
  (has_shape 2 10 ones_2_wide /\ has_shape 2 10 threes_2_wide /\
   mean_axis1 Binary32.value ones_2_wide = [Finite 1; Finite 1] /\
   mean_axis1 Binary32.value threes_2_wide = [Finite 3; Finite 3] /\
   calculate_mean_mfcc N_MFCC Binary32.value
     [(tobytes ones_2_wide, "A"%string); (tobytes threes_2_wide, "A"%string)]
   = Ok (repeat (Finite 2) 20 ++ repeat (Finite 1) 20) /\
   calculate_mean_mfcc N_MFCC Binary32.value
     [(tobytes ones_2_wide, "A"%string); (tobytes threes_2_wide, "A"%string)]
   <> Ok [Finite 2; Finite 2; Finite 1; Finite 1]).
Proof.
  assert (Hraise : calculate_mean_mfcc N_MFCC Binary32.value
            [(tobytes ones_2, "A"%string); (tobytes threes_2, "A"%string)]
          = ValueError).
  { unfold calculate_mean_mfcc. cbn [collect].
    rewrite mfcc_vector_error; [reflexivity|]. vm_compute. discriminate. }
  assert (Hwide : calculate_mean_mfcc N_MFCC Binary32.value
            [(tobytes ones_2_wide, "A"%string); (tobytes threes_2_wide, "A"%string)]
          = Ok (repeat (Finite 2) 20 ++ repeat (Finite 1) 20)).
  { apply (@calculate_two_vectors N_MFCC).
    - change (tobytes ones_2_wide) with (tobytes (repeat [Binary32.one] 20)).
      apply (@mfcc_vector_of_sums N_MFCC 1 Binary32.value (repeat [Binary32.one] 20) 1).
      + unfold N_MFCC. lia.
      + lia.
      + apply (has_shape_repeat [Binary32.one] 20).
      + apply Forall_forall. intros row Hrow. apply repeat_spec in Hrow. subst row.
        cbn [map total fold_right]. rewrite value_one. cbn [add INR]. f_equal. ring.
    - change (tobytes threes_2_wide) with (tobytes (repeat [Binary32.three] 20)).
      apply (@mfcc_vector_of_sums N_MFCC 1 Binary32.value
               (repeat [Binary32.three] 20) 3).
      + unfold N_MFCC. lia.
      + lia.
      + apply (has_shape_repeat [Binary32.three] 20).
      + apply Forall_forall. intros row Hrow. apply repeat_spec in Hrow. subst row.
        cbn [map total fold_right]. rewrite value_three. cbn [add INR]. f_equal. ring. }
  split.
  - split; [apply (has_shape_repeat [Binary32.one; Binary32.one] 2)|].
    split; [apply (has_shape_repeat [Binary32.three; Binary32.three] 2)|].
    split.
    { unfold mean_axis1. cbn [ones_2 repeat map total fold_right length].
      rewrite value_one. cbn [add].
      rewrite (@finite_quotient (1 + (1 + 0)) 2 1) by (cbn [INR]; try lia; ring).
      reflexivity. }
    split.
    { unfold mean_axis1. cbn [threes_2 repeat map total fold_right length].
      rewrite value_three. cbn [add].
      rewrite (@finite_quotient (3 + (3 + 0)) 2 3) by (cbn [INR]; try lia; ring).
      reflexivity. }
    split; [exact Hraise|]. rewrite Hraise. discriminate.
  - split; [apply (has_shape_repeat (repeat Binary32.one 10) 2)|].
    split; [apply (has_shape_repeat (repeat Binary32.three 10) 2)|].
    split.
    { unfold mean_axis1. cbn [ones_2_wide repeat map total fold_right length].
      rewrite value_one. cbn [add].
      rewrite (@finite_quotient
                 (1 + (1 + (1 + (1 + (1 + (1 + (1 + (1 + (1 + (1 + 0))))))))))
                 10 1) by (cbn [INR]; try lia; ring).
      reflexivity. }
    split.
    { unfold mean_axis1. cbn [threes_2_wide repeat map total fold_right length].
      rewrite value_three. cbn [add].
      rewrite (@finite_quotient
                 (3 + (3 + (3 + (3 + (3 + (3 + (3 + (3 + (3 + (3 + 0))))))))))
                 10 3) by (cbn [INR]; try lia; ring).
      reflexivity. }
    split; [exact Hwide|]. rewrite Hwide. intros E.
    apply (f_equal (fun r => match r with
                             | Ok v => length v
                             | ValueError => 0%nat
                             end)) in E.
    cbn in E. discriminate.
Qed.

(** C1, amended. In exact arithmetic, with the 20 coefficients that the
    code reads: a library of two entries of the artist "A" whose
    fingerprints, of at least one frame each, have the mean 1 in every
    coefficient for the first and the mean 3 in every coefficient for the
    second (the sum over the frames is 1 and 3 times the number of frames)
    gives the mean profile (2,...,2) and the variance profile (1,...,1), a
    vector of 40 components: the variance divides by the number of tracks,
    2, and not by 1. *)
Theorem two_tracks_of_one_artist (value : float32 -> number) (T1 T2 : nat)
  (f1 f2 : ndarray) :
  (1 <= T1)%nat -> (1 <= T2)%nat ->
  has_shape N_MFCC T1 f1 -> has_shape N_MFCC T2 f2 ->
  Forall (fun row => total (map value row) = Finite (1 * INR T1)) f1 ->
  Forall (fun row => total (map value row) = Finite (3 * INR T2)) f2 ->
  calculate_mean_mfcc N_MFCC value
    [(tobytes f1, "A"%string); (tobytes f2, "A"%string)]
  = Ok (repeat (Finite 2) 20 ++ repeat (Finite 1) 20).
Proof.
  intros HT1 HT2 Hf1 Hf2 Hsum1 Hsum2.
  assert (Hn : (0 < N_MFCC)%nat) by (unfold N_MFCC; lia).
  apply (@calculate_two_vectors N_MFCC).
  - apply (mfcc_vector_of_sums value Hn HT1 Hf1 Hsum1).
  - apply (mfcc_vector_of_sums value Hn HT2 Hf2 Hsum2).
Qed.

Lemma two_tracks_of_one_artist_witness :
  has_shape N_MFCC 2 low_track /\ has_shape N_MFCC 2 high_track /\
  Forall (fun row => total (map Binary32.value row) = Finite (1 * INR 2)) low_track /\
  Forall (fun row => total (map Binary32.value row) = Finite (3 * INR 2)) high_track /\
  calculate_mean_mfcc N_MFCC Binary32.value
    [(tobytes low_track, "A"%string); (tobytes high_track, "A"%string)]
  = Ok (repeat (Finite 2) 20 ++ repeat (Finite 1) 20).
Proof.
  assert (H1 : has_shape N_MFCC 2 low_track)
    by apply (has_shape_repeat [Binary32.zero; Binary32.two] 20).
  assert (H2 : has_shape N_MFCC 2 high_track)
    by apply (has_shape_repeat [Binary32.one; Binary32.five] 20).
  assert (S1 : Forall (fun row => total (map Binary32.value row)
                                  = Finite (1 * INR 2)) low_track).
  { apply Forall_forall. intros row Hrow. apply repeat_spec in Hrow. subst row.
    cbn [map total fold_right]. rewrite value_zero, value_two.
    cbn [add INR]. f_equal. ring. }
  assert (S2 : Forall (fun row => total (map Binary32.value row)
                                  = Finite (3 * INR 2)) high_track).
  { apply Forall_forall. intros row Hrow. apply repeat_spec in Hrow. subst row.
    cbn [map total fold_right]. rewrite value_one, value_five.
    cbn [add INR]. f_equal. ring. }
  split; [exact H1|]. split; [exact H2|]. split; [exact S1|]. split; [exact S2|].
  apply (@two_tracks_of_one_artist Binary32.value 2 2 low_track high_track);
    [lia | lia | exact H1 | exact H2 | exact S1 | exact S2].
Defined.

(** C2. The empty library gives the zero vector of dimension [2 * n_mfcc],
    whatever [n_mfcc] is; with the 20 coefficients of the code all 40
    components are zero. *)
Theorem empty_library_zero (n_mfcc : nat) (value : float32 -> number) :
  calculate_mean_mfcc n_mfcc value [] = Ok (zeros (2 * n_mfcc)) /\
  calculate_mean_mfcc N_MFCC value [] = Ok (repeat (Finite 0) 40) /\
  length (zeros (2 * n_mfcc)) = (2 * n_mfcc)%nat /\
  Forall (fun x => x = Finite 0) (zeros (2 * n_mfcc)).
Proof.
  split; [reflexivity|]. split; [reflexivity|]. split.
  - apply repeat_length.
  - apply Forall_forall. intros x Hx. apply repeat_spec in Hx. exact Hx.
Qed.

(** C8, as the claim states it, fails: with the 3-byte buffer [truncated]
    next to a well-formed entry of 80 bytes the computation raises, although
    the well-formed entry alone has a vector. *)
Lemma corrupt_entry_not_skipped :
  well_sized N_MFCC (tobytes ones_20) /\
  ~ well_sized N_MFCC truncated /\
  calculate_mean_mfcc N_MFCC Binary32.value
    [(tobytes ones_20, "A"%string); (truncated, "B"%string)] = ValueError /\
  calculate_mean_mfcc N_MFCC Binary32.value [(tobytes ones_20, "A"%string)]
    = Ok (repeat (Finite 1) 20 ++ repeat (Finite 0) 20).
Proof.
  split; [exists 1%nat; split; [lia | reflexivity]|].
  split.
  { intros [k [Hk Hlen]]. cbn in Hlen. lia. }
  split; [|exact one_track_library].
  unfold calculate_mean_mfcc. cbn [collect].
  rewrite mfcc_vector_ones_20. cbn [bind]. reflexivity.
Qed.

(** C8, amended. One entry whose stored bytes cannot be read as an array
    of [n_mfcc] rows (a length that [n_mfcc * 4] does not divide) makes the
    whole computation raise, wherever the entry stands and whatever the
    other entries are. An entry whose stored bytes are empty does not raise
    and is not skipped either: it is read as [n_mfcc] rows without frames,
    and when every entry has a length that [n_mfcc * 4] divides, the result
    holds NaN in all [2 * n_mfcc] components. *)
Theorem corrupt_entry_fails (n_mfcc : nat) (value : float32 -> number)
  (tracks : list (list byte * string)) (mfcc : list byte) (artist : string) :
  In (mfcc, artist) tracks ->
  (length mfcc mod (n_mfcc * 4) <> 0%nat ->
   calculate_mean_mfcc n_mfcc value tracks = ValueError) /\
  (mfcc = [] -> (0 < n_mfcc)%nat ->
   Forall (fun t => length (fst t) mod (n_mfcc * 4) = 0%nat) tracks ->
   calculate_mean_mfcc n_mfcc value tracks = Ok (repeat NaN (2 * n_mfcc))).
Proof.
  intros Hin. split.
  - intros Hbad. unfold calculate_mean_mfcc.
    destruct tracks as [|t rest]; [destruct Hin|].
    rewrite (@collect_error n_mfcc value (t :: rest) []); [reflexivity|].
    exists (mfcc, artist). split; [exact Hin|].
    apply mfcc_vector_error, Hbad.
  - intros -> Hn Hall.
    apply (calculate_mean_mfcc_empty_buffer value artist Hn Hin Hall).
Qed.

Lemma corrupt_entry_fails_witness :
  (In (truncated, "B"%string)
      [(tobytes ones_20, "A"%string); (truncated, "B"%string)] /\
   length truncated mod (N_MFCC * 4) <> 0%nat /\
   calculate_mean_mfcc N_MFCC Binary32.value
     [(tobytes ones_20, "A"%string); (truncated, "B"%string)] = ValueError) /\
  (In ([], "B"%string) [(tobytes ones_20, "A"%string); ([], "B"%string)] /\
   (0 < N_MFCC)%nat /\
   Forall (fun t => length (fst t) mod (N_MFCC * 4) = 0%nat)
     [(tobytes ones_20, "A"%string); ([], "B"%string)] /\
   calculate_mean_mfcc N_MFCC Binary32.value
     [(tobytes ones_20, "A"%string); ([], "B"%string)] = Ok (repeat NaN 40)).
Proof.
  assert (Hin : In (truncated, "B"%string)
     [(tobytes ones_20, "A"%string); (truncated, "B"%string)]).
  { right. left. reflexivity. }
  assert (Hbad : length truncated mod (N_MFCC * 4) <> 0%nat).
  { vm_compute. discriminate. }
  assert (Hin' : In ([], "B"%string)
     [(tobytes ones_20, "A"%string); ([], "B"%string)]).
  { right. left. reflexivity. }
  assert (Hn : (0 < N_MFCC)%nat) by (unfold N_MFCC; lia).
  assert (Hall : Forall (fun t => length (fst t) mod (N_MFCC * 4) = 0%nat)
     [(tobytes ones_20, "A"%string); ([], "B"%string)]).
  { repeat constructor. }
  split.
  - split; [exact Hin|]. split; [exact Hbad|].
    exact (proj1 (@corrupt_entry_fails N_MFCC Binary32.value _ truncated
                    "B"%string Hin) Hbad).
  - split; [exact Hin'|]. split; [exact Hn|]. split; [exact Hall|].
    exact (proj2 (@corrupt_entry_fails N_MFCC Binary32.value _ [] "B"%string Hin')
             eq_refl Hn Hall).
Defined.

End AggregatorClaims.

(** ** Vectors of real numbers: the cosine *)

Module RealVectorFacts.
Import RealVector.
Local Open Scope R_scope.

Lemma inner_nil_l (b : list R) : inner [] b = 0.
Proof. reflexivity. Qed.

Lemma inner_nil_r (a : list R) : inner a [] = 0.
Proof. destruct a; reflexivity. Qed.

Lemma inner_cons (x y : R) (a b : list R) :
  inner (x :: a) (y :: b) = x * y + inner a b.
Proof. reflexivity. Qed.

Lemma squared_norm_cons (x : R) (a : list R) :
  squared_norm (x :: a) = x * x + squared_norm a.
Proof. reflexivity. Qed.

Lemma inner_comm (a : list R) : forall b, inner a b = inner b a.
Proof.
  induction a as [|x a IH]; intros [|y b]; try reflexivity.
  rewrite !inner_cons, IH. ring.
Qed.

Lemma squared_norm_nonneg (a : list R) : 0 <= squared_norm a.
Proof.
  induction a as [|x a IH].
  - unfold squared_norm. cbn. lra.
  - rewrite squared_norm_cons. nra.
Qed.

Lemma inner_self (a : list R) : inner a a = squared_norm a.
Proof.
  induction a as [|x a IH]; [reflexivity|].
  rewrite inner_cons, squared_norm_cons, IH. reflexivity.
Qed.

(** Twice a product is at most the sum of the squares, term by term. *)
Lemma inner_le_squares (a : list R) :
  forall b, 2 * inner a b <= squared_norm a + squared_norm b.
Proof.
  induction a as [|x a IH]; intros b.
  - rewrite inner_nil_l. pose proof (squared_norm_nonneg b).
    pose proof (squared_norm_nonneg []). lra.
  - destruct b as [|y b].
    + rewrite inner_nil_r. pose proof (squared_norm_nonneg (x :: a)).
      pose proof (squared_norm_nonneg []). lra.
    + rewrite inner_cons, !squared_norm_cons.
      specialize (IH b). pose proof (Rle_0_sqr (x - y)) as Hsq.
      unfold Rsqr in Hsq. lra.
Qed.

Lemma squared_norm_scaled (h : R) (a : list R) :
  h <> 0 ->
  squared_norm (map (fun x => x / h) a) = squared_norm a / (h * h).
Proof.
  intros Hh.
  induction a as [|x a IH].
  - unfold squared_norm. cbn. field. exact Hh.
  - cbn [map]. rewrite !squared_norm_cons, IH. field. exact Hh.
Qed.

Lemma squared_norm_zero (a : list R) :
  squared_norm a = 0 -> a = origin (length a).
Proof.
  induction a as [|x a IH]; [reflexivity|].
  rewrite squared_norm_cons. intros H.
  pose proof (squared_norm_nonneg a) as Ha.
  pose proof (Rle_0_sqr x) as Hx0. unfold Rsqr in Hx0.
  assert (Hx : x * x = 0) by lra.
  assert (Hrest : squared_norm a = 0) by lra.
  apply Rmult_integral in Hx.
  cbn [length]. unfold origin in *. cbn [repeat].
  rewrite <- (IH Hrest). f_equal. destruct Hx; assumption.
Qed.

Lemma squared_norm_origin (n : nat) : squared_norm (origin n) = 0.
Proof.
  unfold origin. induction n as [|n IH].
  - reflexivity.
  - cbn [repeat]. rewrite squared_norm_cons, IH. ring.
Qed.

Lemma norm_nonneg (a : list R) : 0 <= norm a.
Proof. apply sqrt_pos. Qed.

Lemma norm_nonzero (a : list R) : a <> origin (length a) -> norm a <> 0.
Proof.
  intros Hnz E. unfold norm in E.
  apply sqrt_eq_0 in E; [|apply squared_norm_nonneg].
  apply Hnz, squared_norm_zero, E.
Qed.

Lemma divisor_pos (n : R) : 0 <= n -> 0 < divisor n.
Proof.
  intros Hn. unfold divisor.
  destruct (Req_dec_T n 0) as [E|E]; lra.
Qed.

Lemma divisor_norm_nonzero (a : list R) : divisor (norm a) <> 0.
Proof. pose proof (divisor_pos (norm_nonneg a)). lra. Qed.

Lemma squared_norm_unit_nonzero (a : list R) :
  squared_norm a <> 0 -> squared_norm (unit a) = 1.
Proof.
  intros Hnz. pose proof (squared_norm_nonneg a) as Hpos.
  unfold unit, divisor, norm.
  destruct (Req_dec_T (sqrt (squared_norm a)) 0) as [E|E].
  - apply sqrt_eq_0 in E; [contradiction | exact Hpos].
  - rewrite squared_norm_scaled by exact E.
    rewrite sqrt_sqrt by exact Hpos. field. exact Hnz.
Qed.

Lemma squared_norm_unit_zero (a : list R) :
  squared_norm a = 0 -> squared_norm (unit a) = 0.
Proof.
  intros E. unfold unit, divisor, norm. rewrite E, sqrt_0.
  destruct (Req_dec_T 0 0) as [_|N]; [|contradiction].
  rewrite squared_norm_scaled by lra. rewrite E. field.
Qed.

Lemma squared_norm_unit_le (a : list R) : squared_norm (unit a) <= 1.
Proof.
  destruct (Req_dec_T (squared_norm a) 0) as [E|E].
  - rewrite (squared_norm_unit_zero a E). lra.
  - rewrite (@squared_norm_unit_nonzero a E). lra.
Qed.

Lemma unit_length (a : list R) : length (unit a) = length a.
Proof. apply length_map. Qed.

(** The cosine is at most 1. *)
Lemma cosine_le_1 (a b : list R) : inner (unit a) (unit b) <= 1.
Proof.
  pose proof (inner_le_squares (unit a) (unit b)).
  pose proof (squared_norm_unit_le a).
  pose proof (squared_norm_unit_le b).
  lra.
Qed.

Lemma inner_scaled (h h' : R) (a : list R) :
  h <> 0 -> h' <> 0 ->
  forall b, inner (map (fun x => x / h) a) (map (fun x => x / h') b)
            = inner a b / (h * h').
Proof.
  intros Hh Hh'. induction a as [|x a IH]; intros b.
  - cbn [map]. rewrite !inner_nil_l. field. split; assumption.
  - destruct b as [|y b].
    + cbn [map]. rewrite !inner_nil_r. field. split; assumption.
    + cbn [map]. rewrite !inner_cons, IH. field. split; assumption.
Qed.

(** The cosine is the inner product divided by the two norms, zero norms
    being replaced by 1. *)
Lemma cosine_quotient (a b : list R) :
  inner (unit a) (unit b)
  = inner a b / (divisor (norm a) * divisor (norm b)).
Proof.
  unfold unit. apply inner_scaled; apply divisor_norm_nonzero.
Qed.

Lemma inner_origin_l (n : nat) : forall b, inner (origin n) b = 0.
Proof.
  unfold origin. induction n as [|n IH]; intros b; [apply inner_nil_l|].
  destruct b as [|y b]; [apply inner_nil_r|].
  cbn [repeat]. rewrite inner_cons, IH. ring.
Qed.

Lemma scale_length (k : R) (a : list R) : length (scale k a) = length a.
Proof. apply length_map. Qed.

Lemma squared_norm_scale (k : R) (a : list R) :
  squared_norm (scale k a) = k * k * squared_norm a.
Proof.
  induction a as [|x a IH].
  - unfold squared_norm. cbn. ring.
  - cbn [scale map]. fold (scale k a). rewrite !squared_norm_cons, IH. ring.
Qed.

Lemma norm_scale (k : R) (a : list R) :
  0 <= k -> norm (scale k a) = k * norm a.
Proof.
  intros Hk. unfold norm. rewrite squared_norm_scale.
  rewrite sqrt_mult_alt by nra. rewrite sqrt_square by exact Hk. reflexivity.
Qed.

Lemma unit_scale (k : R) (a : list R) :
  0 < k -> unit (scale k a) = unit a.
Proof.
  intros Hk. unfold unit. rewrite norm_scale by lra.
  unfold divisor.
  destruct (Req_dec_T (norm a) 0) as [E|E].
  - rewrite E, Rmult_0_r.
    destruct (Req_dec_T 0 0) as [_|N]; [|contradiction].
    unfold norm in E. apply sqrt_eq_0 in E; [|apply squared_norm_nonneg].
    rewrite (squared_norm_zero _ E). unfold scale, origin.
    rewrite !map_repeat. f_equal. field.
  - destruct (Req_dec_T (k * norm a) 0) as [E'|E'].
    + exfalso. apply Rmult_integral in E'. destruct E'; [lra | contradiction].
    + unfold scale. rewrite map_map. apply map_ext. intros x. field.
      split; [exact E | lra].
Qed.

Lemma equal_of_zero_distance (u : list R) :
  forall v, length u = length v ->
    squared_norm u + squared_norm v - 2 * inner u v = 0 -> u = v.
Proof.
  induction u as [|x u IH]; intros [|y v] Hlen H; try discriminate; [reflexivity|].
  rewrite inner_cons, !squared_norm_cons in H.
  pose proof (inner_le_squares u v) as Htail.
  pose proof (Rle_0_sqr (x - y)) as Hsq. unfold Rsqr in Hsq.
  assert (Hxy : (x - y) * (x - y) = 0) by lra.
  apply Rmult_integral in Hxy.
  f_equal; [destruct Hxy; lra|].
  apply IH; [injection Hlen; auto | lra].
Qed.

Lemma scale_of_equal_quotients (h h' : R) (a : list R) :
  h <> 0 -> h' <> 0 ->
  forall b, map (fun x => x / h) a = map (fun x => x / h') b ->
            b = scale (h' / h) a.
Proof.
  intros Hh Hh'. induction a as [|x a IH]; intros [|y b] H; try discriminate.
  - reflexivity.
  - cbn [map] in H. injection H as Hxy Hrest.
    cbn [scale map]. fold (scale (h' / h) a). f_equal; [|apply IH, Hrest].
    apply (f_equal (fun z => z * h')) in Hxy. field_simplify in Hxy; try assumption.
    rewrite <- Hxy. field. exact Hh.
Qed.

(** The cosine is 1 exactly for a vector that is not the origin and a
    positive multiple of it. *)
Lemma cosine_one_iff (a b : list R) :
  length a = length b ->
  (inner (unit a) (unit b) = 1 <->
   a <> origin (length a) /\ exists k, 0 < k /\ b = scale k a).
Proof.
  intros Hlen. split.
  - intros Hc.
    pose proof (inner_le_squares (unit a) (unit b)) as Hle.
    pose proof (squared_norm_unit_le a) as Ha1.
    pose proof (squared_norm_unit_le b) as Hb1.
    assert (Hnz : squared_norm a <> 0).
    { intros E. rewrite (squared_norm_unit_zero a E) in Hle. lra. }
    split.
    + intros E. apply Hnz. rewrite E. apply squared_norm_origin.
    + pose proof (divisor_pos (norm_nonneg a)) as Hha.
      pose proof (divisor_pos (norm_nonneg b)) as Hhb.
      exists (divisor (norm b) / divisor (norm a)). split.
      * apply Rdiv_lt_0_compat; assumption.
      * apply scale_of_equal_quotients; try lra.
        change (unit a = unit b).
        apply equal_of_zero_distance.
        -- rewrite !unit_length. exact Hlen.
        -- lra.
  - intros [Hnz [k [Hk ->]]].
    rewrite (unit_scale a Hk), inner_self.
    apply squared_norm_unit_nonzero.
    intros E. apply Hnz, squared_norm_zero, E.
Qed.

End RealVectorFacts.

(** ** The similarity on finite vectors *)

Module SimilarityFacts.
Import Number NumberFacts Aggregator Similarity RealVector RealVectorFacts.
Local Open Scope R_scope.

Lemma total_lift (xs : list R) : total (lift xs) = Finite (sum xs).
Proof.
  induction xs as [|x xs IH]; [reflexivity|].
  unfold lift in *. cbn [map total fold_right] in *.
  fold (total (map Finite xs)). rewrite IH. reflexivity.
Qed.

Lemma squares_lift (a : list R) :
  map (fun x => mul x x) (lift a) = lift (map (fun x => x * x) a).
Proof. unfold lift. rewrite !map_map. reflexivity. Qed.

Lemma row_norm_lift (a : list R) : row_norm (lift a) = Finite (norm a).
Proof.
  unfold row_norm. rewrite squares_lift, total_lift. unfold Number.sqrt.
  fold (squared_norm a).
  destruct (Rlt_dec (squared_norm a) 0) as [H|_]; [|reflexivity].
  pose proof (squared_norm_nonneg a). lra.
Qed.

Lemma handle_zeros_finite (r : R) : handle_zeros (Finite r) = Finite (divisor r).
Proof. unfold handle_zeros, divisor. destruct (Req_dec_T r 0); reflexivity. Qed.

Lemma normalize_lift (a : list R) : normalize (lift a) = lift (unit a).
Proof.
  unfold normalize. rewrite row_norm_lift, handle_zeros_finite.
  unfold lift, unit. rewrite !map_map. apply map_ext. intros x.
  apply div_finite, divisor_norm_nonzero.
Qed.

Lemma dot_lift (a : list R) : forall b, dot (lift a) (lift b) = Finite (inner a b).
Proof.
  induction a as [|x a IH]; intros [|y b]; try reflexivity.
  specialize (IH b). unfold dot, lift in *.
  cbn [map combine total fold_right fst snd] in *.
  fold (total (map (fun p => mul (fst p) (snd p))
                 (combine (map Finite a) (map Finite b)))).
  rewrite IH. reflexivity.
Qed.

Lemma dot_comm (a : vector) : forall b, dot a b = dot b a.
Proof.
  induction a as [|x a IH]; intros [|y b]; try reflexivity.
  specialize (IH b). unfold dot in *.
  cbn [combine map total fold_right fst snd] in *.
  fold (total (map (fun p => mul (fst p) (snd p)) (combine a b))).
  fold (total (map (fun p => mul (fst p) (snd p)) (combine b a))).
  rewrite IH, (mul_comm x y). reflexivity.
Qed.

Lemma check_array_lift (a : list R) :
  (0 < length a)%nat -> check_array (lift a) = Ok (lift a).
Proof.
  intros Hlen. unfold check_array. rewrite forallb_lift, lift_length.
  replace (0 <? length a)%nat with true by (symmetry; apply Nat.ltb_lt; exact Hlen).
  reflexivity.
Qed.

(** What [check_array] returns when it returns: the row itself, which is
    finite and not empty. *)
Lemma check_array_inversion (a x : vector) :
  check_array a = Ok x ->
  x = a /\ exists r, a = lift r /\ (0 < length r)%nat.
Proof.
  unfold check_array.
  destruct (forallb is_finite a) eqn:Ef; cbn [andb]; [|discriminate].
  destruct (0 <? length a)%nat eqn:El; [|discriminate].
  intros H. injection H as <-. split; [reflexivity|].
  destruct (@finite_is_lift a) as [r Hr].
  { apply Forall_forall. intros x Hx. rewrite forallb_forall in Ef. apply Ef, Hx. }
  exists r. split; [exact Hr|].
  apply Nat.ltb_lt in El. rewrite Hr, lift_length in El. exact El.
Qed.

Lemma check_array_empty : check_array [] = ValueError.
Proof. reflexivity. Qed.

Lemma check_array_NaN (a : vector) : In NaN a -> check_array a = ValueError.
Proof.
  intros Hin. unfold check_array.
  replace (forallb is_finite a) with false; [reflexivity|].
  symmetry. apply not_true_is_false. intros H.
  rewrite forallb_forall in H. specialize (H NaN Hin). discriminate.
Qed.

(** On finite rows of one length, at least 1, the cosine of the code is
    the cosine of the real vectors. *)
Lemma cosine_similarity_lift (a b : list R) :
  length a = length b -> (0 < length a)%nat ->
  cosine_similarity (lift a) (lift b) = Ok (Finite (inner (unit a) (unit b))).
Proof.
  intros Hlen Hpos. unfold cosine_similarity.
  rewrite (check_array_lift a Hpos), (check_array_lift b) by (rewrite <- Hlen; exact Hpos).
  cbn [bind]. rewrite !lift_length, Hlen, Nat.eqb_refl.
  rewrite !normalize_lift, dot_lift. reflexivity.
Qed.

Lemma similarity_lift (a b : list R) :
  length a = length b -> (0 < length a)%nat ->
  similarity (lift a) (lift b)
  = Ok (Finite (Rmax 0 (inner (unit a) (unit b) * 100))).
Proof.
  intros Hlen Hpos. unfold similarity.
  rewrite (cosine_similarity_lift a b Hlen Hpos). cbn [bind mul].
  rewrite max0_finite. reflexivity.
Qed.

(** Whenever the cosine is returned, both rows are finite, of one length
    that is at least 1. *)
Lemma cosine_similarity_inversion (a b : vector) (c : number) :
  cosine_similarity a b = Ok c ->
  exists r s, a = lift r /\ b = lift s /\ length r = length s /\
              (0 < length r)%nat /\ c = Finite (inner (unit r) (unit s)).
Proof.
  unfold cosine_similarity.
  destruct (check_array a) as [x|] eqn:Ea; cbn [bind]; [|discriminate].
  destruct (check_array b) as [y|] eqn:Eb; cbn [bind]; [|discriminate].
  destruct (check_array_inversion _ Ea) as [-> [r [-> Hr]]].
  destruct (check_array_inversion _ Eb) as [-> [s [-> Hs]]].
  rewrite !lift_length.
  destruct (length r =? length s)%nat eqn:E; [|discriminate].
  apply Nat.eqb_eq in E. intros H. injection H as <-.
  exists r, s. repeat split; try assumption.
  rewrite !normalize_lift, dot_lift. reflexivity.
Qed.

End SimilarityFacts.

(** ** Claims on the similarity *)

Module SimilarityClaims.
Import Number NumberFacts Aggregator Similarity SimilarityFacts.

(** C5. The score is symmetric: swapping the two vectors gives the same
    result (the same score for vectors of equal dimension, the same failure
    otherwise). *)
Theorem similarity_sym (a b : vector) : similarity a b = similarity b a.
Proof.
  unfold similarity, cosine_similarity.
  destruct (check_array a) as [x|], (check_array b) as [y|]; cbn [bind];
    try reflexivity.
  rewrite (Nat.eqb_sym (length x) (length y)).
  destruct (length y =? length x)%nat; [|reflexivity].
  cbn [bind]. rewrite dot_comm. reflexivity.
Qed.

(** C9. Two vectors of different lengths have no score: the computation
    raises. *)
Theorem similarity_dimension_mismatch (a b : vector) :
  length a <> length b -> similarity a b = ValueError.
Proof.
  intros Hlen. unfold similarity, cosine_similarity.
  destruct (check_array a) as [x|] eqn:Ea; cbn [bind]; [|reflexivity].
  destruct (check_array b) as [y|] eqn:Eb; cbn [bind]; [|reflexivity].
  destruct (check_array_inversion _ Ea) as [-> _].
  destruct (check_array_inversion _ Eb) as [-> _].
  apply Nat.eqb_neq in Hlen. rewrite Hlen. reflexivity.
Qed.

Lemma similarity_dimension_mismatch_witness :
  length (lift [2; 2; 1; 1]%R) <> length (lift [2; 2; 2; 1; 1; 1]%R) /\
  similarity (lift [2; 2; 1; 1]%R) (lift [2; 2; 2; 1; 1; 1]%R) = ValueError.
Proof.
  assert (H : length (lift [2; 2; 1; 1]%R) <> length (lift [2; 2; 2; 1; 1; 1]%R)).
  { cbn. lia. }
  split; [exact H|].
  exact (@similarity_dimension_mismatch _ _ H).
Defined.

End SimilarityClaims.

(** ** The decoder of the stored bytes *)

Module DecoderFacts.
Import Codec CodecFacts AggregatorFailure AggregatorOrder.

Lemma frombuffer_inverse_bounded (n : nat) :
  forall (buf : list byte) (xs : list float32),
    length buf <= n -> frombuffer buf = Ok xs ->
    flat_map float32_bytes xs = buf.
Proof.
  induction n as [|n IH]; intros buf xs Hn.
  - destruct buf; [|cbn [length] in Hn; lia].
    intros H. injection H as <-. reflexivity.
  - destruct buf as [|x0 [|x1 [|x2 [|x3 rest]]]]; cbn [frombuffer]; try discriminate.
    + intros H. injection H as <-. reflexivity.
    + destruct (frombuffer rest) as [ys|] eqn:E; cbn [bind]; [|discriminate].
      intros H. injection H as <-.
      cbn [flat_map float32_bytes b0 b1 b2 b3 app].
      rewrite (IH rest ys); [reflexivity | cbn [length] in Hn; lia | exact E].
Qed.

Lemma frombuffer_inverse (buf : list byte) (xs : list float32) :
  frombuffer buf = Ok xs -> flat_map float32_bytes xs = buf.
Proof. apply (frombuffer_inverse_bounded (n := length buf)). lia. Qed.

Lemma concat_chunks {A : Type} (cols rows : nat) :
  forall xs : list A, length xs = rows * cols ->
    concat (chunks cols rows xs) = xs.
Proof.
  induction rows as [|k IH]; intros xs Hlen; cbn [chunks concat].
  - destruct xs; [reflexivity | discriminate].
  - rewrite IH; [apply firstn_skipn|]. rewrite length_skipn. lia.
Qed.

Lemma chunks_shape {A : Type} (cols rows : nat) :
  forall xs : list A, length xs = rows * cols ->
    Forall (fun r => length r = cols) (chunks cols rows xs).
Proof.
  induction rows as [|k IH]; intros xs Hlen; cbn [chunks]; constructor.
  - rewrite length_firstn. lia.
  - apply IH. rewrite length_skipn. lia.
Qed.

(** What [reshape] returns when it returns. *)
Lemma reshape_inversion {A : Type} (rows : nat) (xs : list A) (m : list (list A)) :
  reshape rows xs = Ok m ->
  0 < rows /\
  length xs = rows * (length xs / rows) /\
  m = chunks (length xs / rows) rows xs.
Proof.
  unfold reshape.
  destruct (rows =? 0) eqn:E0; [discriminate|].
  destruct (length xs mod rows =? 0) eqn:E2; [|discriminate].
  cbn [orb negb]. intros H. injection H as <-.
  apply Nat.eqb_neq in E0. apply Nat.eqb_eq in E2.
  apply Nat.Div0.div_exact in E2.
  repeat split; lia.
Qed.

End DecoderFacts.

Module DecoderProperties.
Import Codec CodecFacts AggregatorFailure AggregatorOrder DecoderFacts Examples.

(** Decoding then encoding: a buffer that the decoder of line 60 accepts is
    exactly the buffer that [tobytes] produces from the decoded array. *)
Theorem tobytes_decode (n_mfcc : nat) (buf : list byte) (m : ndarray) :
  decode n_mfcc buf = Ok m -> tobytes m = buf.
Proof.
  unfold decode, tobytes, ravel.
  destruct (frombuffer buf) as [xs|] eqn:E; cbn [bind]; [|discriminate].
  intros H. apply reshape_inversion in H. destruct H as [_ [Hlen ->]].
  rewrite concat_chunks by (rewrite Nat.mul_comm at 1; lia).
  apply frombuffer_inverse, E.
Qed.

Lemma tobytes_decode_witness :
  decode 20 zero_buffer = Ok zero_frame /\ tobytes zero_frame = zero_buffer.
Proof.
  assert (H : decode 20 zero_buffer = Ok zero_frame).
  { vm_compute. reflexivity. }
  split; [exact H|].
  exact (@tobytes_decode 20 zero_buffer zero_frame H).
Defined.

(** The decoder of line 60 accepts exactly the buffers whose length is a
    multiple of [n_mfcc * 4] bytes (80 bytes in the code), the empty buffer
    included: for a buffer of [T * n_mfcc * 4] bytes, [T] from 0 on, it
    returns an array of [n_mfcc] rows and [T] columns, and for every other
    buffer it raises. *)
Theorem decode_accepts (n_mfcc : nat) (buf : list byte) :
  0 < n_mfcc ->
  (length buf mod (n_mfcc * 4) <> 0 /\ decode n_mfcc buf = ValueError) \/
  (exists T m, length buf = T * (n_mfcc * 4) /\
               decode n_mfcc buf = Ok m /\ has_shape n_mfcc T m).
Proof.
  intros Hn. destruct (decode n_mfcc buf) as [m|] eqn:E.
  - right. unfold decode in E.
    destruct (frombuffer buf) as [xs|] eqn:Ex; cbn [bind] in E; [|discriminate].
    pose proof (frombuffer_length _ Ex) as Hbuf.
    pose proof (reshape_inversion _ _ E) as [_ [Hlen ->]].
    exists (length xs / n_mfcc), (chunks (length xs / n_mfcc) n_mfcc xs).
    split; [nia|]. split; [reflexivity|]. split.
    + apply chunks_length.
    + apply chunks_shape. lia.
  - left. split; [|reflexivity].
    intros Hw. destruct (AggregatorNaN.decode_divisible _ Hn Hw) as [m Hm]. congruence.
Qed.

Lemma decode_accepts_witness :
  0 < 20 /\
  ((length truncated mod (20 * 4) <> 0 /\ decode 20 truncated = ValueError) \/
   (exists T m, length truncated = T * (20 * 4) /\
                decode 20 truncated = Ok m /\ has_shape 20 T m)) /\
  ((length (@nil byte) mod (20 * 4) <> 0 /\ decode 20 [] = ValueError) \/
   (exists T m, length (@nil byte) = T * (20 * 4) /\
                decode 20 [] = Ok m /\ has_shape 20 T m)).
Proof.
  assert (H : 0 < 20) by lia.
  split; [exact H|]. split.
  - apply (@decode_accepts 20 truncated H).
  - apply (@decode_accepts 20 [] H).
Defined.

End DecoderProperties.

(** ** One artist, one track repeated *)

Module RepeatedTrack.
Import Codec CodecFacts Number NumberFacts Aggregator AggregatorOrder
  AggregatorRows Examples Binary32Facts.
Local Open Scope R_scope.

Lemma total_repeat (x : R) (k : nat) :
  total (repeat (Finite x) k) = Finite (x * INR k).
Proof.
  induction k as [|k IH].
  - cbn. f_equal. ring.
  - cbn [repeat total fold_right]. fold (total (repeat (Finite x) k)).
    rewrite IH, S_INR. cbn [add]. f_equal. ring.
Qed.

Lemma column_repeat (j : nat) (v : vector) (k : nat) :
  column j (repeat v k) = repeat (nth j v (Finite 0)) k.
Proof.
  unfold column. induction k as [|k IH]; [reflexivity|].
  cbn [repeat map]. rewrite IH. reflexivity.
Qed.

Lemma map_nth_seq (v : vector) :
  map (fun j => nth j v (Finite 0)) (seq 0 (length v)) = v.
Proof.
  induction v as [|x v IH]; [reflexivity|].
  cbn [length seq map nth]. f_equal.
  rewrite <- seq_shift, map_map. exact IH.
Qed.

Lemma nth_lift (j : nat) (v : list R) : nth j (lift v) (Finite 0) = Finite (nth j v 0).
Proof. unfold lift. apply (map_nth Finite). Qed.

(** The mean of [k + 1] copies of a finite vector is the vector. *)
Lemma mean_axis0_repeat (v : list R) (k : nat) :
  mean_axis0 (repeat (lift v) (S k)) = lift v.
Proof.
  unfold mean_axis0. rewrite repeat_length. cbn [repeat ncols].
  transitivity (map (fun j => nth j (lift v) (Finite 0)) (seq 0 (length (lift v))));
    [|apply map_nth_seq].
  apply map_ext. intros j.
  change (lift v :: repeat (lift v) k) with (repeat (lift v) (S k)).
  rewrite column_repeat, nth_lift, total_repeat.
  apply finite_quotient; [lia | reflexivity].
Qed.

(** The variance of [k + 1] copies of a finite vector is zero. *)
Lemma var_axis0_repeat (v : list R) (k : nat) :
  var_axis0 (repeat (lift v) (S k)) = zeros (length v).
Proof.
  unfold var_axis0. rewrite mean_axis0_repeat, repeat_length.
  cbn [repeat ncols]. change (lift v :: repeat (lift v) k) with (repeat (lift v) (S k)).
  rewrite lift_length. unfold zeros.
  apply map_seq_constant. intros j _.
  rewrite column_repeat, map_repeat, nth_lift. cbn [sub opp add mul].
  rewrite total_repeat.
  apply finite_quotient; [lia | ring].
Qed.

Lemma zeros_lift (n : nat) : zeros n = lift (repeat 0 n).
Proof. unfold zeros, lift. rewrite map_repeat. reflexivity. Qed.

Lemma insert_all_repeat (a : string) (v : vector) (k : nat) :
  forall j, insert_all (repeat (a, v) k) [(a, repeat v (S j))]
            = [(a, repeat v (S j + k))].
Proof.
  induction k as [|k IH]; intros j.
  - rewrite Nat.add_0_r. reflexivity.
  - cbn [repeat]. unfold insert_all. cbn [fold_left fst snd setdefault_append].
    rewrite String.eqb_refl.
    change (v :: repeat v j) with (repeat v (S j)).
    rewrite <- repeat_cons.
    change (v :: repeat v (S j)) with (repeat v (S (S j))).
    fold (insert_all (repeat (a, v) k) [(a, repeat v (S (S j)))]).
    rewrite IH. do 2 f_equal. f_equal. lia.
Qed.

Lemma insert_all_repeat_nil (a : string) (v : vector) (k : nat) :
  insert_all (repeat (a, v) (S k)) [] = [(a, repeat v (S k))].
Proof.
  cbn [repeat]. unfold insert_all. cbn [fold_left fst snd setdefault_append].
  change [v] with (repeat v 1).
  fold (insert_all (repeat (a, v) k) [(a, repeat v 1)]).
  rewrite insert_all_repeat. reflexivity.
Qed.

Lemma vectors_repeat (n_mfcc : nat) (value : float32 -> number)
  (mfcc : list byte) (artist : string) (v : vector) (k : nat) :
  mfcc_vector n_mfcc value mfcc = Ok v ->
  vectors n_mfcc value (repeat (mfcc, artist) k) = Ok (repeat (artist, v) k).
Proof.
  intros Hv. induction k as [|k IH]; [reflexivity|].
  cbn [repeat vectors]. rewrite Hv. cbn [bind]. rewrite IH. reflexivity.
Qed.

Lemma mfcc_vector_ones_20_lift :
  mfcc_vector N_MFCC Binary32.value (tobytes ones_20) = Ok (lift (repeat 1 20)).
Proof. exact mfcc_vector_ones_20. Qed.

Lemma repeated_library_20 (k : nat) :
  calculate_mean_mfcc N_MFCC Binary32.value
    (repeat (tobytes ones_20, "A"%string) (S k))
  = Ok (lift (repeat 1 20 ++ repeat 0 20)).
Proof.
  unfold calculate_mean_mfcc.
  rewrite (collect_vectors N_MFCC Binary32.value
             (repeat (tobytes ones_20, "A"%string) (S k)) []).
  rewrite (@vectors_repeat N_MFCC Binary32.value (tobytes ones_20) "A"%string
             (lift (repeat 1 20)) (S k) mfcc_vector_ones_20_lift).
  cbn [bind]. rewrite insert_all_repeat_nil.
  cbn [values map snd mean_or_zeros].
  change [mean_axis0 (repeat (lift (repeat 1 20)) (S k))]
    with (repeat (mean_axis0 (repeat (lift (repeat 1 20)) (S k))) 1).
  change [var_axis0 (repeat (lift (repeat 1 20)) (S k))]
    with (repeat (var_axis0 (repeat (lift (repeat 1 20)) (S k))) 1).
  rewrite !mean_axis0_repeat, var_axis0_repeat.
  rewrite (zeros_lift (length (repeat 1 20))), mean_axis0_repeat.
  unfold lift. rewrite map_app. reflexivity.
Qed.

(** In exact arithmetic: a library that holds one and the same fingerprint
    [k + 1] times under one artist, the vector of the fingerprint being
    finite, has that vector as mean profile and a zero variance profile,
    whatever [k] is: the number of tracks of an artist does not weigh on the
    result. *)
Theorem repeated_track (n_mfcc : nat) (value : float32 -> number)
  (mfcc : list byte) (artist : string) (v : list R) (k : nat) :
  mfcc_vector n_mfcc value mfcc = Ok (lift v) ->
  calculate_mean_mfcc n_mfcc value (repeat (mfcc, artist) (S k))
  = Ok (lift v ++ zeros n_mfcc).
Proof.
  intros Hv. pose proof (mfcc_vector_length _ _ _ Hv) as Hlen.
  rewrite lift_length in Hlen.
  unfold calculate_mean_mfcc.
  rewrite (collect_vectors n_mfcc value (repeat (mfcc, artist) (S k)) []).
  rewrite (@vectors_repeat n_mfcc value mfcc artist (lift v) (S k) Hv).
  cbn [bind]. rewrite insert_all_repeat_nil.
  cbn [repeat values map snd mean_or_zeros].
  change (lift v :: repeat (lift v) k) with (repeat (lift v) (S k)).
  rewrite mean_axis0_repeat, var_axis0_repeat.
  change [lift v] with (repeat (lift v) 1).
  rewrite zeros_lift.
  change [lift (repeat 0 (length v))] with (repeat (lift (repeat 0 (length v))) 1).
  rewrite !mean_axis0_repeat, Hlen, <- zeros_lift. reflexivity.
Qed.

Lemma repeated_track_witness :
  mfcc_vector N_MFCC Binary32.value (tobytes ones_20) = Ok (lift (repeat 1 20)) /\
  calculate_mean_mfcc N_MFCC Binary32.value
    (repeat (tobytes ones_20, "A"%string) 10)
  = Ok (lift (repeat 1 20) ++ zeros N_MFCC).
Proof.
  split; [exact mfcc_vector_ones_20_lift|].
  exact (@repeated_track N_MFCC Binary32.value (tobytes ones_20) "A"%string
           (repeat 1 20) 9 mfcc_vector_ones_20_lift).
Defined.

End RepeatedTrack.

(** ** The aggregation: finite libraries *)

Module AggregatorFinite.
Import Codec CodecFacts Number NumberFacts Aggregator AggregatorFailure
  AggregatorOrder DecoderFacts.

Lemma total_finite (xs : list number) :
  Forall (fun x => is_finite x = true) xs -> is_finite (total xs) = true.
Proof.
  induction 1 as [|x xs Hx _ IH]; [reflexivity|].
  cbn [total fold_right]. fold (total xs).
  destruct x; try discriminate. destruct (total xs); try discriminate. reflexivity.
Qed.

Lemma div_of_nat_finite (x : number) (n : nat) :
  0 < n -> is_finite x = true -> is_finite (div x (of_nat n)) = true.
Proof.
  intros Hn Hx. destruct x; try discriminate. unfold of_nat.
  rewrite div_finite by (apply of_nat_nonzero; exact Hn). reflexivity.
Qed.

Lemma nth_finite (v : vector) (j : nat) :
  Forall (fun x => is_finite x = true) v -> is_finite (nth j v (Finite 0)) = true.
Proof.
  intros H. revert j. induction H as [|x v Hx _ IH]; intros [|j]; cbn [nth];
    try reflexivity; [exact Hx | apply IH].
Qed.

Lemma column_finite (j : nat) (vs : list vector) :
  Forall (Forall (fun x => is_finite x = true)) vs ->
  Forall (fun x => is_finite x = true) (column j vs).
Proof.
  intros H. unfold column. apply Forall_forall. intros x Hx.
  apply in_map_iff in Hx. destruct Hx as [v [<- Hv]].
  apply nth_finite. rewrite Forall_forall in H. apply H, Hv.
Qed.

Lemma mean_axis0_finite (vs : list vector) :
  vs <> [] -> Forall (Forall (fun x => is_finite x = true)) vs ->
  Forall (fun x => is_finite x = true) (mean_axis0 vs).
Proof.
  intros Hne H. unfold mean_axis0. apply Forall_forall. intros x Hx.
  apply in_map_iff in Hx. destruct Hx as [j [<- _]].
  apply div_of_nat_finite.
  - destruct vs; [contradiction | cbn [length]; lia].
  - apply total_finite, column_finite, H.
Qed.

Lemma var_axis0_finite (vs : list vector) :
  vs <> [] -> Forall (Forall (fun x => is_finite x = true)) vs ->
  Forall (fun x => is_finite x = true) (var_axis0 vs).
Proof.
  intros Hne H. unfold var_axis0. apply Forall_forall. intros x Hx.
  apply in_map_iff in Hx. destruct Hx as [j [<- _]].
  apply div_of_nat_finite.
  - destruct vs; [contradiction | cbn [length]; lia].
  - apply total_finite. apply Forall_forall. intros y Hy.
    apply in_map_iff in Hy. destruct Hy as [z [<- Hz]].
    pose proof (column_finite j H) as Hcol. rewrite Forall_forall in Hcol.
    specialize (Hcol z Hz).
    pose proof (nth_finite j (mean_axis0_finite Hne H)) as Hmu.
    destruct z; try discriminate.
    destruct (nth j (mean_axis0 vs) (Finite 0)); try discriminate. reflexivity.
Qed.

Lemma mean_or_zeros_finite (n : nat) (ws : list vector) :
  Forall (Forall (fun x => is_finite x = true)) ws ->
  Forall (fun x => is_finite x = true) (mean_or_zeros n ws).
Proof.
  intros H. destruct ws as [|w ws]; cbn [mean_or_zeros].
  - apply Forall_forall. intros x Hx. apply repeat_spec in Hx. now subst.
  - apply mean_axis0_finite; [discriminate | exact H].
Qed.

Lemma artist_reductions_finite (h : list vector -> vector)
  (es : list (string * vector)) :
  (forall vs, vs <> [] -> Forall (Forall (fun x => is_finite x = true)) vs ->
              Forall (fun x => is_finite x = true) (h vs)) ->
  Forall (fun e => Forall (fun x => is_finite x = true) (snd e)) es ->
  Forall (Forall (fun x => is_finite x = true)) (map h (values (insert_all es []))).
Proof.
  intros Hh Hes. rewrite map_values_insert_all.
  destruct (insert_all_grouped es) as [_ [Hkeys _]].
  apply Forall_forall. intros w Hw. apply in_map_iff in Hw.
  destruct Hw as [k [<- Hk]]. apply Hh.
  - apply tracks_of_present, Hkeys, Hk.
  - apply tracks_of_Forall with (P := Forall (fun x => is_finite x = true)), Hes.
Qed.

Lemma chunks_Forall {A : Type} (P : A -> Prop) (cols rows : nat) :
  forall xs, Forall P xs -> Forall (Forall P) (chunks cols rows xs).
Proof.
  induction rows as [|k IH]; intros xs H; cbn [chunks]; constructor.
  - rewrite <- (firstn_skipn cols xs) in H. apply Forall_app in H. apply H.
  - apply IH. rewrite <- (firstn_skipn cols xs) in H. apply Forall_app in H.
    apply H.
Qed.

Section Finite.
Variable n_mfcc : nat.
Variable value : float32 -> number.

Lemma mean_axis1_finite (cols : nat) (m : ndarray) :
  0 < cols -> Forall (fun row => length row = cols) m ->
  Forall (Forall (fun x => is_finite (value x) = true)) m ->
  Forall (fun x => is_finite x = true) (mean_axis1 value m).
Proof.
  intros Hcols Hshape Hfin. unfold mean_axis1. apply Forall_forall. intros x Hx.
  apply in_map_iff in Hx. destruct Hx as [row [<- Hrow]].
  rewrite Forall_forall in Hshape, Hfin.
  apply div_of_nat_finite; [rewrite (Hshape row Hrow); exact Hcols|].
  apply total_finite. apply Forall_forall. intros y Hy.
  apply in_map_iff in Hy. destruct Hy as [s [<- Hs]].
  specialize (Hfin row Hrow). rewrite Forall_forall in Hfin. apply Hfin, Hs.
Qed.

Lemma mfcc_vector_finite (buf : list byte) :
  0 < n_mfcc -> well_sized n_mfcc buf -> finite_samples value buf ->
  exists v, mfcc_vector n_mfcc value buf = Ok v /\
            Forall (fun x => is_finite x = true) v.
Proof.
  intros Hn [k [Hk Hlen]] Hfin.
  destruct (@frombuffer_whole (k * n_mfcc) buf) as [xs [Hxs Hsize]]; [lia|].
  unfold mfcc_vector, decode, reshape. rewrite Hxs. cbn [bind]. rewrite Hsize.
  replace (n_mfcc =? 0) with false by (symmetry; apply Nat.eqb_neq; lia).
  rewrite Nat.Div0.mod_mul, Nat.div_mul by lia. cbn [orb negb Nat.eqb bind].
  eexists. split; [reflexivity|].
  apply mean_axis1_finite with (cols := k); [exact Hk | |].
  - apply chunks_shape. lia.
  - apply chunks_Forall, (Hfin xs Hxs).
Qed.

Lemma vectors_finite (tracks : list (list byte * string)) :
  0 < n_mfcc -> finite_library n_mfcc value tracks ->
  exists es, vectors n_mfcc value tracks = Ok es /\
             Forall (fun e => Forall (fun x => is_finite x = true) (snd e)) es.
Proof.
  intros Hn. unfold finite_library.
  induction 1 as [|[mfcc artist] rest [Hsize Hfin] _ [es [IH IHfin]]]; cbn [vectors].
  - exists []. split; [reflexivity | constructor].
  - cbn [fst] in Hsize, Hfin.
    destruct (mfcc_vector_finite Hn Hsize Hfin) as [v [Hv Hvf]].
    rewrite Hv, IH. cbn [bind]. eexists. split; [reflexivity|].
    constructor; [exact Hvf | exact IHfin].
Qed.

(** A library of finite samples has a finite vector of [2 * n_mfcc]
    components. *)
Lemma calculate_mean_mfcc_finite (tracks : list (list byte * string)) :
  0 < n_mfcc -> finite_library n_mfcc value tracks ->
  exists r, calculate_mean_mfcc n_mfcc value tracks = Ok (lift r) /\
            length r = 2 * n_mfcc.
Proof.
  intros Hn Hlib. unfold calculate_mean_mfcc.
  destruct tracks as [|t rest].
  { exists (repeat 0%R (2 * n_mfcc)). split; [|apply repeat_length].
    unfold zeros, lift. rewrite map_repeat. reflexivity. }
  destruct (vectors_finite Hn Hlib) as [es [Hes Hfin]].
  rewrite collect_vectors, Hes. cbn [bind].
  pose proof (vectors_lengths _ _ _ Hes) as Hlen.
  assert (H1 : length (mean_or_zeros n_mfcc
                 (map mean_axis0 (values (insert_all es [])))) = n_mfcc).
  { apply mean_or_zeros_length, artist_reductions_length; [|exact Hlen].
    intros vs. apply mean_axis0_length. }
  assert (H2 : length (mean_or_zeros n_mfcc
                 (map var_axis0 (values (insert_all es [])))) = n_mfcc).
  { apply mean_or_zeros_length, artist_reductions_length; [|exact Hlen].
    intros vs. apply var_axis0_length. }
  destruct (@finite_is_lift
              (mean_or_zeros n_mfcc (map mean_axis0 (values (insert_all es [])))
               ++ mean_or_zeros n_mfcc (map var_axis0 (values (insert_all es [])))))
    as [r Hr].
  { apply Forall_app. split; apply mean_or_zeros_finite, artist_reductions_finite;
      try exact Hfin.
    - exact mean_axis0_finite.
    - exact var_axis0_finite. }
  exists r. split; [rewrite Hr; reflexivity|].
  rewrite <- (lift_length r), <- Hr, length_app. lia.
Qed.

End Finite.

End AggregatorFinite.

(** ** The aggregation: weights of the artists, sign of the variance,
    order of the frames *)

Module AggregatorProperties.
Import Codec CodecFacts Number NumberFacts Aggregator AggregatorOrder
  AggregatorRows RepeatedTrack Examples.
Local Open Scope R_scope.

Section Library.
Variable n_mfcc : nat.
Variable value : float32 -> number.

Lemma vectors_app (l1 l2 : list (list byte * string))
  (es1 es2 : list (string * vector)) :
  vectors n_mfcc value l1 = Ok es1 -> vectors n_mfcc value l2 = Ok es2 ->
  vectors n_mfcc value (l1 ++ l2) = Ok (es1 ++ es2).
Proof.
  revert es1. induction l1 as [|[mfcc artist] l1 IH]; intros es1 H1 H2.
  - injection H1 as <-. exact H2.
  - cbn [app vectors] in *.
    destruct (mfcc_vector n_mfcc value mfcc) as [v|]; cbn [bind] in *; [|discriminate].
    destruct (vectors n_mfcc value l1) as [es|]; cbn [bind] in *; [|discriminate].
    injection H1 as <-. rewrite (IH es eq_refl H2). reflexivity.
Qed.

(** In exact arithmetic: two artists weigh the same whatever the number of
    their tracks. When the first artist holds one fingerprint [k + 1] times
    and the second artist holds one track, both with finite vectors, the
    mean profile is the mean of the two track vectors, the same for every
    [k], and the variance profile is zero. *)
Theorem two_artists_balance (mfcc1 mfcc2 : list byte) (artist1 artist2 : string)
  (v1 v2 : list R) (k : nat) :
  artist1 <> artist2 ->
  mfcc_vector n_mfcc value mfcc1 = Ok (lift v1) ->
  mfcc_vector n_mfcc value mfcc2 = Ok (lift v2) ->
  calculate_mean_mfcc n_mfcc value
    (repeat (mfcc1, artist1) (S k) ++ [(mfcc2, artist2)])
  = Ok (mean_axis0 [lift v1; lift v2] ++ zeros n_mfcc).
Proof.
  intros Hne H1 H2.
  pose proof (mfcc_vector_length _ _ _ H1) as Hlen1.
  pose proof (mfcc_vector_length _ _ _ H2) as Hlen2.
  rewrite lift_length in Hlen1, Hlen2.
  assert (Hvec : vectors n_mfcc value
                   (repeat (mfcc1, artist1) (S k) ++ [(mfcc2, artist2)])
                 = Ok (repeat (artist1, lift v1) (S k) ++ [(artist2, lift v2)])).
  { apply vectors_app.
    - apply (@vectors_repeat n_mfcc value mfcc1 artist1 (lift v1) (S k) H1).
    - cbn [vectors]. rewrite H2. reflexivity. }
  unfold calculate_mean_mfcc.
  rewrite (collect_vectors n_mfcc value
             (repeat (mfcc1, artist1) (S k) ++ [(mfcc2, artist2)]) []).
  rewrite Hvec. cbn [repeat app bind].
  change ((artist1, lift v1) :: repeat (artist1, lift v1) k ++ [(artist2, lift v2)])
    with (repeat (artist1, lift v1) (S k) ++ [(artist2, lift v2)]).
  rewrite insert_all_snoc, insert_all_repeat_nil.
  cbn [fst snd setdefault_append].
  replace (String.eqb artist1 artist2) with false
    by (symmetry; apply String.eqb_neq, Hne).
  cbn [values map snd mean_or_zeros].
  change [lift v2] with (repeat (lift v2) 1).
  rewrite !mean_axis0_repeat, !var_axis0_repeat, Hlen1, Hlen2.
  rewrite (zeros_lift n_mfcc).
  change [lift (repeat 0 n_mfcc); lift (repeat 0 n_mfcc)]
    with (repeat (lift (repeat 0 n_mfcc)) 2).
  rewrite mean_axis0_repeat. reflexivity.
Qed.

End Library.

Lemma two_artists_balance_witness :
  "A"%string <> "C"%string /\
  calculate_mean_mfcc N_MFCC Binary32.value
    (repeat (tobytes ones_20, "A"%string) 5 ++ [(tobytes ones_20, "C"%string)])
  = Ok (mean_axis0 [lift (repeat 1 20); lift (repeat 1 20)] ++ zeros N_MFCC).
Proof.
  assert (H : "A"%string <> "C"%string) by discriminate.
  split; [exact H|].
  exact (@two_artists_balance N_MFCC Binary32.value
           (tobytes ones_20) (tobytes ones_20) "A"%string "C"%string
           (repeat 1 20) (repeat 1 20) 4 H
           mfcc_vector_ones_20_lift mfcc_vector_ones_20_lift).
Defined.

Lemma add_not_negative (x y : number) :
  ~ negative x -> ~ negative y -> ~ negative (add x y).
Proof.
  destruct x, y; cbn; try tauto. lra.
Qed.

Lemma square_not_negative (x : number) : ~ negative (mul x x).
Proof.
  destruct x; cbn; try tauto.
  - pose proof (Rle_0_sqr x) as H. unfold Rsqr in H. lra.
Qed.

Lemma total_not_negative (xs : list number) :
  Forall (fun x => ~ negative x) xs -> ~ negative (total xs).
Proof.
  induction 1 as [|x xs Hx _ IH]; cbn [total fold_right].
  - cbn. lra.
  - fold (total xs). apply add_not_negative; assumption.
Qed.

Lemma quotient_not_negative (t : number) (n : nat) :
  ~ negative t -> ~ negative (div t (of_nat n)).
Proof.
  intros Ht. pose proof (pos_INR n) as Hn. unfold of_nat.
  destruct t as [a| | |]; cbn [div negative] in *.
  - destruct (Req_dec_T (INR n) 0) as [E|E].
    + unfold by_sign. destruct (Req_dec_T a 0); [tauto|].
      destruct (Rlt_dec 0 a); cbn; [tauto | lra].
    + cbn. intros H. apply Ht.
      assert (0 < INR n) by lra.
      assert (Ha : a = a / INR n * INR n) by (field; exact E).
      nra.
  - destruct (Rlt_dec (INR n) 0); cbn; [lra | tauto].
  - tauto.
  - tauto.
Qed.

Lemma var_axis0_not_negative (vs : list vector) :
  Forall (fun x => ~ negative x) (var_axis0 vs).
Proof.
  unfold var_axis0. apply Forall_forall. intros x Hx.
  apply in_map_iff in Hx. destruct Hx as [j [<- _]].
  apply quotient_not_negative, total_not_negative.
  apply Forall_forall. intros y Hy. apply in_map_iff in Hy.
  destruct Hy as [z [<- _]]. apply square_not_negative.
Qed.

Lemma nth_not_negative (w : vector) (j : nat) :
  Forall (fun x => ~ negative x) w -> ~ negative (nth j w (Finite 0)).
Proof.
  intros H. revert j. induction H as [|x w Hx _ IH]; intros [|j]; cbn [nth].
  - cbn. lra.
  - cbn. lra.
  - exact Hx.
  - apply IH.
Qed.

Lemma mean_axis0_not_negative (ws : list vector) :
  Forall (Forall (fun x => ~ negative x)) ws ->
  Forall (fun x => ~ negative x) (mean_axis0 ws).
Proof.
  intros H. unfold mean_axis0. apply Forall_forall. intros x Hx.
  apply in_map_iff in Hx. destruct Hx as [j [<- _]].
  apply quotient_not_negative, total_not_negative. unfold column.
  apply Forall_forall. intros y Hy. apply in_map_iff in Hy.
  destruct Hy as [w [<- Hw]]. apply nth_not_negative.
  rewrite Forall_forall in H. apply H, Hw.
Qed.

Lemma zeros_not_negative (n : nat) : Forall (fun x => ~ negative x) (zeros n).
Proof.
  apply Forall_forall. intros x Hx. apply repeat_spec in Hx. subst x. cbn. lra.
Qed.

Lemma skipn_app_exact {A : Type} (n : nat) (l1 l2 : list A) :
  length l1 = n -> skipn n (l1 ++ l2) = l2.
Proof.
  intros <-. induction l1 as [|x l1 IH]; [reflexivity | exact IH].
Qed.

(** The second half of the result, the variance profile, has no negative
    component, whatever the library is. *)
Theorem variance_profile_nonneg (n_mfcc : nat) (value : float32 -> number)
  (tracks : list (list byte * string)) (v : vector) :
  calculate_mean_mfcc n_mfcc value tracks = Ok v ->
  length (skipn n_mfcc v) = n_mfcc /\
  Forall (fun x => ~ negative x) (skipn n_mfcc v).
Proof.
  unfold calculate_mean_mfcc. destruct tracks as [|t rest].
  { intros H. injection H as <-. unfold zeros. split.
    - rewrite length_skipn, repeat_length. lia.
    - apply Forall_forall. intros x Hx.
      assert (Hin : In x (repeat (Finite 0) (2 * n_mfcc))).
      { rewrite <- (firstn_skipn n_mfcc). apply in_or_app. right. exact Hx. }
      apply repeat_spec in Hin. subst x. cbn. lra. }
  rewrite collect_vectors.
  destruct (vectors n_mfcc value (t :: rest)) as [es|] eqn:Hes; cbn [bind];
    [|discriminate].
  intros H. injection H as <-.
  pose proof (vectors_lengths _ _ _ Hes) as Hlen.
  assert (H1 : length (mean_or_zeros n_mfcc
                 (map mean_axis0 (values (insert_all es [])))) = n_mfcc).
  { apply mean_or_zeros_length, artist_reductions_length; [|exact Hlen].
    intros vs. apply mean_axis0_length. }
  assert (H2 : length (mean_or_zeros n_mfcc
                 (map var_axis0 (values (insert_all es [])))) = n_mfcc).
  { apply mean_or_zeros_length, artist_reductions_length; [|exact Hlen].
    intros vs. apply var_axis0_length. }
  rewrite (skipn_app_exact _ _ H1). split; [exact H2|].
  destruct (map var_axis0 (values (insert_all es []))) as [|w ws] eqn:E;
    cbn [mean_or_zeros]; [apply zeros_not_negative|].
  apply mean_axis0_not_negative. rewrite <- E.
  apply Forall_forall. intros x Hx. apply in_map_iff in Hx.
  destruct Hx as [vs [<- _]]. apply var_axis0_not_negative.
Qed.

Lemma variance_profile_nonneg_witness :
  calculate_mean_mfcc N_MFCC Binary32.value [(tobytes ones_20, "A"%string)]
    = Ok (repeat (Finite 1) 20 ++ repeat (Finite 0) 20) /\
  length (skipn N_MFCC (repeat (Finite 1) 20 ++ repeat (Finite 0) 20)) = N_MFCC /\
  Forall (fun x => ~ negative x)
    (skipn N_MFCC (repeat (Finite 1) 20 ++ repeat (Finite 0) 20)).
Proof.
  split; [exact one_track_library|].
  exact (@variance_profile_nonneg N_MFCC Binary32.value
           [(tobytes ones_20, "A"%string)]
           (repeat (Finite 1) 20 ++ repeat (Finite 0) 20)
           one_track_library).
Defined.

Lemma mean_axis1_Permutation (value : float32 -> number) (m m' : ndarray) :
  Forall2 (@Permutation float32) m m' ->
  mean_axis1 value m = mean_axis1 value m'.
Proof.
  induction 1 as [|row row' m m' Hrow _ IH]; [reflexivity|].
  cbn [mean_axis1 map]. fold (mean_axis1 value m). fold (mean_axis1 value m').
  rewrite IH, (Permutation_length Hrow).
  rewrite (total_Permutation (Permutation_map value Hrow)). reflexivity.
Qed.

Lemma has_shape_Permutation (rows cols : nat) (m m' : ndarray) :
  has_shape rows cols m -> Forall2 (@Permutation float32) m m' ->
  has_shape rows cols m'.
Proof.
  intros [Hr Hc] H. split.
  - rewrite <- Hr. symmetry. apply (Forall2_length H).
  - clear Hr. induction H as [|row row' m m' Hrow _ IH]; [constructor|].
    inversion Hc; subst. constructor; [|apply IH; assumption].
    symmetry. apply Permutation_length, Hrow.
Qed.

(** In exact arithmetic: the vector of a track does not depend on the order
    of its frames. Two stored arrays whose rows hold the same samples in a
    different order, as when the frames are reordered, have the same
    vector. *)
Theorem mfcc_vector_frame_order (n_mfcc T : nat) (value : float32 -> number)
  (m m' : ndarray) :
  (0 < n_mfcc)%nat -> (1 <= T)%nat -> has_shape n_mfcc T m ->
  Forall2 (@Permutation float32) m m' ->
  mfcc_vector n_mfcc value (tobytes m) = mfcc_vector n_mfcc value (tobytes m').
Proof.
  intros Hn HT Hm HP. unfold mfcc_vector.
  rewrite (decode_of_tobytes Hn Hm).
  rewrite (decode_of_tobytes Hn (has_shape_Permutation Hm HP)).
  cbn [bind]. rewrite (mean_axis1_Permutation value HP). reflexivity.
Qed.

Lemma mfcc_vector_frame_order_witness :
  has_shape 20 2 two_frames /\
  Forall2 (@Permutation float32) two_frames
    (repeat [Binary32.three; Binary32.one] 20) /\
  mfcc_vector 20 Binary32.value (tobytes two_frames)
  = mfcc_vector 20 Binary32.value
      (tobytes (repeat [Binary32.three; Binary32.one] 20)).
Proof.
  assert (Hs : has_shape 20 2 two_frames).
  { split; [reflexivity|]. unfold two_frames. cbn [repeat]. repeat constructor. }
  assert (HP : Forall2 (@Permutation float32) two_frames
                 (repeat [Binary32.three; Binary32.one] 20)).
  { unfold two_frames. cbn [repeat]. repeat (constructor; [apply perm_swap|]).
    constructor. }
  split; [exact Hs|]. split; [exact HP|].
  apply (@mfcc_vector_frame_order 20 2 Binary32.value two_frames
           (repeat [Binary32.three; Binary32.one] 20)); [lia | lia | exact Hs | exact HP].
Defined.

End AggregatorProperties.

(** ** The similarity: zero vectors, clamping, scale *)

Module SimilarityProperties.
Import Number NumberFacts Aggregator Similarity RealVector RealVectorFacts
  SimilarityFacts.
Local Open Scope R_scope.

Lemma zeros_origin (n : nat) : zeros n = lift (origin n).
Proof. unfold zeros, origin, lift. rewrite map_repeat. reflexivity. Qed.

Lemma origin_length (n : nat) : length (origin n) = n.
Proof. apply repeat_length. Qed.

Lemma cosine_origin (b : list R) :
  inner (unit (origin (length b))) (unit b) = 0 /\
  inner (unit b) (unit (origin (length b))) = 0.
Proof.
  rewrite !cosine_quotient, (inner_comm b), inner_origin_l.
  unfold Rdiv. rewrite !Rmult_0_l. split; reflexivity.
Qed.

(** The zero vector has the cosine 0, and so the score 0, with every finite
    vector of its dimension, on either side: its zero norm is replaced by 1
    before the division, and no component becomes NaN. *)
Theorem similarity_zero (b : list R) :
  (0 < length b)%nat ->
  cosine_similarity (zeros (length b)) (lift b) = Ok (Finite 0) /\
  cosine_similarity (lift b) (zeros (length b)) = Ok (Finite 0) /\
  similarity (zeros (length b)) (lift b) = Ok (Finite 0) /\
  similarity (lift b) (zeros (length b)) = Ok (Finite 0).
Proof.
  intros Hpos. destruct (cosine_origin b) as [Hl Hr].
  assert (Hlen : length (origin (length b)) = length b) by apply origin_length.
  assert (Hpos' : (0 < length (origin (length b)))%nat) by (rewrite Hlen; exact Hpos).
  rewrite zeros_origin. unfold similarity.
  rewrite (cosine_similarity_lift (origin (length b)) b Hlen Hpos').
  rewrite (cosine_similarity_lift b (origin (length b)) (eq_sym Hlen) Hpos).
  rewrite Hl, Hr. cbn [bind mul]. rewrite max0_finite, Rmult_0_l.
  rewrite Rmax_left by lra. repeat split; reflexivity.
Qed.

Lemma similarity_zero_witness :
  (0 < length [3; 4])%nat /\
  cosine_similarity (zeros (length [3; 4])) (lift [3; 4]) = Ok (Finite 0) /\
  cosine_similarity (lift [3; 4]) (zeros (length [3; 4])) = Ok (Finite 0) /\
  similarity (zeros (length [3; 4])) (lift [3; 4]) = Ok (Finite 0) /\
  similarity (lift [3; 4]) (zeros (length [3; 4])) = Ok (Finite 0).
Proof.
  assert (H : (0 < length [3; 4])%nat) by (cbn; lia).
  split; [exact H|].
  exact (@similarity_zero [3; 4] H).
Defined.

(** Whenever a score is returned it is a finite number that is not
    negative: line 75 never returns a negative percentage. *)
Theorem similarity_not_negative (a b : vector) (s : number) :
  similarity a b = Ok s -> exists r, s = Finite r /\ 0 <= r.
Proof.
  unfold similarity.
  destruct (cosine_similarity a b) as [c|] eqn:E; cbn [bind]; [|discriminate].
  destruct (cosine_similarity_inversion _ _ E) as [u [v [_ [_ [_ [_ ->]]]]]].
  cbn [mul]. rewrite max0_finite. intros H. injection H as <-.
  eexists. split; [reflexivity | apply Rmax_l].
Qed.

Lemma similarity_not_negative_witness :
  similarity (lift [1]) (lift [-1]) = Ok (Finite 0) /\
  exists r, Finite 0 = Finite r /\ 0 <= r.
Proof.
  assert (H : similarity (lift [1]) (lift [-1]) = Ok (Finite 0)).
  { rewrite (@similarity_lift [1] [-1] eq_refl) by (cbn; lia).
    rewrite cosine_quotient. unfold inner, norm, squared_norm, sum.
    cbn [map combine fold_right fst snd].
    replace (1 * 1 + 0) with 1 by ring.
    replace (-1 * -1 + 0) with 1 by ring.
    rewrite sqrt_1. unfold divisor.
    destruct (Req_dec_T 1 0) as [E|_]; [lra|].
    do 2 f_equal. apply Rmax_left. lra. }
  split; [exact H|].
  exact (@similarity_not_negative (lift [1]) (lift [-1]) (Finite 0) H).
Defined.

(** In exact arithmetic: two finite vectors of equal dimension whose inner
    product is not positive (orthogonal or opposed profiles) have the
    score 0. *)
Theorem similarity_clamped (a b : list R) :
  length a = length b -> (0 < length a)%nat -> inner a b <= 0 ->
  similarity (lift a) (lift b) = Ok (Finite 0).
Proof.
  intros Hlen Hpos Hdot.
  rewrite (similarity_lift a b Hlen Hpos), cosine_quotient.
  pose proof (divisor_pos (norm_nonneg a)) as Ha.
  pose proof (divisor_pos (norm_nonneg b)) as Hb.
  do 2 f_equal. apply Rmax_left.
  assert (Hq : inner a b / (divisor (norm a) * divisor (norm b)) <= 0).
  { unfold Rdiv.
    assert (0 < / (divisor (norm a) * divisor (norm b)))
      by (apply Rinv_0_lt_compat; nra).
    nra. }
  lra.
Qed.

Lemma similarity_clamped_witness :
  length [1; 0] = length [0; 1] /\ (0 < length [1; 0])%nat /\
  inner [1; 0] [0; 1] <= 0 /\
  similarity (lift [1; 0]) (lift [0; 1]) = Ok (Finite 0).
Proof.
  assert (Hd : inner [1; 0] [0; 1] <= 0).
  { unfold inner, sum. cbn [combine map fold_right fst snd]. lra. }
  assert (Hp : (0 < length [1; 0])%nat) by (cbn; lia).
  split; [reflexivity|]. split; [exact Hp|]. split; [exact Hd|].
  exact (@similarity_clamped [1; 0] [0; 1] eq_refl Hp Hd).
Defined.

Lemma check_array_scale (k : R) (a : list R) :
  check_array (lift (scale k a)) = Ok (lift (scale k a)) /\
  check_array (lift a) = Ok (lift a) \/
  check_array (lift (scale k a)) = ValueError /\
  check_array (lift a) = ValueError.
Proof.
  destruct a as [|x a].
  - right. split; reflexivity.
  - left. split; apply check_array_lift; cbn [scale map length]; lia.
Qed.

(** In exact arithmetic: multiplying a finite vector by a positive factor
    does not change the score, nor whether there is one. Only the direction
    of a profile counts, not its magnitude. *)
Theorem similarity_scale (k : R) (a : list R) (b : vector) :
  0 < k -> similarity (lift (scale k a)) b = similarity (lift a) b.
Proof.
  intros Hk. unfold similarity, cosine_similarity.
  destruct (check_array_scale k a) as [[-> ->]|[-> ->]]; [|reflexivity].
  cbn [bind]. destruct (check_array b) as [y|]; cbn [bind]; [|reflexivity].
  rewrite !lift_length, scale_length, !normalize_lift, (unit_scale a Hk).
  reflexivity.
Qed.

Lemma similarity_scale_witness :
  0 < 3 /\ similarity (lift (scale 3 [2; 2; 1; 1])) (lift [1; 0; 0; 1])
           = similarity (lift [2; 2; 1; 1]) (lift [1; 0; 0; 1]).
Proof.
  assert (H : 0 < 3) by lra.
  split; [exact H|].
  exact (@similarity_scale 3 [2; 2; 1; 1] (lift [1; 0; 0; 1]) H).
Defined.

(** In exact arithmetic: two finite vectors of equal dimension have the
    score 100 exactly when the first is not the zero vector and the second
    is a positive multiple of it. Full similarity means proportional
    profiles. *)
Theorem similarity_full_iff (a b : list R) :
  length a = length b -> (0 < length a)%nat ->
  (similarity (lift a) (lift b) = Ok (Finite 100) <->
   a <> origin (length a) /\ exists k, 0 < k /\ b = scale k a).
Proof.
  intros Hlen Hpos. rewrite (similarity_lift a b Hlen Hpos).
  rewrite <- (cosine_one_iff a b Hlen). split.
  - intros H. injection H as H.
    unfold Rmax in H. destruct (Rle_dec 0 (inner (unit a) (unit b) * 100)); lra.
  - intros ->. do 2 f_equal. rewrite Rmult_1_l. apply Rmax_right. lra.
Qed.

Lemma similarity_full_iff_witness :
  length [2; 2; 1; 1] = length [4; 4; 2; 2] /\
  (0 < length [2; 2; 1; 1])%nat /\
  (similarity (lift [2; 2; 1; 1]) (lift [4; 4; 2; 2]) = Ok (Finite 100) <->
   [2; 2; 1; 1] <> origin (length [2; 2; 1; 1]) /\
   exists k, 0 < k /\ [4; 4; 2; 2] = scale k [2; 2; 1; 1]).
Proof.
  assert (Hp : (0 < length [2; 2; 1; 1])%nat) by (cbn; lia).
  split; [reflexivity|]. split; [exact Hp|].
  exact (@similarity_full_iff [2; 2; 1; 1] [4; 4; 2; 2] eq_refl Hp).
Defined.

(** In exact arithmetic: for two finite vectors of equal dimension, neither
    of them zero, the score is the cosine of their angle, the inner product
    divided by the product of the two Euclidean norms, times 100, with 0 in
    place of a negative value. *)
Theorem similarity_cosine (a b : list R) :
  length a = length b ->
  a <> origin (length a) -> b <> origin (length b) ->
  similarity (lift a) (lift b)
  = Ok (Finite (Rmax 0 (inner a b / (norm a * norm b) * 100))).
Proof.
  intros Hlen Ha Hb.
  assert (Hpos : (0 < length a)%nat).
  { destruct a; [exfalso; apply Ha; reflexivity | cbn [length]; lia]. }
  rewrite (similarity_lift a b Hlen Hpos), cosine_quotient.
  unfold divisor.
  destruct (Req_dec_T (norm a) 0) as [E|_];
    [exfalso; exact (norm_nonzero Ha E)|].
  destruct (Req_dec_T (norm b) 0) as [E|_];
    [exfalso; exact (norm_nonzero Hb E)|].
  reflexivity.
Qed.

Lemma similarity_cosine_witness :
  length [3; 4] = length [4; 3] /\
  [3; 4] <> origin (length [3; 4]) /\ [4; 3] <> origin (length [4; 3]) /\
  similarity (lift [3; 4]) (lift [4; 3])
  = Ok (Finite (Rmax 0 (inner [3; 4] [4; 3]
                        / (norm [3; 4] * norm [4; 3]) * 100))).
Proof.
  assert (Ha : [3; 4] <> origin (length [3; 4])).
  { cbn. intros E. injection E as E. lra. }
  assert (Hb : [4; 3] <> origin (length [4; 3])).
  { cbn. intros E. injection E as E. lra. }
  split; [reflexivity|]. split; [exact Ha|]. split; [exact Hb|].
  exact (@similarity_cosine [3; 4] [4; 3] eq_refl Ha Hb).
Defined.

End SimilarityProperties.

(** ** The comparison of two users *)

Module MatchUsersFacts.
Import Codec CodecFacts Number NumberFacts Aggregator AggregatorFailure
  AggregatorOrder AggregatorNaN AggregatorFinite Similarity RealVector
  RealVectorFacts SimilarityFacts Examples Binary32Facts.

Section Libraries.
Variable n_mfcc : nat.
Variable value : float32 -> number.

(** The result, when there is one, has [2 * n_mfcc] components. *)
Lemma calculate_mean_mfcc_length (tracks : list (list byte * string)) (v : vector) :
  calculate_mean_mfcc n_mfcc value tracks = Ok v -> length v = 2 * n_mfcc.
Proof.
  unfold calculate_mean_mfcc. destruct tracks as [|t rest].
  { intros H. injection H as <-. apply repeat_length. }
  rewrite collect_vectors.
  destruct (vectors n_mfcc value (t :: rest)) as [es|] eqn:Hes; cbn [bind];
    [|discriminate].
  intros H. injection H as <-.
  pose proof (vectors_lengths _ _ _ Hes) as Hlen.
  rewrite length_app, !mean_or_zeros_length; [lia| |].
  - apply artist_reductions_length; [|exact Hlen].
    intros vs. apply var_axis0_length.
  - apply artist_reductions_length; [|exact Hlen].
    intros vs. apply mean_axis0_length.
Qed.

Lemma calculate_mean_mfcc_reorder (tracks tracks' : list (list byte * string)) :
  Permutation tracks tracks' ->
  calculate_mean_mfcc n_mfcc value tracks
  = calculate_mean_mfcc n_mfcc value tracks'.
Proof.
  intros HP. destruct tracks as [|t rest].
  { apply Permutation_nil in HP. subst. reflexivity. }
  destruct tracks' as [|t' rest'].
  { apply Permutation_sym, Permutation_nil in HP. discriminate. }
  unfold calculate_mean_mfcc. rewrite !collect_vectors.
  destruct (vectors_Permutation n_mfcc value HP)
    as [[-> ->]|[es [es' [Hes [Hes' HPes]]]]]; [reflexivity|].
  rewrite Hes, Hes'. cbn [bind].
  pose proof (vectors_lengths _ _ _ Hes) as Hlen.
  f_equal. f_equal.
  - apply mean_of_artists_Permutation; try assumption.
    + intros vs ws. apply mean_axis0_Permutation.
    + intros vs. apply mean_axis0_length.
  - apply mean_of_artists_Permutation; try assumption.
    + intros vs ws. apply var_axis0_Permutation.
    + intros vs. apply var_axis0_length.
Qed.

(** A track whose vector holds NaN: the computation raises (for another
    track) or its result holds NaN. *)
Lemma calculate_mean_mfcc_NaN (tracks : list (list byte * string))
  (mfcc : list byte) (artist : string) (v : vector) (c : nat) :
  In (mfcc, artist) tracks ->
  mfcc_vector n_mfcc value mfcc = Ok v ->
  c < n_mfcc -> nth c v (Finite 0) = NaN ->
  calculate_mean_mfcc n_mfcc value tracks = ValueError \/
  exists r, calculate_mean_mfcc n_mfcc value tracks = Ok r /\ In NaN r.
Proof.
  intros Hin Hv Hc Hnan.
  destruct (vectors n_mfcc value tracks) as [es|] eqn:Hes.
  - right.
    destruct (@vectors_In n_mfcc value tracks es mfcc artist Hes Hin) as [w [Hw Hinw]].
    assert (w = v) by congruence. subst w.
    destruct (@calculate_mean_mfcc_NaN_at n_mfcc value tracks es artist v c
                Hes Hinw Hc Hnan) as [r [Hr [Hlen [H1 _]]]].
    exists r. split; [exact Hr|]. rewrite <- H1. apply nth_In. lia.
  - left. unfold calculate_mean_mfcc.
    destruct tracks as [|t rest]; [destruct Hin|].
    rewrite collect_vectors, Hes. reflexivity.
Qed.

(** A buffer that is not well sized, the empty one included, leaves no
    finite result. *)
Lemma calculate_mean_mfcc_malformed (tracks : list (list byte * string))
  (mfcc : list byte) (artist : string) :
  0 < n_mfcc -> In (mfcc, artist) tracks -> ~ well_sized n_mfcc mfcc ->
  calculate_mean_mfcc n_mfcc value tracks = ValueError \/
  exists r, calculate_mean_mfcc n_mfcc value tracks = Ok r /\ In NaN r.
Proof.
  intros Hn Hin Hbad.
  destruct (not_well_sized Hn Hbad) as [->|Hmod].
  - apply (@calculate_mean_mfcc_NaN tracks [] artist (repeat NaN n_mfcc) 0 Hin).
    + apply mfcc_vector_empty, Hn.
    + exact Hn.
    + destruct n_mfcc; [lia | reflexivity].
  - left. unfold calculate_mean_mfcc.
    destruct tracks as [|t rest]; [destruct Hin|].
    rewrite (@collect_error n_mfcc value (t :: rest) []); [reflexivity|].
    exists (mfcc, artist). split; [exact Hin|].
    apply mfcc_vector_error, Hmod.
Qed.

End Libraries.

Lemma similarity_swap (a b : vector) : similarity a b = similarity b a.
Proof.
  unfold similarity, cosine_similarity.
  destruct (check_array a) as [x|], (check_array b) as [y|]; cbn [bind];
    try reflexivity.
  rewrite (Nat.eqb_sym (length x) (length y)).
  destruct (length y =? length x); [|reflexivity].
  cbn [bind]. rewrite dot_comm. reflexivity.
Qed.

Lemma similarity_NaN (a b : vector) :
  In NaN a \/ In NaN b -> similarity a b = ValueError.
Proof.
  intros [H|H]; unfold similarity, cosine_similarity.
  - rewrite (check_array_NaN _ H). reflexivity.
  - rewrite (check_array_NaN _ H). destruct (check_array a); reflexivity.
Qed.

(** The comparison raises as soon as one of the two vectors cannot be
    computed or holds NaN. *)
Lemma match_users_no_vector (value : float32 -> number)
  (tracks1 tracks2 : list (list byte * string)) :
  (calculate_mean_mfcc N_MFCC value tracks1 = ValueError \/
   exists r, calculate_mean_mfcc N_MFCC value tracks1 = Ok r /\ In NaN r) \/
  (calculate_mean_mfcc N_MFCC value tracks2 = ValueError \/
   exists r, calculate_mean_mfcc N_MFCC value tracks2 = Ok r /\ In NaN r) ->
  match_users value tracks1 tracks2 = ValueError.
Proof.
  unfold match_users. intros [[H|[r [H Hnan]]]|[H|[r [H Hnan]]]]; rewrite H; cbn [bind].
  - reflexivity.
  - destruct (calculate_mean_mfcc N_MFCC value tracks2); cbn [bind]; [|reflexivity].
    apply similarity_NaN. now left.
  - destruct (calculate_mean_mfcc N_MFCC value tracks1); reflexivity.
  - destruct (calculate_mean_mfcc N_MFCC value tracks1); cbn [bind]; [|reflexivity].
    apply similarity_NaN. now right.
Qed.

Lemma similarity_percentage (a b : list R) :
  length a = length b -> 0 < length a ->
  exists s, similarity (lift a) (lift b) = Ok (Finite s) /\ (0 <= s <= 100)%R.
Proof.
  intros Hlen Hpos. rewrite (similarity_lift a b Hlen Hpos).
  eexists. split; [reflexivity|]. split.
  - apply Rmax_l.
  - pose proof (cosine_le_1 a b). apply Rmax_lub; lra.
Qed.

Lemma Forall_concat_repeat {A : Type} (P : A -> Prop) (row : list A) (n : nat) :
  Forall P row -> Forall P (concat (repeat row n)).
Proof.
  intros H. induction n as [|n IH]; cbn [repeat concat]; [constructor|].
  apply Forall_app. split; assumption.
Qed.

Lemma finite_samples_tobytes (row : list float32) (n : nat) :
  Forall (fun x => is_finite (Binary32.value x) = true) row ->
  finite_samples Binary32.value (tobytes (repeat row n)).
Proof.
  intros Hrow xs Hxs. unfold tobytes in Hxs. rewrite frombuffer_bytes in Hxs.
  injection Hxs as <-. apply Forall_concat_repeat, Hrow.
Qed.

Lemma two_libraries_finite :
  finite_library N_MFCC Binary32.value
    [(tobytes ones_20, "A"%string); (tobytes two_frames, "B"%string)] /\
  finite_library N_MFCC Binary32.value [(zero_buffer, "C"%string)].
Proof.
  assert (H0 : is_finite (Binary32.value Binary32.zero) = true)
    by (rewrite value_zero; reflexivity).
  assert (H1 : is_finite (Binary32.value Binary32.one) = true)
    by (rewrite value_one; reflexivity).
  assert (H3 : is_finite (Binary32.value Binary32.three) = true)
    by (rewrite value_three; reflexivity).
  split.
  - constructor; [|constructor; [|constructor]]; cbn [fst]; split.
    + exists 1. split; [lia | reflexivity].
    + apply finite_samples_tobytes. repeat constructor; assumption.
    + exists 2. split; [lia | reflexivity].
    + apply finite_samples_tobytes. repeat constructor; assumption.
  - constructor; [|constructor]. cbn [fst]. split.
    + exists 1. split; [lia | reflexivity].
    + change zero_buffer with (tobytes (repeat [Binary32.zero] 20)).
      apply finite_samples_tobytes. repeat constructor; assumption.
Qed.

End MatchUsersFacts.

Module MatchUsersProperties.
Import Codec Number NumberFacts Aggregator AggregatorFailure AggregatorOrder
  AggregatorFinite Similarity RealVector RealVectorFacts SimilarityFacts
  MatchUsersFacts Examples.
Local Open Scope R_scope.

(** In exact arithmetic: when every stored buffer of both users holds at
    least one frame of 20 coefficients and finite samples only,
    [match_users] returns a percentage between 0 and 100. Both vectors are
    finite and have 40 components, and the comparison does not raise. *)
Theorem match_users_percentage (value : float32 -> number)
  (tracks1 tracks2 : list (list byte * string)) :
  finite_library N_MFCC value tracks1 ->
  finite_library N_MFCC value tracks2 ->
  exists s, match_users value tracks1 tracks2 = Ok (Finite s) /\ 0 <= s <= 100.
Proof.
  intros H1 H2. unfold match_users.
  assert (Hn : (0 < N_MFCC)%nat) by (unfold N_MFCC; lia).
  destruct (calculate_mean_mfcc_finite Hn H1) as [v1 [Hv1 Hlen1]].
  destruct (calculate_mean_mfcc_finite Hn H2) as [v2 [Hv2 Hlen2]].
  rewrite Hv1, Hv2. cbn [bind].
  apply similarity_percentage; [congruence | lia].
Qed.

Lemma match_users_percentage_witness :
  finite_library N_MFCC Binary32.value
    [(tobytes ones_20, "A"%string); (tobytes two_frames, "B"%string)] /\
  finite_library N_MFCC Binary32.value [(zero_buffer, "C"%string)] /\
  exists s,
    match_users Binary32.value
      [(tobytes ones_20, "A"%string); (tobytes two_frames, "B"%string)]
      [(zero_buffer, "C"%string)] = Ok (Finite s) /\ 0 <= s <= 100.
Proof.
  split; [exact (proj1 two_libraries_finite)|].
  split; [exact (proj2 two_libraries_finite)|].
  exact (@match_users_percentage Binary32.value _ _
           (proj1 two_libraries_finite) (proj2 two_libraries_finite)).
Defined.



(** The comparison is symmetric: asking for the match of the second user
    with the first gives the same outcome, score or failure. *)
Theorem match_users_sym (value : float32 -> number)
  (tracks1 tracks2 : list (list byte * string)) :
  match_users value tracks1 tracks2 = match_users value tracks2 tracks1.
Proof.
  unfold match_users.
  destruct (calculate_mean_mfcc N_MFCC value tracks1) as [v1|],
           (calculate_mean_mfcc N_MFCC value tracks2) as [v2|];
    cbn [bind]; try reflexivity.
  apply similarity_swap.
Qed.

(** In exact arithmetic: the outcome does not depend on the order in which
    the rows of either user are returned by the query, which has no
    ORDER BY. *)
Theorem match_users_reorder (value : float32 -> number)
  (tracks1 tracks1' tracks2 tracks2' : list (list byte * string)) :
  Permutation tracks1 tracks1' -> Permutation tracks2 tracks2' ->
  match_users value tracks1 tracks2 = match_users value tracks1' tracks2'.
Proof.
  intros H1 H2. unfold match_users.
  rewrite (calculate_mean_mfcc_reorder N_MFCC value H1).
  rewrite (calculate_mean_mfcc_reorder N_MFCC value H2). reflexivity.
Qed.

Lemma match_users_reorder_witness :
  match_users Binary32.value
    [(tobytes ones_20, "A"%string); (tobytes two_frames, "B"%string)]
    [(zero_buffer, "C"%string); (tobytes ones_20, "A"%string)]
  = match_users Binary32.value
    [(tobytes two_frames, "B"%string); (tobytes ones_20, "A"%string)]
    [(tobytes ones_20, "A"%string); (zero_buffer, "C"%string)].
Proof.
  apply (@match_users_reorder Binary32.value); apply perm_swap.
Defined.

(** One malformed buffer in the library of either user makes the whole
    comparison raise. *)
Theorem match_users_malformed (value : float32 -> number)
  (tracks1 tracks2 : list (list byte * string))
  (mfcc : list byte) (artist : string) :
  In (mfcc, artist) tracks1 \/ In (mfcc, artist) tracks2 ->
  ~ well_sized N_MFCC mfcc ->
  match_users value tracks1 tracks2 = ValueError.
Proof.
  assert (Hn : (0 < N_MFCC)%nat) by (unfold N_MFCC; lia).
  intros [Hin|Hin] Hbad; apply match_users_no_vector; [left | right];
    apply (@calculate_mean_mfcc_malformed N_MFCC value _ mfcc artist Hn Hin Hbad).
Qed.

Lemma match_users_malformed_witness :
  ~ well_sized N_MFCC truncated /\
  match_users Binary32.value [(tobytes ones_20, "A"%string)]
    [(zero_buffer, "C"%string); (truncated, "B"%string)] = ValueError.
Proof.
  assert (Hbad : ~ well_sized N_MFCC truncated).
  { intros [k [Hk Hlen]]. cbn in Hlen. lia. }
  split; [exact Hbad|].
  apply (@match_users_malformed Binary32.value _ _ truncated "B"%string);
    [|exact Hbad].
  right. right. left. reflexivity.
Defined.

(** A stored sample that is a NaN, in a buffer of either user that is
    decoded, makes the whole comparison raise: the NaN reaches the vector
    of the user, which the validation of the cosine refuses. *)
Theorem match_users_nan_sample (value : float32 -> number)
  (tracks1 tracks2 : list (list byte * string))
  (mfcc : list byte) (artist : string) (m : ndarray) (row : list float32)
  (x : float32) :
  In (mfcc, artist) tracks1 \/ In (mfcc, artist) tracks2 ->
  decode N_MFCC mfcc = Ok m -> In row m -> In x row -> value x = NaN ->
  match_users value tracks1 tracks2 = ValueError.
Proof.
  intros Hin Hm Hrow Hx Hnan.
  assert (Hv : mfcc_vector N_MFCC value mfcc = Ok (mean_axis1 value m)).
  { unfold mfcc_vector. rewrite Hm. reflexivity. }
  destruct (In_nth _ _ [] Hrow) as [c [Hc Hnth]].
  assert (Hlen : length m = N_MFCC).
  { rewrite <- (mfcc_vector_length _ _ _ Hv). unfold mean_axis1.
    rewrite length_map. reflexivity. }
  assert (Hc' : (c < N_MFCC)%nat) by lia.
  assert (Hcoef : nth c (mean_axis1 value m) (Finite 0) = NaN).
  { unfold mean_axis1.
    rewrite (nth_indep _ (Finite 0)
               ((fun r => div (total (map value r)) (of_nat (length r))) []))
      by (rewrite length_map; exact Hc).
    rewrite (map_nth (fun r => div (total (map value r)) (of_nat (length r)))).
    rewrite Hnth, AggregatorNaN.total_NaN; [apply div_NaN_l|].
    rewrite <- Hnan. apply in_map, Hx. }
  apply match_users_no_vector.
  destruct Hin as [Hin|Hin]; [left | right];
    apply (@calculate_mean_mfcc_NaN N_MFCC value _ mfcc artist
             (mean_axis1 value m) c Hin Hv Hc' Hcoef).
Qed.

Lemma match_users_nan_sample_witness :
  decode N_MFCC (tobytes nan_track) = Ok nan_track /\
  Binary32.value Binary32.quiet_nan = NaN /\
  match_users Binary32.value
    [(tobytes ones_20, "A"%string); (tobytes nan_track, "B"%string)]
    [(zero_buffer, "C"%string)] = ValueError.
Proof.
  assert (Hm : decode N_MFCC (tobytes nan_track) = Ok nan_track).
  { vm_compute. reflexivity. }
  split; [exact Hm|]. split; [exact Binary32Facts.value_quiet_nan|].
  apply (@match_users_nan_sample Binary32.value _ _ (tobytes nan_track) "B"%string
           nan_track [Binary32.quiet_nan] Binary32.quiet_nan).
  - left. right. left. reflexivity.
  - exact Hm.
  - left. reflexivity.
  - left. reflexivity.
  - exact Binary32Facts.value_quiet_nan.
Defined.

(** In exact arithmetic: two users who hold the same entries, in any order,
    have the score 100 as soon as their common vector is finite and not the
    zero vector. *)
Theorem match_users_same_library (value : float32 -> number)
  (tracks tracks' : list (list byte * string)) (v : list R) :
  Permutation tracks tracks' ->
  calculate_mean_mfcc N_MFCC value tracks = Ok (lift v) ->
  v <> origin (length v) ->
  match_users value tracks tracks' = Ok (Finite 100).
Proof.
  intros HP Hv Hnz. unfold match_users.
  rewrite <- (calculate_mean_mfcc_reorder N_MFCC value HP), Hv. cbn [bind].
  assert (Hpos : (0 < length v)%nat).
  { destruct v; [exfalso; apply Hnz; reflexivity | cbn [length]; lia]. }
  rewrite (@similarity_lift v v eq_refl Hpos).
  rewrite inner_self, squared_norm_unit_nonzero.
  - do 2 f_equal. rewrite Rmult_1_l. apply Rmax_right. lra.
  - intros H. apply Hnz, squared_norm_zero, H.
Qed.

Lemma match_users_same_library_witness :
  calculate_mean_mfcc N_MFCC Binary32.value
    (repeat (tobytes ones_20, "A"%string) 3)
  = Ok (lift (repeat 1 20 ++ repeat 0 20)) /\
  repeat 1 20 ++ repeat 0 20 <> origin (length (repeat 1 20 ++ repeat 0 20)) /\
  match_users Binary32.value
    (repeat (tobytes ones_20, "A"%string) 3)
    (repeat (tobytes ones_20, "A"%string) 3) = Ok (Finite 100).
Proof.
  assert (Hv : calculate_mean_mfcc N_MFCC Binary32.value
                 (repeat (tobytes ones_20, "A"%string) 3)
               = Ok (lift (repeat 1 20 ++ repeat 0 20))).
  { apply (@RepeatedTrack.repeated_library_20 2). }
  assert (Hnz : repeat 1 20 ++ repeat 0 20
                <> origin (length (repeat 1 20 ++ repeat 0 20))).
  { cbn. intros E. injection E as E. lra. }
  split; [exact Hv|]. split; [exact Hnz|].
  exact (@match_users_same_library Binary32.value _ _
           (repeat 1 20 ++ repeat 0 20) (Permutation_refl _) Hv Hnz).
Defined.

End MatchUsersProperties.

(** ** Strings *)

Module PyStringFacts.
Import PyString.
Local Open Scope string_scope.

Lemma append_nil_r (s : string) : s ++ EmptyString = s.
Proof. induction s as [|c s IH]; [reflexivity|]. cbn. rewrite IH. reflexivity. Qed.

Lemma append_assoc (a b c : string) : (a ++ b) ++ c = a ++ (b ++ c).
Proof. induction a as [|x a IH]; [reflexivity|]. cbn. rewrite IH. reflexivity. Qed.

Lemma append_snoc (cur : string) (c : ascii) (s : string) :
  (cur ++ String c EmptyString) ++ s = cur ++ String c s.
Proof. rewrite append_assoc. reflexivity. Qed.

Lemma chars_append (a b : string) : chars (a ++ b) = (chars a ++ chars b)%list.
Proof.
  unfold chars. induction a as [|x a IH]; [reflexivity|].
  cbn. rewrite IH. reflexivity.
Qed.

Lemma prefix_append (sep q : string) : String.prefix sep (sep ++ q) = true.
Proof.
  induction sep as [|c sep IH]; cbn.
  - destruct q; reflexivity.
  - destruct (ascii_dec c c) as [_|N]; [exact IH | contradiction].
Qed.

Lemma prefix_inversion (sep : string) :
  forall s, String.prefix sep s = true -> exists q, s = sep ++ q.
Proof.
  induction sep as [|c sep IH]; intros s H.
  - exists s. reflexivity.
  - destruct s as [|d s]; cbn in H; [discriminate|].
    destruct (ascii_dec c d) as [->|N]; [|discriminate].
    destruct (IH s H) as [q ->]. exists q. reflexivity.
Qed.

(** Passing over the rest of an occurrence. *)
Lemma split_go_skip (sep a : string) :
  forall s cur,
    split_go sep (a ++ s) (String.length a) cur = split_go sep s 0 cur.
Proof.
  induction a as [|c a IH]; intros s cur; [reflexivity|].
  cbn [append String.length split_go]. apply IH.
Qed.

Lemma split_go_occurrence (c : ascii) (sep q cur : string) :
  split_go (String c sep) (String c sep ++ q) 0 cur
  = cur :: split_go (String c sep) q 0 EmptyString.
Proof.
  cbn [append split_go].
  change (String c (sep ++ q)) with (String c sep ++ q).
  rewrite prefix_append.
  cbn [String.length].
  replace (S (String.length sep) - 1) with (String.length sep) by lia.
  f_equal. apply split_go_skip.
Qed.

(** The first piece is the whole string when the separator does not occur
    in it. *)
Lemma split_go_absent (sep : string) :
  forall s cur, ~ occurs sep s -> split_go sep s 0 cur = [cur ++ s].
Proof.
  induction s as [|c s IH]; intros cur Hno; cbn [split_go].
  - rewrite append_nil_r. reflexivity.
  - destruct (String.prefix sep (String c s)) eqn:E.
    + exfalso. apply Hno. apply prefix_inversion in E. destruct E as [q Hq].
      exists EmptyString, q. exact Hq.
    + rewrite IH; [rewrite append_snoc; reflexivity|].
      intros [p [q Hq]]. apply Hno. exists (String c p), q.
      cbn. rewrite Hq. reflexivity.
Qed.

(** The first piece is a proper prefix when the separator occurs. *)
Lemma split_go_present (c : ascii) (sep q : string) :
  forall p cur, exists piece rest r,
    split_go (String c sep) (p ++ String c sep ++ q) 0 cur = piece :: rest /\
    cur ++ p ++ String c sep ++ q = piece ++ r /\ r <> EmptyString.
Proof.
  induction p as [|d p IH]; intros cur.
  - exists cur, (split_go (String c sep) q 0 EmptyString), (String c sep ++ q).
    split; [apply split_go_occurrence|]. split; [reflexivity | discriminate].
  - cbn [append split_go].
    destruct (String.prefix (String c sep) (String d (p ++ String c (sep ++ q)))).
    + eexists cur, _, _. split; [reflexivity|]. split; [reflexivity | discriminate].
    + destruct (IH (cur ++ String d EmptyString)) as [piece [rest [r [H1 [H2 H3]]]]].
      exists piece, rest, r. split; [exact H1|]. split; [|exact H3].
      rewrite <- H2, append_snoc. reflexivity.
Qed.

(** The first piece is always a prefix of what is read. *)
Lemma split_go_prefix (sep : string) :
  forall s cur, exists piece rest r,
    split_go sep s 0 cur = piece :: rest /\ cur ++ s = piece ++ r.
Proof.
  induction s as [|c s IH]; intros cur; cbn [split_go].
  - exists cur, [], EmptyString. split; reflexivity.
  - destruct (String.prefix sep (String c s)).
    + eexists cur, _, _. split; reflexivity.
    + destruct (IH (cur ++ String c EmptyString)) as [piece [rest [r [H1 H2]]]].
      exists piece, rest, r. split; [exact H1|].
      rewrite <- H2, append_snoc. reflexivity.
Qed.

Lemma append_length (a b : string) :
  String.length (a ++ b) = String.length a + String.length b.
Proof. induction a as [|x a IH]; [reflexivity|]. cbn. rewrite IH. reflexivity. Qed.

Lemma append_cancel_r_empty (a r : string) : a = a ++ r -> r = EmptyString.
Proof.
  intros H. apply (f_equal String.length) in H. rewrite append_length in H.
  destruct r; [reflexivity | cbn in H; lia].
Qed.

End PyStringFacts.

(** ** From the confirmation button back to the name of the track *)

Module CallbackProperties.
Import PyString PyStringFacts Catalog.
Local Open Scope string_scope.

Lemma callback_name_confirm_data (track : TrackData) :
  callback_name (confirm_data track)
  = match split_go "confirm:" (track_name track) 0 EmptyString with
    | name :: _ => Item name
    | [] => IndexError
    end.
Proof.
  unfold callback_name, split.
  change (confirm_data track) with ("confirm:" ++ track_name track).
  rewrite (split_go_occurrence "c" "onfirm:" (track_name track) EmptyString).
  reflexivity.
Qed.

(** The name that the confirmation handler reads back from the data of the
    button is the name that the search handler put there exactly when that
    name does not contain the mark ["confirm:"] itself. *)
Theorem callback_name_round_trip (track : TrackData) :
  callback_name (confirm_data track) = Item (track_name track) <->
  ~ occurs "confirm:" (track_name track).
Proof.
  rewrite callback_name_confirm_data. split.
  - intros H [p [q Hpq]].
    destruct (split_go_present "c" "onfirm:" q p EmptyString)
      as [piece [rest [r [H1 [H2 H3]]]]].
    assert (K1 : split_go "confirm:" (track_name track) 0 EmptyString
                 = piece :: rest) by (rewrite Hpq; exact H1).
    assert (K2 : track_name track = piece ++ r) by (rewrite Hpq; exact H2).
    rewrite K1 in H. injection H as H. subst piece.
    exact (H3 (@append_cancel_r_empty (track_name track) r K2)).
  - intros Hno.
    rewrite (@split_go_absent "confirm:" (track_name track) EmptyString Hno).
    reflexivity.
Qed.

(** Whatever the title and the artists are, the confirmation handler finds
    a name in the data of the button, and this name is a prefix of the name
    that was put there: it never raises [IndexError] on such data. *)
Theorem callback_name_prefix (track : TrackData) :
  exists name rest,
    callback_name (confirm_data track) = Item name /\
    track_name track = name ++ rest.
Proof.
  rewrite callback_name_confirm_data.
  destruct (split_go_prefix "confirm:" (track_name track) EmptyString)
    as [piece [rest [r [H1 H2]]]].
  exists piece, r. rewrite H1. split; [reflexivity | exact H2].
Qed.

End CallbackProperties.

(** ** The file name of a downloaded track *)

Module FilenameFacts.
Import PyString PyStringFacts Catalog.
Local Open Scope string_scope.

Lemma map_chars_append (f : ascii -> ascii) (a b : string) :
  map_chars f (a ++ b) = map_chars f a ++ map_chars f b.
Proof. induction a as [|c a IH]; [reflexivity|]. cbn. rewrite IH. reflexivity. Qed.

Lemma map_chars_compose (f g : ascii -> ascii) (s : string) :
  map_chars f (map_chars g s) = map_chars (fun c => f (g c)) s.
Proof. induction s as [|c s IH]; [reflexivity|]. cbn. rewrite IH. reflexivity. Qed.

Lemma map_chars_ext (f g : ascii -> ascii) (s : string) :
  (forall c, f c = g c) -> map_chars f s = map_chars g s.
Proof.
  intros H. induction s as [|c s IH]; [reflexivity|]. cbn. rewrite H, IH. reflexivity.
Qed.

Lemma chars_map_chars (f : ascii -> ascii) (s : string) :
  chars (map_chars f s) = map f (chars s).
Proof.
  unfold chars. induction s as [|c s IH]; [reflexivity|]. cbn. rewrite IH. reflexivity.
Qed.

Lemma replace_char_map (old new : ascii) (s : string) :
  replace_char old new s = map_chars (fun c => if Ascii.eqb c old then new else c) s.
Proof. induction s as [|c s IH]; [reflexivity|]. cbn. rewrite IH. reflexivity. Qed.

Lemma sub_class_map (class : list ascii) (new : ascii) (s : string) :
  sub_class class new s
  = map_chars (fun c => if existsb (Ascii.eqb c) class then new else c) s.
Proof. induction s as [|c s IH]; [reflexivity|]. cbn. rewrite IH. reflexivity. Qed.

(** The three replacements of a name amount to [sanitized] on each
    character. *)
Lemma three_replacements (c : ascii) :
  (fun c => if existsb (Ascii.eqb c) unsafe_chars then "_"%char else c)
    ((fun c => if Ascii.eqb c " " then "_"%char else c)
       ((fun c => if Ascii.eqb c "/" then "_"%char else c) c))
  = sanitized c.
Proof.
  unfold sanitized. cbn [existsb].
  destruct (Ascii.eqb c "/") eqn:E1.
  - apply Ascii.eqb_eq in E1. subst c. reflexivity.
  - destruct (Ascii.eqb c " ") eqn:E2.
    + apply Ascii.eqb_eq in E2. subst c. reflexivity.
    + reflexivity.
Qed.

Lemma sanitized_idempotent (c : ascii) : sanitized (sanitized c) = sanitized c.
Proof.
  destruct (existsb (Ascii.eqb c) (" "%char :: unsafe_chars)) eqn:E.
  - assert (H : sanitized c = "_"%char) by (unfold sanitized; rewrite E; reflexivity).
    rewrite H. reflexivity.
  - assert (H : sanitized c = c) by (unfold sanitized; rewrite E; reflexivity).
    rewrite !H. reflexivity.
Qed.

Lemma sanitized_not_unsafe (c : ascii) :
  ~ In (sanitized c) (" "%char :: unsafe_chars).
Proof.
  unfold sanitized.
  destruct (existsb (Ascii.eqb c) (" "%char :: unsafe_chars)) eqn:E.
  - intros H. cbn in H. repeat (destruct H as [H|H]; [discriminate H|]). exact H.
  - intros H. assert (Ht : existsb (Ascii.eqb c) (" "%char :: unsafe_chars) = true).
    { apply existsb_exists. exists c. split; [exact H | apply Ascii.eqb_refl]. }
    congruence.
Qed.

Lemma join_map_chars (f : ascii -> ascii) (sep : string) (parts : list string) :
  join (map_chars f sep) (map (map_chars f) parts) = map_chars f (join sep parts).
Proof.
  unfold join. induction parts as [|x parts IH]; [reflexivity|].
  destruct parts as [|y parts]; [reflexivity|].
  cbn [map String.concat] in *. rewrite IH, !map_chars_append. reflexivity.
Qed.

(** The file name, character by character. *)
Lemma generate_filename_sanitized (names : list string) (title : string) :
  generate_filename names title
  = map_chars sanitized (join "_" names ++ "-" ++ title) ++ ".mp3".
Proof.
  unfold generate_filename. f_equal.
  rewrite !replace_char_map, sub_class_map, !map_chars_append, !map_chars_compose.
  f_equal; [apply map_chars_ext, three_replacements|].
  f_equal. apply map_chars_ext, three_replacements.
Qed.

End FilenameFacts.

Module FilenameProperties.
Import PyString PyStringFacts Catalog FilenameFacts.
Local Open Scope string_scope.

(** The file name of a track ends with [.mp3] and contains no space, no
    double quote and none of the characters [\ / : * ? < > |], whatever the
    names of the artists and the title are: in particular it has no path
    separator. *)
Theorem generate_filename_safe (names : list string) (title : string) :
  (exists stem, generate_filename names title = stem ++ ".mp3") /\
  Forall (fun c => ~ In c (" "%char :: unsafe_chars))
         (chars (generate_filename names title)).
Proof.
  rewrite generate_filename_sanitized. split; [eexists; reflexivity|].
  rewrite chars_append. apply Forall_app. split.
  - rewrite chars_map_chars. apply Forall_forall. intros c Hc.
    apply in_map_iff in Hc. destruct Hc as [d [<- _]].
    apply sanitized_not_unsafe.
  - cbn. repeat constructor;
      intros H; cbn in H; repeat (destruct H as [H|H]; [discriminate H|]); exact H.
Qed.

(** Names that differ only by characters that the function replaces give
    the same file name: replacing them beforehand changes nothing. Since an
    existing file is reused by [_download_track], two such tracks share one
    file. *)
Theorem generate_filename_sanitized_names (names : list string) (title : string) :
  generate_filename (map (map_chars sanitized) names) (map_chars sanitized title)
  = generate_filename names title.
Proof.
  rewrite !generate_filename_sanitized. f_equal.
  rewrite !map_chars_append.
  rewrite <- (join_map_chars sanitized "_" names).
  change (map_chars sanitized "_") with "_".
  rewrite <- (join_map_chars sanitized "_" (map (map_chars sanitized) names)).
  change (map_chars sanitized "_") with "_".
  rewrite map_map, map_chars_compose.
  f_equal.
  - f_equal. apply map_ext. intros s. rewrite map_chars_compose.
    apply map_chars_ext, sanitized_idempotent.
  - f_equal. apply map_chars_ext, sanitized_idempotent.
Qed.

End FilenameProperties.

(** ** The command /match *)

Module MatchCommandFacts.
Import PyText.

Lemma split_go_spaces (ws : text) :
  Forall (fun c => is_space c = true) ws ->
  forall s, split_go (ws ++ s) [] = split_go s [].
Proof.
  induction 1 as [|c ws Hc _ IH]; intros s; [reflexivity|].
  cbn [app split_go]. rewrite Hc. apply IH.
Qed.

Lemma split_go_word (tok : text) :
  Forall (fun c => is_space c = false) tok ->
  forall s cur, split_go (tok ++ s) cur = split_go s (cur ++ tok).
Proof.
  induction 1 as [|c tok Hc _ IH]; intros s cur.
  - rewrite app_nil_r. reflexivity.
  - cbn [app split_go]. rewrite Hc, IH, <- app_assoc. reflexivity.
Qed.

Lemma split_go_end_of_word (ws : text) (cur : text) :
  Forall (fun c => is_space c = true) ws -> cur <> [] ->
  split_go ws cur = [cur].
Proof.
  intros Hws Hcur. destruct Hws as [|c ws Hc Hws].
  - cbn. destruct cur; [contradiction | reflexivity].
  - cbn [split_go]. rewrite Hc.
    destruct cur as [|x cur]; [contradiction|].
    f_equal. rewrite <- (app_nil_r ws). rewrite (split_go_spaces Hws). reflexivity.
Qed.

Lemma split_go_next_word (ws : text) (cur s : text) :
  Forall (fun c => is_space c = true) ws -> ws <> [] -> cur <> [] ->
  split_go (ws ++ s) cur = cur :: split_go s [].
Proof.
  intros Hws Hne Hcur. destruct Hws as [|c ws Hc Hws]; [contradiction|].
  cbn [app split_go]. rewrite Hc.
  destruct cur as [|x cur]; [contradiction|].
  f_equal. apply (split_go_spaces Hws).
Qed.

(** The words of a command followed by one argument. *)
Lemma split_command (ws0 cmd ws1 arg ws2 : text) :
  Forall (fun c => is_space c = true) ws0 ->
  Forall (fun c => is_space c = false) cmd -> cmd <> [] ->
  Forall (fun c => is_space c = true) ws1 -> ws1 <> [] ->
  Forall (fun c => is_space c = false) arg -> arg <> [] ->
  Forall (fun c => is_space c = true) ws2 ->
  split (ws0 ++ cmd ++ ws1 ++ arg ++ ws2) = [cmd; arg].
Proof.
  intros H0 Hcmd Hcmd' H1 H1' Harg Harg' H2. unfold split.
  rewrite (split_go_spaces H0), (split_go_word Hcmd). cbn [app].
  rewrite (split_go_next_word _ H1 H1' Hcmd'), (split_go_word Harg). cbn [app].
  rewrite (split_go_end_of_word H2 Harg'). reflexivity.
Qed.

End MatchCommandFacts.


Module MatchCommandProperties.
Import PyText MatchCommand MatchCommandFacts Codec Number Aggregator
  AggregatorFinite Similarity SimilarityFacts MatchUsersFacts Examples.
Local Open Scope R_scope.

Section Handler.
Variable get_user_by_chat_id : Z -> option User.
Variable get_user_by_username : text -> option User.
Variable get_user_tracks : nat -> list (list byte * string).
Variable value : float32 -> number.

(** A message made of a command word, whitespace, the character [@]
    followed by a name without whitespace, with any whitespace before and
    after, is answered for exactly that name: the handler looks up the
    author by chat identifier and the other user by the name after the
    [@]. *)
Theorem handle_match_reads_name (ws0 cmd ws1 name ws2 : text) (from_user : Z) :
  Forall (fun c => is_space c = true) ws0 ->
  Forall (fun c => is_space c = false) cmd -> cmd <> [] ->
  Forall (fun c => is_space c = true) ws1 -> ws1 <> [] ->
  Forall (fun c => is_space c = false) name ->
  Forall (fun c => is_space c = true) ws2 ->
  handle_match get_user_by_chat_id get_user_by_username get_user_tracks value
    (ws0 ++ cmd ++ ws1 ++ (at_sign :: name) ++ ws2) from_user
  = answer get_user_by_chat_id get_user_by_username get_user_tracks value
      from_user name.
Proof.
  intros H0 Hcmd Hcmd' H1 H1' Hname H2. unfold handle_match.
  rewrite (@split_command ws0 cmd ws1 (at_sign :: name) ws2); try assumption.
  - rewrite N.eqb_refl. reflexivity.
  - constructor; [reflexivity | exact Hname].
  - discriminate.
Qed.

(** In exact arithmetic: when the author and the named user are both
    registered and all their stored buffers hold at least one frame of 20
    coefficients and finite samples only, the answer is a score between 0
    and 100. *)
Theorem handle_match_score (message_text cmd name : text) (from_user : Z)
  (sender receiver : User) :
  split message_text = [cmd; at_sign :: name] ->
  get_user_by_chat_id from_user = Some sender ->
  get_user_by_username name = Some receiver ->
  finite_library N_MFCC value (get_user_tracks (user_id sender)) ->
  finite_library N_MFCC value (get_user_tracks (user_id receiver)) ->
  exists s,
    handle_match get_user_by_chat_id get_user_by_username get_user_tracks value
      message_text from_user = Ok (Score (Finite s)) /\ 0 <= s <= 100.
Proof.
  intros Hsplit Hs Hr H1 H2. unfold handle_match.
  rewrite Hsplit, N.eqb_refl. unfold answer. rewrite Hs, Hr.
  unfold match_users_by_id, match_users.
  assert (Hn : (0 < N_MFCC)%nat) by (unfold N_MFCC; lia).
  destruct (calculate_mean_mfcc_finite Hn H1) as [v1 [Hv1 Hlen1]].
  destruct (calculate_mean_mfcc_finite Hn H2) as [v2 [Hv2 Hlen2]].
  rewrite Hv1, Hv2. cbn [bind].
  destruct (@similarity_percentage v1 v2) as [s [Hsim Hbounds]];
    [congruence | lia |].
  exists s. rewrite Hsim. split; [reflexivity | exact Hbounds].
Qed.

(** When one stored buffer of the author or of the named user is malformed,
    the handler raises instead of answering: nothing catches the failure of
    the comparison. *)
Theorem handle_match_raises (message_text cmd name : text) (from_user : Z)
  (sender receiver : User) (mfcc : list byte) (artist : string) :
  split message_text = [cmd; at_sign :: name] ->
  get_user_by_chat_id from_user = Some sender ->
  get_user_by_username name = Some receiver ->
  In (mfcc, artist) (get_user_tracks (user_id sender)) \/
  In (mfcc, artist) (get_user_tracks (user_id receiver)) ->
  ~ well_sized N_MFCC mfcc ->
  handle_match get_user_by_chat_id get_user_by_username get_user_tracks value
    message_text from_user = ValueError.
Proof.
  intros Hsplit Hs Hr Hin Hbad. unfold handle_match.
  rewrite Hsplit, N.eqb_refl. unfold answer. rewrite Hs, Hr.
  unfold match_users_by_id.
  assert (Hn : (0 < N_MFCC)%nat) by (unfold N_MFCC; lia).
  rewrite match_users_no_vector; [reflexivity|].
  destruct Hin as [Hin|Hin]; [left | right];
    apply (@calculate_mean_mfcc_malformed N_MFCC value _ mfcc artist Hn Hin Hbad).
Qed.

End Handler.

Lemma handle_match_reads_name_witness :
  handle_match by_chat_id by_username stored_tracks Binary32.value
    (literal "  " ++ literal "/match" ++ literal "   "
     ++ (at_sign :: literal "bob") ++ literal " ") 1001
  = answer by_chat_id by_username stored_tracks Binary32.value
      1001 (literal "bob").
Proof.
  apply (@handle_match_reads_name by_chat_id by_username stored_tracks
           Binary32.value (literal "  ") (literal "/match") (literal "   ")
           (literal "bob") (literal " ") 1001);
    try (repeat constructor); discriminate.
Defined.

Lemma handle_match_score_witness :
  split (literal "/match @bob") = [literal "/match"; at_sign :: literal "bob"] /\
  by_chat_id 1001 = Some alice /\
  by_username (literal "bob") = Some bob /\
  finite_library N_MFCC Binary32.value (stored_tracks (user_id alice)) /\
  finite_library N_MFCC Binary32.value (stored_tracks (user_id bob)) /\
  exists s,
    handle_match by_chat_id by_username stored_tracks Binary32.value
      (literal "/match @bob") 1001 = Ok (Score (Finite s)) /\ 0 <= s <= 100.
Proof.
  assert (H1 : split (literal "/match @bob")
               = [literal "/match"; at_sign :: literal "bob"]) by reflexivity.
  assert (H2 : by_chat_id 1001 = Some alice) by reflexivity.
  assert (H3 : by_username (literal "bob") = Some bob) by reflexivity.
  split; [exact H1|]. split; [exact H2|]. split; [exact H3|].
  split; [exact (proj1 two_libraries_finite)|].
  split; [exact (proj2 two_libraries_finite)|].
  apply (@handle_match_score by_chat_id by_username stored_tracks Binary32.value
           (literal "/match @bob") (literal "/match") (literal "bob") 1001
           alice bob H1 H2 H3).
  - exact (proj1 two_libraries_finite).
  - exact (proj2 two_libraries_finite).
Defined.

Lemma handle_match_raises_witness :
  ~ well_sized N_MFCC truncated /\
  handle_match by_chat_id by_username stored_tracks_corrupt Binary32.value
    (literal "/match @bob") 1001 = ValueError.
Proof.
  assert (Hbad : ~ well_sized N_MFCC truncated).
  { intros [k [Hk Hlen]]. cbn in Hlen. lia. }
  split; [exact Hbad|].
  apply (@handle_match_raises by_chat_id by_username stored_tracks_corrupt
           Binary32.value (literal "/match @bob") (literal "/match")
           (literal "bob") 1001 alice bob truncated "B"%string);
    try reflexivity; [|exact Hbad].
  right. right. left. reflexivity.
Defined.

End MatchCommandProperties.

(** ** The choice of the download *)

Module DownloadProperties.
Import Download.
Local Open Scope Z_scope.

Lemma max_by_greatest {A : Type} (key : A -> Z) (rest : list A) :
  forall best,
    In (max_by key best rest) (best :: rest) /\
    forall x, In x (best :: rest) -> key x <= key (max_by key best rest).
Proof.
  induction rest as [|y rest IH]; intros best; cbn [max_by].
  - split; [now left|]. intros x [<-|[]]. lia.
  - destruct (key best <? key y) eqn:E.
    + apply Z.ltb_lt in E. destruct (IH y) as [Hin Hmax]. split.
      * right. exact Hin.
      * intros x [<-|Hx]; [|apply Hmax, Hx].
        specialize (Hmax y (or_introl eq_refl)). lia.
    + apply Z.ltb_ge in E. destruct (IH best) as [Hin Hmax]. split.
      * destruct Hin as [Hin|Hin]; [now left | right; now right].
      * intros x [<-|[<-|Hx]].
        -- apply Hmax. now left.
        -- specialize (Hmax best (or_introl eq_refl)). lia.
        -- apply Hmax. now right.
Qed.

(** [_download_track] has nothing to download exactly when no information
    has the codec mp3; otherwise it uses one of the mp3 informations, whose
    bit rate, a missing or zero bit rate counting for 320, is at least that
    of every other mp3 information. *)
Theorem best_info_greatest (download_info : list DownloadInfo) :
  (best_info download_info = None <->
   forall x, In x download_info -> codec x <> "mp3"%string) /\
  (forall b, best_info download_info = Some b ->
     In b download_info /\ codec b = "mp3"%string /\
     forall x, In x download_info -> codec x = "mp3"%string ->
       sort_key x <= sort_key b).
Proof.
  unfold best_info.
  destruct (filter (fun info => String.eqb (codec info) "mp3") download_info)
    as [|y rest] eqn:E.
  - split.
    + split; [|reflexivity]. intros _ x Hx Hc.
      assert (Hin : In x (filter (fun info => String.eqb (codec info) "mp3")
                            download_info)).
      { apply filter_In. split; [exact Hx|]. apply String.eqb_eq, Hc. }
      rewrite E in Hin. destruct Hin.
    + intros b H. discriminate.
  - split.
    + split; [discriminate|]. intros H. exfalso.
      assert (Hin : In y (filter (fun info => String.eqb (codec info) "mp3")
                            download_info)) by (rewrite E; now left).
      apply filter_In in Hin. destruct Hin as [Hy Hc].
      apply (H y Hy), String.eqb_eq, Hc.
    + intros b H. injection H as <-.
      destruct (max_by_greatest sort_key rest y) as [Hin Hmax].
      rewrite <- E in Hin. apply filter_In in Hin. destruct Hin as [Hb Hc].
      split; [exact Hb|]. split; [apply String.eqb_eq, Hc|].
      intros x Hx Hcx. apply Hmax. rewrite <- E.
      apply filter_In. split; [exact Hx | apply String.eqb_eq, Hcx].
Qed.

End DownloadProperties.

(** ** The search in the catalogue *)

Module SearchProperties.
Import Catalog Search.

Lemma flat_map_option_length {A B : Type} (f : A -> option B) (l : list A) :
  length (flat_map (fun x => match f x with Some y => [y] | None => [] end) l)
  <= length l.
Proof.
  induction l as [|x l IH]; [reflexivity|].
  cbn [flat_map]. rewrite length_app. destruct (f x); cbn [length]; lia.
Qed.

(** [search_tracks] returns at most [count] tracks and at most as many as
    there are hits; each of them is the data of one of the first [count]
    hits, and the hits whose processing failed are left out silently. *)
Theorem search_tracks_bounded (Hit : Type) (process_track : Hit -> option TrackData)
  (hits : list Hit) (count : Z) :
  (0 <= count)%Z ->
  length (search_tracks process_track hits count) <= Z.to_nat count /\
  length (search_tracks process_track hits count) <= length hits /\
  forall data, In data (search_tracks process_track hits count) ->
    exists hit, In hit (firstn (Z.to_nat count) hits) /\
                process_track hit = Some data.
Proof.
  intros Hcount. unfold search_tracks, slice_to.
  replace (0 <=? count)%Z with true by (symmetry; apply Z.leb_le, Hcount).
  pose proof (flat_map_option_length process_track (firstn (Z.to_nat count) hits)) as H.
  rewrite length_firstn in H.
  split; [lia|]. split; [lia|].
  intros data Hin. apply in_flat_map in Hin. destruct Hin as [hit [Hhit Hd]].
  exists hit. split; [exact Hhit|].
  destruct (process_track hit) as [d|]; [|destruct Hd].
  destruct Hd as [<-|[]]. reflexivity.
Qed.

Lemma search_tracks_bounded_witness :
  (0 <= 1)%Z /\
  length (search_tracks (fun n : nat => if n =? 0 then None else
            Some {| title := "T"; artists := ["A"%string]; file_path := None |})
          [0; 1; 2] 1) <= Z.to_nat 1.
Proof.
  assert (H : (0 <= 1)%Z) by lia.
  split; [exact H|].
  exact (proj1 (@search_tracks_bounded nat _ [0; 1; 2] 1%Z H)).
Defined.

End SearchProperties.
